(** * The DynamoDB access-pattern layer of aws-serverless-simple

    A shallow embedding of [src/service/dynamo.js] (the partitioner, the
    [DynamoDB] store wrapper and [DynamoCollection]), of [src/util.js]
    (the cursor codec and [collectionDifferences]), of the publishing
    helpers, of the retries of [src/app/worker.js], of the migrator and of
    the identifier renaming of [src/service/algolia.js], with the
    properties the specification states about them and further
    properties read off the code. The first half of the file holds the
    definitions, the second half the proofs.

    Conventions of the embedding.
    - A JavaScript string is a [string]: a sequence of characters with code
      points 0..255 (one [ascii] per character).
    - A plain JavaScript object used as a record of fields is the
      [gmap string value] of its own fields. Reading [obj[field]] goes
      through [getProp]: a field the object does not have is looked up in
      [Object.prototype], so that the names [constructor], [toString],
      [valueOf] and the like read as the builtins they are, and only
      then as [VUndefined]. Writing [obj[field] = v] goes through
      [assign]. The entities, change sets and configurations a caller
      passes are plain objects with the prototype every object literal
      has. The order of the fields of an object is not recorded, except
      where the code enumerates them ([updateExpression]): there the
      object is the list of its fields.
    - A number is a safe integer, which prints in decimal digits; other
      numbers are not modelled.
    - Code that can throw returns [error + A] ([inl] is the exception); a
      promise is the way it settles.
    - The callbacks the code is given (an inclusion predicate) are pure
      and total functions.
    - The store behind the DocumentClient is an oracle: a function that
      gives the answer to each call; where a statement is about what is
      left in the table, the table is a state that the calls transform.
    - Builtins of the platform whose results the code only passes along
      ([JSON.stringify], [JSON.parse], [Number]) are parameters of the
      sections that use them; [Buffer], the regular expressions the code
      builds and SHA-1 are written out.
    - A loop or a recursion that the code itself bounds takes fuel, and
      the statements say how much is enough. *)

From Stdlib Require Import ZArith NArith String Ascii List Lia Bool DecimalString.
From stdpp Require Import base gmap strings list.

(** ** JavaScript values held in entity fields *)

Module JS.

(** The integers that a Number holds exactly and that print in decimal
    digits: those of magnitude at most [2^53 - 1]. *)
Definition is_safe_integer (n : Z) : bool := (Z.abs n <=? 9007199254740991)%Z.

Record safe_integer : Type := SafeInteger {
  integer : Z;
  integer_is_safe : Is_true (is_safe_integer integer)
}.

(** The members of [Object.prototype]. An entity, a change set and the
    objects the code builds are plain objects: reading from one a field
    it does not have finds the member of that name, if there is one. *)
Inductive member : Type :=
| MConstructor
| MDefineGetter
| MDefineSetter
| MHasOwnProperty
| MLookupGetter
| MLookupSetter
| MIsPrototypeOf
| MPropertyIsEnumerable
| MToString
| MValueOf
| MProto
| MToLocaleString.

Definition member_name (m : member) : string :=
  match m with
  | MConstructor => "constructor"
  | MDefineGetter => "__defineGetter__"
  | MDefineSetter => "__defineSetter__"
  | MHasOwnProperty => "hasOwnProperty"
  | MLookupGetter => "__lookupGetter__"
  | MLookupSetter => "__lookupSetter__"
  | MIsPrototypeOf => "isPrototypeOf"
  | MPropertyIsEnumerable => "propertyIsEnumerable"
  | MToString => "toString"
  | MValueOf => "valueOf"
  | MProto => "__proto__"
  | MToLocaleString => "toLocaleString"
  end.

Definition members : list member :=
  [MConstructor; MDefineGetter; MDefineSetter; MHasOwnProperty; MLookupGetter;
   MLookupSetter; MIsPrototypeOf; MPropertyIsEnumerable; MToString; MValueOf;
   MProto; MToLocaleString].

Definition member_named (field : string) : option member :=
  List.find (fun m => String.eqb (member_name m) field) members.

(** Field values: [undefined], [null], booleans, the safe integers,
    strings, arrays of values, and the members of [Object.prototype]
    ([VMember m] is the value of [Object.prototype[name]]: a builtin
    function, and for [__proto__] the object [Object.prototype] itself).
    Other numbers and objects nested in a field are not modelled. *)
#[local] Unset Elimination Schemes.
Inductive value : Type :=
| VUndefined
| VNull
| VBool (b : bool)
| VNum (n : safe_integer)
| VStr (s : string)
| VArr (items : list value)
| VMember (m : member).
#[local] Set Elimination Schemes.

(** [lodash.isequal] on these values: the same scalar, arrays of the
    same length whose elements are equal in turn, or one and the same
    member of [Object.prototype]. *)
Fixpoint isEqual (a b : value) {struct a} : bool :=
  match a, b with
  | VUndefined, VUndefined => true
  | VNull, VNull => true
  | VBool x, VBool y => Bool.eqb x y
  | VNum x, VNum y => Z.eqb (integer x) (integer y)
  | VStr x, VStr y => String.eqb x y
  | VArr xs, VArr ys =>
      (fix each (xs ys : list value) {struct xs} : bool :=
         match xs, ys with
         | [], [] => true
         | x :: xs', y :: ys' => isEqual x y && each xs' ys'
         | _, _ => false
         end) xs ys
  | VMember x, VMember y => String.eqb (member_name x) (member_name y)
  | _, _ => false
  end.

Fixpoint join (sep : string) (parts : list string) : string :=
  match parts with
  | [] => ""
  | [p] => p
  | p :: rest => p +:+ sep +:+ join sep rest
  end.

(** [String(v)], the conversion [String.prototype.replace] applies to a
    replacement that is no function. An array prints its elements
    separated by commas, [null] and [undefined] elements as the empty
    string; a builtin function prints as V8 prints it. *)
Fixpoint toString (v : value) : string :=
  match v with
  | VUndefined => "undefined"
  | VNull => "null"
  | VBool true => "true"
  | VBool false => "false"
  | VNum n => NilZero.string_of_int (Z.to_int (integer n))
  | VStr s => s
  | VArr items =>
      join "," (List.map (fun x => match x with
                                   | VUndefined | VNull => ""
                                   | _ => toString x
                                   end) items)
  | VMember MProto => "[object Object]"
  | VMember MConstructor => "function Object() { [native code] }"
  | VMember m => "function " +:+ member_name m +:+ "() { [native code] }"
  end.

Definition is_undefined (v : value) : bool :=
  match v with VUndefined => true | _ => false end.

(** [obj[field]] on a plain object: the object's own field, or else the
    member of [Object.prototype] of that name, or else [undefined]. *)
Definition getProp (obj : gmap string value) (field : string) : value :=
  match obj !! field with
  | Some v => v
  | None =>
      match member_named field with
      | Some m => VMember m
      | None => VUndefined
      end
  end.

(** [obj[field] = v] on an object the code has built: the field is
    written, except that [__proto__] is no field but the setter of
    [Object.prototype], which writes none. (The setter can give the
    object another prototype, which this embedding does not record: the
    statements that depend on how such an object is enumerated or found
    empty ask that [__proto__] is not among the names written.) *)
Definition assign {A : Type} (obj : gmap string A) (field : string) (v : A)
  : gmap string A :=
  if String.eqb field "__proto__" then obj else <[field := v]> obj.

(** The field is no name of a member of [Object.prototype]. *)
Definition plain_name (field : string) : bool :=
  match member_named field with Some _ => false | None => true end.

(** [{ ...a, ...b }]: the fields of [b] override those of [a]. *)
Definition spread (a b : gmap string value) : gmap string value := b ∪ a.

(** A function. *)
Definition isFunction (v : value) : bool :=
  match v with
  | VMember MProto => false
  | VMember _ => true
  | _ => false
  end.

(** A valid array length. *)
Definition isLength (v : value) : bool :=
  match v with
  | VNum n => (0 <=? integer n)%Z
  | _ => false
  end.

(** [lodash.isempty] on a plain object: it has no own field; but an
    object that has a valid [length] and a function [splice] is taken
    for a collection, which is empty when its [length] is zero. *)
Definition isEmpty (obj : gmap string value) : bool :=
  if isLength (getProp obj "length") && isFunction (getProp obj "splice")
  then isEqual (getProp obj "length") (VNum (SafeInteger 0 I))
  else bool_decide (obj = ∅).

(** Exceptions the modelled code can raise. [SyntaxError] is thrown by
    [new RegExp] and carries the source it was given; [TypeError] is
    thrown by the builtin [callee] called on [undefined] (its message is
    the engine's); [DatabaseError] carries the message given to its
    constructor, which [src/errors.js] prefixes with the error's name. *)
Inductive error : Type :=
| SyntaxError (source : string)
| TypeError (callee : member)
| DatabaseError (message : string).

Definition DatabaseError_message (message : string) : string :=
  "DatabaseError: " +:+ message.

End JS.

Export JS.

Global Instance safe_integer_eq_dec : EqDecision safe_integer.
Proof.
  intros [x Hx] [y Hy]. destruct (decide (x = y)) as [Heq|Hne].
  - left. subst y. f_equal. revert Hx Hy.
    destruct (is_safe_integer x); simpl; [now intros [] [] | intros []].
  - right. intros [= H]. contradiction.
Defined.

Global Instance member_eq_dec : EqDecision member.
Proof. intros a b. unfold Decision. decide equality. Defined.

Global Instance value_eq_dec : EqDecision value.
Proof.
  refine (fix go (a b : value) {struct a} : Decision (a = b) :=
    match a, b with
    | VUndefined, VUndefined => left eq_refl
    | VNull, VNull => left eq_refl
    | VBool x, VBool y => cast_if (decide (x = y))
    | VNum x, VNum y => cast_if (decide (x = y))
    | VStr x, VStr y => cast_if (decide (x = y))
    | VArr xs, VArr ys =>
        cast_if ((fix each (xs ys : list value) {struct xs}
                    : Decision (xs = ys) :=
                    match xs, ys with
                    | [], [] => left eq_refl
                    | x :: xs', y :: ys' =>
                        cast_if_and (go x y) (each xs' ys')
                    | _, _ => right _
                    end) xs ys)
    | VMember x, VMember y => cast_if (decide (x = y))
    | _, _ => right _
    end); abstract congruence.
Defined.

(** ** Key templates: [DynamoCollection.#key] *)

Module KeyTemplate.

(** [\w] of a RegExp without the [u] flag: ASCII letters, digits and [_]. *)
Definition is_word (c : ascii) : bool :=
  let n := nat_of_ascii c in
  ((48 <=? n) && (n <=? 57)) || ((65 <=? n) && (n <=? 90))
  || ((97 <=? n) && (n <=? 122)) || (n =? 95).

Definition is_digit (c : ascii) : bool :=
  let n := nat_of_ascii c in (48 <=? n) && (n <=? 57).

(** The longest run of word characters at the head of [s], and the rest. *)
Fixpoint word_prefix (s : string) : string * string :=
  match s with
  | String c s' =>
      if is_word c
      then let (w, r) := word_prefix s' in (String c w, r)
      else ("", s)
  | EmptyString => ("", "")
  end.

(** A match of [/{(\w+)}/] whose opening brace has just been read: the
    greedy [\w+] takes the whole run of word characters, and the match
    succeeds when the run is not empty and a closing brace follows. *)
Definition placeholder_at (s : string) : option string :=
  match word_prefix s with
  | (String c w, String "}" _) => Some (String c w)
  | _ => None
  end.

(** [pattern.matchAll(/{(\w+)}/g)]: the successive matches, left to right
    and not overlapping; each is returned as its captured field name.
    [skip] counts the characters of the current match still to pass. *)
Fixpoint matchAll_from (skip : nat) (s : string) : list string :=
  match s with
  | EmptyString => []
  | String c s' =>
      match skip with
      | S k => matchAll_from k s'
      | O =>
          if Ascii.eqb c "{"
          then match placeholder_at s' with
               | Some field => field :: matchAll_from (S (String.length field)) s'
               | None => matchAll_from 0 s'
               end
          else matchAll_from 0 s'
      end
  end.

Definition matchAll (pattern : string) : list string := matchAll_from 0 pattern.

(** [token[0]], the matched text of a placeholder. *)
Definition token_text (field : string) : string := "{" +:+ field +:+ "}".

Definition all_digits (s : string) : bool :=
  forallb is_digit (list_ascii_of_string s).

(** [new RegExp(match, 'g')] for [match = "{field}"]. Without the [u]
    flag a brace that does not form a quantifier is an ordinary character,
    so the expression matches the text [{field}] literally; when the braces
    hold only digits they form a quantifier with nothing to repeat and the
    constructor throws a SyntaxError (ECMAScript, Annex B.1.2,
    InvalidBracedQuantifier). *)
Definition RegExp_throws (field : string) : bool := all_digits field.

(** The replacement text of one match (ECMAScript GetSubstitution) for an
    expression without capture groups: [$$] is a dollar sign, [$&] the
    matched text, [$`] the text before the match, [$'] the text after it;
    any other dollar sign stands for itself. *)
Fixpoint GetSubstitution (matched before after replacement : string) : string :=
  match replacement with
  | EmptyString => ""
  | String "$" (String c rest as tail) =>
      if Ascii.eqb c "$" then String "$" (GetSubstitution matched before after rest)
      else if Ascii.eqb c "&" then matched +:+ GetSubstitution matched before after rest
      else if Ascii.eqb c "`" then before +:+ GetSubstitution matched before after rest
      else if Ascii.eqb c "'" then after +:+ GetSubstitution matched before after rest
      else String "$" (GetSubstitution matched before after tail)
  | String c rest => String c (GetSubstitution matched before after rest)
  end.

Definition string_drop (n : nat) (s : string) : string :=
  substring n (String.length s - n) s.

(** [whole.replace(new RegExp(pat, 'g'), rep)] for a literal [pat]: the
    scan is at offset [pos] of [whole], [s] is what remains, and [skip]
    counts the characters of the current match still to pass. *)
Fixpoint replace_from (pat rep whole : string) (pos skip : nat) (s : string) : string :=
  match s with
  | EmptyString => ""
  | String c s' =>
      match skip with
      | S k => replace_from pat rep whole (S pos) k s'
      | O =>
          if String.prefix pat s
          then GetSubstitution pat (substring 0 pos whole)
                 (string_drop (pos + String.length pat) whole) rep
               +:+ replace_from pat rep whole (S pos) (String.length pat - 1) s'
          else String c (replace_from pat rep whole (S pos) 0 s')
      end
  end.

Definition replace_all (pat rep whole : string) : string :=
  replace_from pat rep whole 0 0 whole.

(** [key.replace(regexp, f)] for a literal pattern and a replacer
    function whose result for a match is [text]: each match gives way to
    [text] as it is. [skip] counts the characters of the current match
    still to pass. *)
Fixpoint replace_literal (pat text : string) (skip : nat) (s : string) : string :=
  match s with
  | EmptyString => ""
  | String c s' =>
      match skip with
      | S k => replace_literal pat text k s'
      | O =>
          if String.prefix pat s
          then text +:+ replace_literal pat text (String.length pat - 1) s'
          else String c (replace_literal pat text 0 s')
      end
  end.

(** The pattern matches somewhere in [s]. *)
Fixpoint occurs (pat s : string) : bool :=
  match s with
  | EmptyString => false
  | String _ s' => String.prefix pat s || occurs pat s'
  end.

(** What a member of [Object.prototype] does when [replace] calls it as
    replacer, with [this] undefined and the matched text as first
    argument; [None] for [__proto__], which is no function.
    [Object(matched)] is a String object, which converts to the matched
    text; [toString] answers for [undefined]; [isPrototypeOf] answers
    [false] for an argument that is no object; the others convert
    [this] to an object first and throw. *)
Definition called_as_replacer (m : member) (matched : string) : option (error + string) :=
  match m with
  | MProto => None
  | MConstructor => Some (inr matched)
  | MToString => Some (inr "[object Undefined]")
  | MIsPrototypeOf => Some (inr "false")
  | _ => Some (inl (TypeError m))
  end.

(** [key.replace(new RegExp(pat, 'g'), value)] for a literal [pat]: a
    value that is a function is called for each match, any other value
    is converted to text once. *)
Definition replace (pat : string) (value : value) (key : string) : error + string :=
  match match value with
        | VMember m => called_as_replacer m pat
        | _ => None
        end with
  | None => inr (replace_all pat (toString value) key)
  | Some outcome =>
      if occurs pat key
      then match outcome with
           | inl e => inl e
           | inr text => inr (replace_literal pat text 0 key)
           end
      else inr key
  end.

(** The loop of [#key] over the tokens of the pattern. *)
Fixpoint key_loop (tokens : list string) (data : gmap string value) (key : string)
  : error + string :=
  match tokens with
  | [] => inr key
  | field :: rest =>
      let value := getProp data field in
      if RegExp_throws field then inl (SyntaxError (token_text field))
      else match replace (token_text field) value key with
           | inl e => inl e
           | inr key' => key_loop rest data key'
           end
  end.

(** [#key(pattern, data)] *)
Definition key (pattern : string) (data : gmap string value) : error + string :=
  key_loop (matchAll pattern) data pattern.

End KeyTemplate.

Export KeyTemplate.


(** ** What the specification says of key resolution

    "The template with each placeholder replaced by that field's value":
    the template is read once, as literal characters and placeholders, and
    each placeholder gives way to a text. This second definition follows
    the specification; [key] above follows the code. *)

Module TemplateSpec.

Inductive segment : Type :=
| Lit (c : ascii)
| Hole (field : string).

(** The template as its literal characters and its placeholders, the
    placeholders being the matches of [/{(\w+)}/g]. *)
Fixpoint segments_from (skip : nat) (s : string) : list segment :=
  match s with
  | EmptyString => []
  | String c s' =>
      match skip with
      | S k => segments_from k s'
      | O =>
          if Ascii.eqb c "{"
          then match placeholder_at s' with
               | Some field => Hole field :: segments_from (S (String.length field)) s'
               | None => Lit c :: segments_from 0 s'
               end
          else Lit c :: segments_from 0 s'
      end
  end.

Definition segments (template : string) : list segment := segments_from 0 template.

(** The template with each placeholder [{field}] replaced by [text field]. *)
Definition substitute (text : string -> string) (template : string) : string :=
  fold_right (fun seg acc => match seg with
                             | Lit c => String c acc
                             | Hole field => text field +:+ acc
                             end) "" (segments template).

Definition holes (segs : list segment) : list string :=
  flat_map (fun seg => match seg with Lit _ => [] | Hole f => [f] end) segs.

Definition has_char (c : ascii) (s : string) : bool :=
  existsb (Ascii.eqb c) (list_ascii_of_string s).

(** An opening brace of the template that starts no placeholder. *)
Definition stray_brace (seg : segment) : bool :=
  match seg with Lit c => Ascii.eqb c "{" | Hole _ => false end.

(** Every opening brace of the template starts a placeholder. *)
Definition braces_open_placeholders (template : string) : bool :=
  negb (existsb stray_brace (segments template)).

(** A replacement text that [replace] copies as it is and that cannot
    complete a placeholder: it holds neither [$] nor an opening brace. *)
Definition plain (s : string) : bool :=
  negb (has_char "$" s) && negb (has_char "{" s).

(** Field names are runs of word characters. *)
Definition wordy (s : string) : bool := forallb is_word (list_ascii_of_string s).

Definition mem (f : string) (l : list string) : bool := existsb (String.eqb f) l.

(** The key while the loop of [#key] runs: the template in which the
    placeholders of the fields in [done] have been replaced and the others
    still stand. *)
Fixpoint render (text : string -> string) (done : list string) (segs : list segment) : string :=
  match segs with
  | [] => ""
  | Lit c :: rest => String c (render text done rest)
  | Hole f :: rest =>
      (if mem f done then text f else token_text f) +:+ render text done rest
  end.

End TemplateSpec.

Export TemplateSpec.

(** ** [DynamoCollection.update] *)

Module Collection.

(** An access pattern as the constructor stores it:
    [{ pk, sk, fields, when }], the last two optional. [when] is a pure
    predicate of the entity; its result is read for truthiness. *)
Record pattern : Type := Pattern {
  pk : string;
  sk : string;
  fields : option (list string);
  when : option (gmap string value -> bool)
}.

(** [{ pk: ..., sk: ... }] *)
Record item_key : Type := ItemKey { key_pk : string; key_sk : string }.

Definition key_object (k : item_key) : gmap string value :=
  <["pk" := VStr (key_pk k)]> (<["sk" := VStr (key_sk k)]> ∅).

(** An element of the list given to [transactWrite]: [{ Put: { Item } }],
    [{ Delete: { Key } }] or [{ Update: { Key, ...updateFields } }], each
    with an optional [TableName]. [Update] keeps the object
    [updateExpression] was given (after it removed [pk] and [sk] from it):
    the expression text and its two attribute maps are built from that
    object alone. *)
Inductive op : Type :=
| Put (TableName : option string) (Item : gmap string value)
| Delete (TableName : option string) (Key : item_key)
| Update (TableName : option string) (Key : item_key) (assignments : gmap string value).

(** The first loop of [update]: the fields of [changes] that equal the
    current value are deleted from the object. *)
Definition remove_unchanged (data changes : gmap string value) : gmap string value :=
  filter (fun kv => isEqual (getProp data kv.1) kv.2 = false) changes.

(** The loop over [fields] (lines 626-635): [prev], [curr] and
    [currChanges], all three starting empty. *)
Definition pull_field (data changes : gmap string value)
    (acc : gmap string value * gmap string value * gmap string value)
    (field : string) : gmap string value * gmap string value * gmap string value :=
  let '(prev, curr, currChanges) := acc in
  let prev := assign prev field (getProp data field) in
  if negb (is_undefined (getProp changes field))
  then (prev, assign curr field (getProp changes field),
        assign currChanges field (getProp changes field))
  else (prev, assign curr field (getProp data field), currChanges).

Definition pull_fields (fs : list string) (data changes : gmap string value)
  : gmap string value * gmap string value * gmap string value :=
  fold_left (pull_field data changes) fs (∅, ∅, ∅).

(** [DynamoDB.updateExpression] deletes [pk] and [sk] from the object it is
    given before it reads the object's fields. *)
Definition strip_keys (object : gmap string value) : gmap string value :=
  delete "sk" (delete "pk" object).

Definition bind {A B : Type} (x : error + A) (f : A -> error + B) : error + B :=
  match x with
  | inl e => inl e
  | inr a => f a
  end.

Local Notation "'try' x := e 'in' k" := (bind e (fun x => k))
  (at level 10, x name, e at level 100, k at level 200, only parsing).

(** [{ pk: this.#key(pk, data), sk: this.#key(sk, data) }] *)
Definition resolve_keys (p : pattern) (data : gmap string value) : error + item_key :=
  try a := key (pk p) data in
  try b := key (sk p) data in
  inr (ItemKey a b).

Definition key_changed (prevKey currKey : item_key) : bool :=
  negb (String.eqb (key_pk prevKey) (key_pk currKey))
  || negb (String.eqb (key_sk prevKey) (key_sk currKey)).

(** One turn of the loop over [this.keys] (lines 615-701). The state is
    the [changes] object: without a field list [currChanges] is that very
    object, so what [updateExpression] deletes from it is deleted from
    [changes]. The result is the object afterwards and either the
    exception thrown or the operations pushed. *)
Definition update_pattern (data changes : gmap string value) (p : pattern)
  : gmap string value * (error + list op) :=
  let merged := spread data changes in
  let '(prev, curr, currChanges) :=
    match fields p with
    | Some fs => pull_fields fs data changes
    | None => (data, spread data changes, changes)
    end in
  let leaves := match when p with
                | Some w => w data && negb (w merged)
                | None => false
                end in
  let excluded := match when p with
                  | Some w => negb (w merged)
                  | None => false
                  end in
  if leaves then
    (changes, try k := resolve_keys p data in inr [Delete None k])
  else if excluded then
    (changes, inr [])
  else
    match resolve_keys p data with
    | inl e => (changes, inl e)
    | inr prevKey =>
        match resolve_keys p merged with
        | inl e => (changes, inl e)
        | inr currKey =>
            if key_changed prevKey currKey then
              (changes,
               inr [Delete None prevKey; Put None (spread curr (key_object currKey))])
            else if negb (isEmpty currChanges) then
              let assignments := strip_keys currChanges in
              (match fields p with Some _ => changes | None => assignments end,
               inr [Update None currKey assignments])
            else (changes, inr [])
        end
    end.

Fixpoint update_loop (data changes : gmap string value) (keys : list pattern)
    (ops : list op) : gmap string value * (error + list op) :=
  match keys with
  | [] => (changes, inr ops)
  | p :: rest =>
      match update_pattern data changes p with
      | (changes', inl e) => (changes', inl e)
      | (changes', inr pushed) => update_loop data changes' rest (ops ++ pushed)
      end
  end.

(** How a call of [update] ends: with an exception, with the early
    [return] that contacts nothing, or with
    [return this.dynamo.transactWrite(ops)]. *)
Inductive outcome : Type :=
| Threw (e : error)
| Skipped
| Submitted (ops : list op).

(** [update(data, changes, { extraOps })] on a collection whose patterns
    are [keys]: the caller's [changes] object as the call leaves it, and
    the outcome. *)
Definition update (keys : list pattern) (data changes : gmap string value)
    (extraOps : option (list op)) : gmap string value * outcome :=
  let changes := remove_unchanged data changes in
  match update_loop data changes keys [] with
  | (changes', inl e) => (changes', Threw e)
  | (changes', inr ops) =>
      let ops := match extraOps with
                 | Some extra => ops ++ extra
                 | None => ops
                 end in
      if Nat.eqb (length ops) 0 then (changes', Skipped)
      else (changes', Submitted ops)
  end.

(** The projected item of the specification: the listed fields of the
    entity, or the whole entity when the pattern lists none (the
    projection [add] makes, lines 525-531), together with the two resolved
    keys. This definition follows the specification; [update_pattern]
    follows the code. *)
Definition project (fs : option (list string)) (entity : gmap string value)
  : gmap string value :=
  match fs with
  | Some fs => fold_left (fun item field => <[field := getProp entity field]> item) fs ∅
  | None => entity
  end.

Definition projected_item (p : pattern) (entity : gmap string value) (k : item_key)
  : gmap string value :=
  spread (project (fields p) entity) (key_object k).

End Collection.

Export Collection.

(** Vocabulary of the statements about [update]. *)

(** The pattern's inclusion predicate, if any, accepts the entity. *)
Definition included (p : pattern) (entity : gmap string value) : bool :=
  match when p with
  | Some w => w entity
  | None => true
  end.

(** The value is a builtin that throws when [replace] calls it as
    replacer. *)
Definition throws_as_replacer (v : value) : bool :=
  match v with
  | VMember m =>
      match called_as_replacer m "" with
      | Some (inl _) => true
      | _ => false
      end
  | _ => false
  end.

(** No placeholder of the template makes [new RegExp] throw, and none
    reads from the entity a builtin that throws when it is called. *)
Definition template_resolves (template : string) (data : gmap string value) : bool :=
  forallb (fun field => negb (RegExp_throws field)
                        && negb (throws_as_replacer (getProp data field)))
    (matchAll template).

Definition pattern_resolves (p : pattern) (data : gmap string value) : bool :=
  template_resolves (pk p) data && template_resolves (sk p) data.

(** No listed field of the pattern is named like a member of
    [Object.prototype]. *)
Definition plain_fields (p : pattern) : bool :=
  match fields p with
  | Some fs => forallb plain_name fs
  | None => true
  end.

(** The change set sets no listed field of the pattern to [undefined]. *)
Definition defines_listed (p : pattern) (changes : gmap string value) : bool :=
  match fields p with
  | Some fs => forallb (fun f => negb (bool_decide (changes !! f = Some VUndefined))) fs
  | None => true
  end.

(** Every field of the change set is a field of the entity, or differs
    from what reading it from the entity gives: the first loop of
    [update] then deletes from the change set only fields that the entity
    has with the same value, and the entity merged with the change set is
    the same before and after that loop. *)
Definition no_dangling (data changes : gmap string value) : bool :=
  bool_decide
    (map_Forall (fun f v => is_Some (data !! f) \/ isEqual (getProp data f) v = false)
       changes).

(** The turns of the loop of [update] for these patterns leave the change
    set as they find it: every pattern has a field list, or the change
    set has neither [pk] nor [sk] for [updateExpression] to delete. *)
Definition change_set_kept (keys : list pattern) (changes : gmap string value) : bool :=
  forallb (fun q => bool_decide (is_Some (fields q))) keys
  || (bool_decide (changes !! "pk" = None) && bool_decide (changes !! "sk" = None)).

(** The operations that the loop of [update] assembles for these patterns
    from the caller's entity and change set, before the extra operations
    are appended; or the exception it throws. *)
Definition emitted (keys : list pattern) (data changes : gmap string value)
  : error + list op :=
  (update_loop data (remove_unchanged data changes) keys []).2.

(** ** The store wrapper: [DynamoDB] *)

Module Store.

(** [lodash.chunk(array, size)]: slices of [size] elements taken from the
    front while elements remain; no slice at all when [size < 1]. The loop
    runs at most once per element. *)
Fixpoint chunk_loop {A : Type} (fuel size : nat) (array : list A) : list (list A) :=
  match fuel with
  | O => []
  | S fuel' =>
      match array with
      | [] => []
      | _ :: _ => take size array :: chunk_loop fuel' size (drop size array)
      end
  end.

Definition chunk {A : Type} (array : list A) (size : nat) : list (list A) :=
  if (size <? 1)%nat then [] else chunk_loop (length array) size array.

(** What a call of the DocumentClient answers. *)
Inductive response : Type :=
| Success
| Failure (message : string).

(** Values the wrapper's promises resolve to: [true], or the array
    [Promise.all] collects. *)
#[local] Unset Elimination Schemes.
Inductive jsret : Type :=
| RTrue
| RArray (results : list jsret).
#[local] Set Elimination Schemes.

Inductive promise : Type :=
| Resolved (v : jsret)
| Rejected (e : error).

Definition is_resolved (s : promise) : bool :=
  match s with Resolved _ => true | Rejected _ => false end.

(** A finished call of the wrapper: the payloads of the client calls it
    made, and how its promise settled. *)
Record run (P : Type) : Type := Run { calls : list P; settled : promise }.
Arguments Run {P} _ _.
Arguments calls {P} _.
Arguments settled {P} _.

(** [Promise.all] over finished calls: resolved with the array of results
    when every one resolved, rejected otherwise. The calls run
    concurrently; their client calls are listed call after call, and of
    several rejections the first in the list is reported (which one wins
    in time is not modelled). *)
Fixpoint all_settled (runs : list promise) : promise :=
  match runs with
  | [] => Resolved (RArray [])
  | Rejected e :: _ => Rejected e
  | Resolved v :: rest =>
      match all_settled rest with
      | Resolved (RArray vs) => Resolved (RArray (v :: vs))
      | other => other
      end
  end.

Definition Promise_all {P : Type} (runs : list (run P)) : run P :=
  Run (concat (List.map calls runs)) (all_settled (List.map settled runs)).

(** [error.message.match(/TransactionConflict/)] *)
Definition is_conflict (message : string) : bool :=
  match index 0 "TransactionConflict" message with
  | Some _ => true
  | None => false
  end.

Definition max_attempts_message : string :=
  "Max attempts retrying TransactionConflict".

(** The client of a store: what [client.transactWrite(params)] answers to
    the [n]-th call made with these items (the store's answer may change
    from one attempt to the next), and what [client.batchWrite] answers. *)
Record DocumentClient : Type := {
  client_transactWrite : list op -> nat -> response;
  client_batchWrite : list (gmap string value) -> response
}.

(** [new DynamoDB({ table, client, transactLimit })] *)
Record DynamoDB : Type := {
  table : string;
  client : DocumentClient;
  transactLimit : nat
}.

(** [!op.TableName]: the name is missing or is the empty string. *)
Definition no_table (TableName : option string) : bool :=
  match TableName with
  | None => true
  | Some name => String.eqb name ""
  end.

(** "inject the tablename if it's not present" *)
Definition inject_table (this : DynamoDB) (o : op) : op :=
  match o with
  | Put name item =>
      Put (if no_table name then Some (table this) else name) item
  | Delete name k =>
      Delete (if no_table name then Some (table this) else name) k
  | Update name k assignments =>
      Update (if no_table name then Some (table this) else name) k assignments
  end.

(** [params.TransactItems] *)
Definition TransactItems (this : DynamoDB) (ops : list op) : list op :=
  List.map (inject_table this) ops.

(** The retry loop (lines 311-337) entered with [attempts] attempts made:
    the number of client calls made in the end, and how the promise
    settles. [None] when [fuel] turns of the loop were not enough. *)
Fixpoint attempt_loop (this : DynamoDB) (fuel attempts : nat) (items : list op)
  : option (nat * promise) :=
  match fuel with
  | O => None
  | S fuel' =>
      let attempts := attempts + 1 in
      if (20 <? attempts)%nat
      then Some (attempts - 1, Rejected (DatabaseError max_attempts_message))
      else match client_transactWrite (client this) items attempts with
           | Success => Some (attempts, Resolved RTrue)
           | Failure message =>
               if is_conflict message
               then attempt_loop this fuel' attempts items
               else Some (attempts, Rejected (DatabaseError message))
           end
  end.

(** [transactWrite(ops)]. [fuel] bounds the depth of the recursion and the
    turns of the retry loop together. *)
Fixpoint transactWrite (this : DynamoDB) (fuel : nat) (ops : list op)
  : option (run (list op)) :=
  match fuel with
  | O => None
  | S fuel' =>
      if (transactLimit this <? length ops)%nat
      then
        let chunks := chunk ops (transactLimit this) in
        Promise_all <$> mapM (transactWrite this fuel') chunks
      else
        let items := TransactItems this ops in
        (fun r => Run (replicate r.1 items) r.2) <$> attempt_loop this fuel' 0 items
  end.

(** The part of [putBatch] that sends one batch (lines 106-126). *)
Definition putBatch_once (this : DynamoDB) (items : list (gmap string value))
  : run (list (gmap string value)) :=
  Run [items] (match client_batchWrite (client this) items with
               | Success => Resolved RTrue
               | Failure message => Rejected (DatabaseError message)
               end).

(** [putBatch(items)] *)
Fixpoint putBatch (this : DynamoDB) (fuel : nat) (items : list (gmap string value))
  : option (run (list (gmap string value))) :=
  match fuel with
  | O => None
  | S fuel' =>
      if (transactLimit this <? length items)%nat
      then
        let chunks := chunk items (transactLimit this) in
        Promise_all <$> mapM (putBatch this fuel') chunks
      else
        Some (putBatch_once this items)
  end.

(** The [k]-th call with these items meets a transactional conflict. *)
Definition conflict_at (this : DynamoDB) (items : list op) (k : nat) : Prop :=
  exists message, client_transactWrite (client this) items k = Failure message
                  /\ is_conflict message = true.

(** *** The filters of [query] *)

(** [s.split(sep)] for a one-character separator. *)
Fixpoint split_on (sep : ascii) (s : string) : list string :=
  match s with
  | EmptyString => [""]
  | String c s' =>
      if Ascii.eqb c sep then "" :: split_on sep s'
      else match split_on sep s' with
           | part :: parts => String c part :: parts
           | [] => [String c ""]
           end
  end.

Section Filters.

(** The numbers of the platform, the builtin [Number] applied to a string,
    and the truthiness of a number ([0], [-0] and [NaN] are falsy). *)
Variable number : Type.
Variable Number : string -> number.
Variable truthy : number -> bool.

Inductive filter_value : Type :=
| FNumber (n : number)
| FBoolean (b : bool)
| FString (s : string).

(** Lines 192-197 and 201-209: the value bound to [:field]. *)
Definition filter_value_of (value : string) : filter_value :=
  let asNumber := Number value in
  if truthy asNumber then FNumber asNumber
  else if String.eqb value "true" then FBoolean true
  else if String.eqb value "false" then FBoolean false
  else FString value.

(** What the callback of [filters.map] does with one filter: the entry it
    adds to [ExpressionAttributeNames], the one it adds to
    [ExpressionAttributeValues], and the expression it returns. A part
    the filter lacks is [undefined] and prints as such. *)
Record filter_entry : Type := FilterEntry {
  name_key : string;
  name : option string;
  value_key : string;
  bound_value : filter_value;
  expression : string
}.

Definition print_part (part : option string) : string := default "undefined" part.

Definition filter_callback (filter : string) : filter_entry :=
  let parts := split_on " " filter in
  let field := parts !! 0%nat in
  let criteria := parts !! 1%nat in
  let rest := drop 2 parts in
  let value := join " " rest in
  FilterEntry ("#" +:+ print_part field) field (":" +:+ print_part field)
    (filter_value_of value)
    ("#" +:+ print_part field +:+ " " +:+ print_part criteria +:+ " :" +:+ print_part field).

End Filters.

Arguments FNumber {number} _.
Arguments FBoolean {number} _.
Arguments FString {number} _.

(** An instance of the platform's numbers for decimal integer text, to run
    the filters on: [Number] of an optional minus sign and digits is that
    integer, and [Number] of the empty string is [0]. Other text is read
    as [NaN] ([None]); text that denotes a number in another notation is
    outside this instance. *)
Definition Number_integer (s : string) : option Z :=
  match s with
  | EmptyString => Some 0%Z
  | _ => Z.of_int <$> NilZero.int_of_string s
  end.

Definition truthy_integer (n : option Z) : bool :=
  match n with
  | Some z => negb (Z.eqb z 0)
  | None => false
  end.

End Store.

Export Store.

(** ** The cursor codec of [src/util.js] *)

Module Cursor.

(** *** [Buffer]: octets, and the three encodings the codec uses

    A [Buffer] is a list of octets, each an [ascii]. The encodings follow
    the documentation of Node's [Buffer]. *)

(** [Buffer.from(text)]: UTF-8. A character below U+0080 is one octet; the
    others of this embedding (up to U+00FF) are two. *)
Definition utf8_char (c : ascii) : list ascii :=
  let n := N_of_ascii c in
  if (n <? 128)%N then [c]
  else [ascii_of_N (192 + n / 64); ascii_of_N (128 + n mod 64)].

Definition utf8_encode (text : string) : list ascii :=
  flat_map utf8_char (list_ascii_of_string text).

(** [buffer.toString('ascii')]: the highest bit of every octet is unset. *)
Definition ascii_decode (buffer : list ascii) : string :=
  string_of_list_ascii (List.map (fun b => ascii_of_N (N_of_ascii b mod 128)) buffer).

Definition base64_alphabet : string :=
  "ABCDEFGHIJKLMNOPQRSTUVWXYZabcdefghijklmnopqrstuvwxyz0123456789+/".

Definition base64_char (sextet : N) : ascii :=
  default "="%char (String.get (N.to_nat sextet) base64_alphabet).

(** The value of a character when decoding: the standard alphabet and the
    URL-safe one are both read; [None] for any other character. *)
Definition unbase64 (c : ascii) : option N :=
  let n := N_of_ascii c in
  if ((65 <=? n) && (n <=? 90))%N then Some (n - 65)%N
  else if ((97 <=? n) && (n <=? 122))%N then Some (n - 71)%N
  else if ((48 <=? n) && (n <=? 57))%N then Some (n + 4)%N
  else if ((n =? 43) || (n =? 45))%N then Some 62%N
  else if ((n =? 47) || (n =? 95))%N then Some 63%N
  else None.

(** Three octets are four sextets; one or two octets at the end are two
    or three. *)
Fixpoint octets_to_sextets (buffer : list ascii) : list N :=
  match buffer with
  | a :: b :: c :: rest =>
      let '(a, b, c) := (N_of_ascii a, N_of_ascii b, N_of_ascii c) in
      (a / 4 :: (a mod 4) * 16 + b / 16 :: (b mod 16) * 4 + c / 64 :: c mod 64
       :: octets_to_sextets rest)%N
  | [a; b] =>
      let '(a, b) := (N_of_ascii a, N_of_ascii b) in
      [a / 4; (a mod 4) * 16 + b / 16; (b mod 16) * 4]%N
  | [a] => let a := N_of_ascii a in [a / 4; (a mod 4) * 16]%N
  | [] => []
  end.

Definition padding (octets : nat) : string :=
  match (octets mod 3)%nat with
  | 1%nat => "=="
  | 2%nat => "="
  | _ => ""
  end.

(** [buffer.toString('base64')] *)
Definition base64_encode (buffer : list ascii) : string :=
  string_of_list_ascii (List.map base64_char (octets_to_sextets buffer))
  +:+ padding (length buffer).

(** The sextets [Buffer.from(text, 'base64')] reads: a character outside
    the alphabets is passed over, and the first [=] ends the reading. *)
Fixpoint base64_sextets (text : string) : list N :=
  match text with
  | EmptyString => []
  | String c rest =>
      if Ascii.eqb c "=" then []
      else match unbase64 c with
           | Some sextet => sextet :: base64_sextets rest
           | None => base64_sextets rest
           end
  end.

(** An octet is written as soon as the second, third and fourth sextet of
    a group is read; a lone sextet at the end gives nothing. *)
Fixpoint sextets_to_octets (sextets : list N) : list ascii :=
  match sextets with
  | a :: b :: c :: d :: rest =>
      ascii_of_N ((a * 4 + b / 16) mod 256)
      :: ascii_of_N (((b mod 16) * 16 + c / 4) mod 256)
      :: ascii_of_N (((c mod 4) * 64 + d) mod 256)
      :: sextets_to_octets rest
  | [a; b; c] =>
      [ascii_of_N ((a * 4 + b / 16) mod 256);
       ascii_of_N (((b mod 16) * 16 + c / 4) mod 256)]
  | [a; b] => [ascii_of_N ((a * 4 + b / 16) mod 256)]
  | _ => []
  end.

(** [Buffer.from(text, 'base64')] *)
Definition base64_decode (text : string) : list ascii :=
  sextets_to_octets (base64_sextets text).

(** [base64Encode(data)] and [base64Decode(data)] of [src/util.js] *)
Definition base64Encode (data : string) : string :=
  base64_encode (utf8_encode data).

Definition base64Decode (data : string) : string :=
  ascii_decode (base64_decode data).

Section Codec.

(** The native continuation tokens, [JSON.stringify] on them, and
    [JSON.parse], which gives [None] when it throws its SyntaxError. *)
Variable token : Type.
Variable JSON_stringify : token -> string.
Variable JSON_parse : string -> option token.

(** [toCursor(data)] *)
Definition toCursor (data : token) : string :=
  base64Encode (JSON_stringify data).

(** [fromCursor(data)] *)
Definition fromCursor (data : string) : option token :=
  JSON_parse (base64Decode data).

End Codec.

(** Vocabulary of the statements about the codec. *)

Definition is_ascii_text (text : string) : bool :=
  forallb (fun c => (N_of_ascii c <? 128)%N) (list_ascii_of_string text).

(** A character [Buffer.from(text, 'base64')] passes over. *)
Definition foreign (c : ascii) : bool :=
  negb (Ascii.eqb c "=") && match unbase64 c with Some _ => false | None => true end.

Definition without_foreign (text : string) : string :=
  string_of_list_ascii (List.filter (fun c => negb (foreign c)) (list_ascii_of_string text)).

End Cursor.

Export Cursor.

(** ** An executable JSON, to run the codec on tokens

    The codec is stated for any [JSON.stringify] and [JSON.parse]. This
    instance is the JSON text of values built from [null], booleans,
    integers, strings, arrays and objects with distinct member names;
    numbers written with a fraction or an exponent and escapes above
    U+00FF are outside it (its parser rejects them). *)

Module MiniJSON.

#[local] Unset Elimination Schemes.
Inductive json : Type :=
| JNull
| JBool (b : bool)
| JNumber (n : Z)
| JString (s : string)
| JArray (items : list json)
| JObject (members : list (string * json)).
#[local] Set Elimination Schemes.

Definition quote : ascii := "034".
Definition backslash : ascii := "\".

Definition hex_digit (n : N) : ascii :=
  default "0"%char (String.get (N.to_nat n) "0123456789abcdef").

(** QuoteJSONString, one character. *)
Definition escape_char (c : ascii) : string :=
  let n := N_of_ascii c in
  if Ascii.eqb c quote then String backslash (String quote "")
  else if Ascii.eqb c backslash then String backslash (String backslash "")
  else if (n =? 8)%N then "\b"
  else if (n =? 9)%N then "\t"
  else if (n =? 10)%N then "\n"
  else if (n =? 12)%N then "\f"
  else if (n =? 13)%N then "\r"
  else if (n <? 32)%N
       then "\u00" +:+ String (hex_digit (n / 16)) (String (hex_digit (n mod 16)) "")
  else String c "".

Fixpoint escape (s : string) : string :=
  match s with
  | EmptyString => ""
  | String c rest => escape_char c +:+ escape rest
  end.

Definition quoted (s : string) : string :=
  String quote (escape s +:+ String quote "").

Fixpoint stringify (v : json) : string :=
  match v with
  | JNull => "null"
  | JBool true => "true"
  | JBool false => "false"
  | JNumber n => NilZero.string_of_int (Z.to_int n)
  | JString s => quoted s
  | JArray items => "[" +:+ join "," (List.map stringify items) +:+ "]"
  | JObject members =>
      "{" +:+ join "," (List.map (fun m => quoted (fst m) +:+ ":" +:+ stringify (snd m))
                          members) +:+ "}"
  end.

Definition is_space (c : ascii) : bool :=
  let n := N_of_ascii c in ((n =? 32) || (n =? 9) || (n =? 10) || (n =? 13))%N.

Fixpoint skip_ws (s : string) : string :=
  match s with
  | String c rest => if is_space c then skip_ws rest else s
  | EmptyString => ""
  end.

Definition hex_value (c : ascii) : option N :=
  let n := N_of_ascii c in
  if ((48 <=? n) && (n <=? 57))%N then Some (n - 48)%N
  else if ((97 <=? n) && (n <=? 102))%N then Some (n - 87)%N
  else if ((65 <=? n) && (n <=? 70))%N then Some (n - 55)%N
  else None.

Definition unescape (e : ascii) : option ascii :=
  if Ascii.eqb e quote then Some quote
  else if Ascii.eqb e backslash then Some backslash
  else if Ascii.eqb e "/" then Some "/"%char
  else if Ascii.eqb e "b" then Some "008"%char
  else if Ascii.eqb e "t" then Some "009"%char
  else if Ascii.eqb e "n" then Some "010"%char
  else if Ascii.eqb e "f" then Some "012"%char
  else if Ascii.eqb e "r" then Some "013"%char
  else None.

(** The characters of a string literal whose opening quote has been read,
    and what follows its closing quote. *)
Fixpoint parse_string_body (s : string) : option (string * string) :=
  match s with
  | EmptyString => None
  | String c rest =>
      if Ascii.eqb c quote then Some ("", rest)
      else if Ascii.eqb c backslash then
        match rest with
        | String "u" (String h1 (String h2 (String h3 (String h4 rest')))) =>
            match hex_value h1, hex_value h2, hex_value h3, hex_value h4,
                  parse_string_body rest' with
            | Some 0%N, Some 0%N, Some a, Some b, Some (body, after) =>
                Some (String (ascii_of_N (a * 16 + b)) body, after)
            | _, _, _, _, _ => None
            end
        | String e rest' =>
            match unescape e, parse_string_body rest' with
            | Some c', Some (body, after) => Some (String c' body, after)
            | _, _ => None
            end
        | EmptyString => None
        end
      else if (N_of_ascii c <? 32)%N then None
      else match parse_string_body rest with
           | Some (body, after) => Some (String c body, after)
           | None => None
           end
  end.

Fixpoint digits_prefix (s : string) : string * string :=
  match s with
  | String c rest =>
      if is_digit c
      then let (d, r) := digits_prefix rest in (String c d, r)
      else ("", s)
  | EmptyString => ("", "")
  end.

Definition ends_integer (rest : string) : bool :=
  match rest with
  | String c _ => negb (Ascii.eqb c "." || Ascii.eqb c "e" || Ascii.eqb c "E")
  | EmptyString => true
  end.

(** An integer: an optional minus sign, then [0] or digits that do not
    start with [0]. *)
Definition parse_integer (s : string) : option (Z * string) :=
  let (negative, body) := match s with
                          | String "-" rest => (true, rest)
                          | _ => (false, s)
                          end in
  let (d, rest) := digits_prefix body in
  match d with
  | EmptyString => None
  | String "0" (String _ _) => None
  | _ =>
      if ends_integer rest
      then match NilZero.uint_of_string d with
           | Some u => let n := Z.of_N (N.of_uint u) in
                       Some (if negative then (- n)%Z else n, rest)
           | None => None
           end
      else None
  end.

Definition starts_with (prefix s : string) : option string :=
  if String.prefix prefix s
  then Some (string_drop (String.length prefix) s)
  else None.

(** The elements of an array after the first one's position is reached:
    [value , value ... ]]. *)
Fixpoint parse_elements (parse_value : string -> option (json * string))
    (fuel : nat) (s : string) : option (list json * string) :=
  match fuel with
  | O => None
  | S fuel' =>
      match parse_value s with
      | Some (v, rest) =>
          match skip_ws rest with
          | String "," rest' =>
              match parse_elements parse_value fuel' rest' with
              | Some (vs, after) => Some (v :: vs, after)
              | None => None
              end
          | String "]" rest' => Some ([v], rest')
          | _ => None
          end
      | None => None
      end
  end.

(** The members of an object: ["name" : value , ... }]. *)
Fixpoint parse_members (parse_value : string -> option (json * string))
    (fuel : nat) (s : string) : option (list (string * json) * string) :=
  match fuel with
  | O => None
  | S fuel' =>
      match skip_ws s with
      | String q rest =>
          if Ascii.eqb q quote then
            match parse_string_body rest with
            | Some (name, rest) =>
                match skip_ws rest with
                | String ":" rest =>
                    match parse_value rest with
                    | Some (v, rest) =>
                        match skip_ws rest with
                        | String "," rest' =>
                            match parse_members parse_value fuel' rest' with
                            | Some (ms, after) => Some ((name, v) :: ms, after)
                            | None => None
                            end
                        | String "}" rest' => Some ([(name, v)], rest')
                        | _ => None
                        end
                    | None => None
                    end
                | _ => None
                end
            | None => None
            end
          else None
      | EmptyString => None
      end
  end.

Fixpoint parse_value (fuel : nat) (s : string) : option (json * string) :=
  match fuel with
  | O => None
  | S fuel' =>
      match skip_ws s with
      | EmptyString => None
      | String c rest as text =>
          if Ascii.eqb c quote then
            match parse_string_body rest with
            | Some (body, after) => Some (JString body, after)
            | None => None
            end
          else if Ascii.eqb c "[" then
            match skip_ws rest with
            | String "]" after => Some (JArray [], after)
            | _ =>
                match parse_elements (parse_value fuel') fuel' rest with
                | Some (vs, after) => Some (JArray vs, after)
                | None => None
                end
            end
          else if Ascii.eqb c "{" then
            match skip_ws rest with
            | String "}" after => Some (JObject [], after)
            | _ =>
                match parse_members (parse_value fuel') fuel' rest with
                | Some (ms, after) => Some (JObject ms, after)
                | None => None
                end
            end
          else
            match starts_with "null" text, starts_with "true" text,
                  starts_with "false" text with
            | Some after, _, _ => Some (JNull, after)
            | _, Some after, _ => Some (JBool true, after)
            | _, _, Some after => Some (JBool false, after)
            | _, _, _ =>
                match parse_integer text with
                | Some (n, after) => Some (JNumber n, after)
                | None => None
                end
            end
      end
  end.

(** [JSON.parse(text)]; [None] is its SyntaxError. No value is longer
    than its text, so the length of the text is fuel enough. *)
Definition parse (text : string) : option json :=
  match parse_value (S (String.length text)) text with
  | Some (v, rest) =>
      match skip_ws rest with
      | EmptyString => Some v
      | _ => None
      end
  | None => None
  end.

End MiniJSON.

(** ** The partitioner *)

(** SHA-1 (FIPS 180-4) on octets, for
    [crypto.createHash('sha1').update(key).digest('hex')]. Words are
    integers below [2^32]. *)
Module SHA1.

Local Open Scope Z_scope.

Definition word (x : Z) : Z := x mod 2^32.

Definition rotl (n x : Z) : Z :=
  Z.lor (word (Z.shiftl x n)) (Z.shiftr x (32 - n)).

Definition lnot32 (x : Z) : Z := Z.lxor x 4294967295.

(** The message followed by the bit [1], zeros up to 56 modulo 64 octets,
    and the bit length of the message on eight octets. *)
Definition length_octets (bits : Z) : list Z :=
  List.map (fun i => Z.shiftr bits (8 * i) mod 256) [7; 6; 5; 4; 3; 2; 1; 0].

Definition pad (message : list Z) : list Z :=
  let len := Z.of_nat (length message) in
  let zeros := Z.to_nat ((55 - len) mod 64) in
  message ++ [128] ++ repeat 0 zeros ++ length_octets (8 * len).

Fixpoint big_endian_words (octets : list Z) : list Z :=
  match octets with
  | a :: b :: c :: d :: rest =>
      (Z.shiftl a 24 + Z.shiftl b 16 + Z.shiftl c 8 + d) :: big_endian_words rest
  | _ => []
  end.

(** The message schedule, latest word first: from sixteen words to
    eighty. *)
Fixpoint extend (count : nat) (w : list Z) : list Z :=
  match count with
  | O => w
  | S count' =>
      let at_ (i : nat) := nth i w 0 in
      extend count' (rotl 1 (Z.lxor (Z.lxor (at_ 2%nat) (at_ 7%nat))
                               (Z.lxor (at_ 13%nat) (at_ 15%nat))) :: w)
  end.

Definition schedule (block : list Z) : list Z := rev (extend 64 (rev block)).

Definition round (state : Z * Z * Z * Z * Z) (iw : nat * Z) : Z * Z * Z * Z * Z :=
  let '(a, b, c, d, e) := state in
  let '(i, w) := iw in
  let '(f, k) :=
    if (i <? 20)%nat then (Z.lor (Z.land b c) (Z.land (lnot32 b) d), 1518500249)
    else if (i <? 40)%nat then (Z.lxor (Z.lxor b c) d, 1859775393)
    else if (i <? 60)%nat
         then (Z.lor (Z.lor (Z.land b c) (Z.land b d)) (Z.land c d), 2400959708)
    else (Z.lxor (Z.lxor b c) d, 3395469782) in
  (word (rotl 5 a + f + e + k + w), a, rotl 30 b, c, d).

Definition compress (h : Z * Z * Z * Z * Z) (block : list Z) : Z * Z * Z * Z * Z :=
  let '(h0, h1, h2, h3, h4) := h in
  let '(a, b, c, d, e) :=
    fold_left round (combine (seq 0 80) (schedule block)) h in
  (word (h0 + a), word (h1 + b), word (h2 + c), word (h3 + d), word (h4 + e)).

Fixpoint blocks (count : nat) (words : list Z) : list (list Z) :=
  match count with
  | O => []
  | S count' => firstn 16 words :: blocks count' (skipn 16 words)
  end.

(** The five words of the digest. *)
Definition digest_words (message : list Z) : list Z :=
  let words := big_endian_words (pad message) in
  let '(h0, h1, h2, h3, h4) :=
    fold_left compress (blocks (length words / 16) words)
      (1732584193, 4023233417, 2562383102, 271733878, 3285377520) in
  [h0; h1; h2; h3; h4].

Definition word_octets (w : Z) : list Z :=
  [Z.shiftr w 24 mod 256; Z.shiftr w 16 mod 256; Z.shiftr w 8 mod 256; w mod 256].

(** The twenty octets of the digest. *)
Definition digest (message : list Z) : list Z :=
  flat_map word_octets (digest_words message).

Definition hex_char (n : Z) : ascii :=
  default "0"%char (String.get (Z.to_nat n) "0123456789abcdef").

Definition octet_hex (b : Z) : list ascii := [hex_char (b / 16); hex_char (b mod 16)].

(** [digest('hex')]: two lower-case digits per octet. *)
Definition hex (octets : list Z) : string :=
  string_of_list_ascii (flat_map octet_hex octets).

End SHA1.

Module Partitioner.

Local Open Scope Z_scope.

(** The octets [update(key)] feeds to the hash: the UTF-8 text of the
    key. *)
Definition key_octets (key : string) : list Z :=
  List.map (fun b => Z.of_N (N_of_ascii b)) (utf8_encode key).

(** [hash(key)] *)
Definition hash (key : string) : string := SHA1.hex (SHA1.digest (key_octets key)).

(** [digest(key)]: the character codes of the hexadecimal text. *)
Definition digest (key : string) : list Z :=
  List.map (fun c => Z.of_N (N_of_ascii c)) (list_ascii_of_string (hash key)).

(** The 32-bit integer operators of JavaScript: operands are taken modulo
    [2^32] into the signed range, [<<] and [|] give a signed result, and
    [>>> 0] reads it as unsigned. *)
Definition ToInt32 (x : Z) : Z := (x + 2^31) mod 2^32 - 2^31.
Definition shl (x n : Z) : Z := ToInt32 (Z.shiftl (ToInt32 x) (n mod 32)).
Definition bor (x y : Z) : Z := ToInt32 (Z.lor (ToInt32 x) (ToInt32 y)).
Definition ushr0 (x : Z) : Z := ToInt32 x mod 2^32.

(** [hashValueHash(a, b, c, d)] *)
Definition hashValueHash (a b c d : Z) : Z :=
  ushr0 (bor (bor (bor (shl a 24) (shl b 16)) (shl c 8)) d).

(** [hashValue(key)]; an index past the end of [x] reads [undefined],
    which the integer operators take as [0]. *)
Definition hashValue (key : string) : Z :=
  let x := digest key in
  hashValueHash (nth 3 x 0) (nth 2 x 0) (nth 1 x 0) (nth 0 x 0).

(** [partition(key, partitions)] for an integer [partitions]; [None] is
    the [NaN] that [%] gives for a zero divisor. The remainder has the
    sign of the dividend. *)
Definition partition (key : string) (partitions : Z) : option Z :=
  if partitions =? 0 then None else Some (Z.rem (hashValue key) partitions).

(** The combination the specification describes: four octets of the
    digest, big-endian (the first one most significant). *)
Definition big_endian (a b c d : Z) : Z :=
  Z.shiftl a 24 + Z.shiftl b 16 + Z.shiftl c 8 + d.

Definition digest_octets (key : string) : list Z := SHA1.digest (key_octets key).

(** No four of the octets, in any order and with repetition, combine
    big-endian into [target]. *)
Definition no_big_endian_choice (octets : list Z) (target : Z) : bool :=
  forallb (fun a => forallb (fun b => forallb (fun c => forallb (fun d =>
    negb (big_endian a b c d =? target)) octets) octets) octets) octets.

End Partitioner.

Export Partitioner.

(** ** The rest of [DynamoCollection]: the constructor, [add], [remove] *)

Module CollectionMore.

(** What a caller may write under [when] in a pattern: a function, or a
    value that is none. *)
Inductive when_config : Type :=
| WhenFunction (f : gmap string value -> bool)
| WhenOther (v : value).

(** A pattern as the constructor receives it:
    [{ pk, sk, fields, when, ...extra }]. A field the caller left out (or
    set to [undefined]) is [None]; [extra] holds every other field of the
    object. The key templates are strings and the field list is a list
    of names, as [#key] and the loops over [fields] need them. *)
Record pattern_config : Type := PatternConfig {
  config_pk : option string;
  config_sk : option string;
  config_fields : option (list string);
  config_when : option when_config;
  config_extra : gmap string value
}.

Section Constructor.

(** [JSON.stringify] on the object of the unknown fields, for the message
    of the error. *)
Variable JSON_stringify_object : gmap string value -> string.

(** The checks of one turn of the constructor's loop (lines 478-497), in
    the order the code makes them. *)
Definition check_pattern (config : pattern_config) : error + pattern :=
  if negb (isEmpty (config_extra config)) then
    inl (DatabaseError ("Unknown access pattern config: "
                        +:+ JSON_stringify_object (config_extra config)))
  else match config_pk config with
       | None => inl (DatabaseError "Missing required access pattern config 'pk'")
       | Some pk =>
           match config_sk config with
           | None => inl (DatabaseError "Missing required access pattern config 'sk'")
           | Some sk =>
               match config_when config with
               | Some (WhenOther _) =>
                   inl (DatabaseError "Access pattern config 'when' must be a function")
               | Some (WhenFunction f) =>
                   inr (Pattern pk sk (config_fields config) (Some f))
               | None => inr (Pattern pk sk (config_fields config) None)
               end
           end
       end.

Fixpoint check_patterns (configs : list pattern_config) (keys : list pattern)
  : error + list pattern :=
  match configs with
  | [] => inr keys
  | config :: rest =>
      match check_pattern config with
      | inl e => inl e
      | inr p => check_patterns rest (keys ++ [p])
      end
  end.

(** [new DynamoCollection({ dynamo, keys })]: the exception thrown, or
    [this.keys]. [None] is a [keys] left undefined. *)
Definition new_DynamoCollection (keys : option (list pattern_config))
  : error + list pattern :=
  match keys with
  | None => inl (DatabaseError "Undefined schema")
  | Some configs => check_patterns configs []
  end.

End Constructor.

(** The predicate of the pattern is given and rejects the entity:
    [when !== undefined && !when(data)]. *)
Definition rejects (p : pattern) (data : gmap string value) : bool :=
  match when p with
  | Some w => negb (w data)
  | None => false
  end.

(** The item [add] assembles (lines 519-531): the two keys, then either
    the listed fields of the entity written over them, or the whole entity
    under them. *)
Definition add_item (p : pattern) (data : gmap string value) (k : item_key)
  : gmap string value :=
  match fields p with
  | Some fs =>
      fold_left (fun item field => assign item field (getProp data field)) fs
        (key_object k)
  | None => spread data (key_object k)
  end.

(** One turn of the loop of [add]: the operations pushed. *)
Definition add_pattern (data : gmap string value) (p : pattern) : error + list op :=
  if rejects p data then inr []
  else match resolve_keys p data with
       | inl e => inl e
       | inr k => inr [Put None (add_item p data k)]
       end.

(** One turn of the loop of [remove]. *)
Definition remove_pattern (data : gmap string value) (p : pattern) : error + list op :=
  if rejects p data then inr []
  else match resolve_keys p data with
       | inl e => inl e
       | inr k => inr [Delete None k]
       end.

(** The loop over [this.keys], common to [add] and [remove]. *)
Fixpoint collect (turn : pattern -> error + list op) (keys : list pattern)
    (ops : list op) : error + list op :=
  match keys with
  | [] => inr ops
  | p :: rest =>
      match turn p with
      | inl e => inl e
      | inr pushed => collect turn rest (ops ++ pushed)
      end
  end.

(** The end of [add] and of [remove] (lines 541-552): the extra operations
    are appended, and an empty list returns early. *)
Definition finish (ops : error + list op) (extraOps : option (list op)) : outcome :=
  match ops with
  | inl e => Threw e
  | inr ops =>
      let ops := match extraOps with
                 | Some extra => ops ++ extra
                 | None => ops
                 end in
      if Nat.eqb (length ops) 0 then Skipped else Submitted ops
  end.

(** [add(data, { extraOps })] *)
Definition add (keys : list pattern) (data : gmap string value)
    (extraOps : option (list op)) : outcome :=
  finish (collect (add_pattern data) keys []) extraOps.

(** [remove(data, { extraOps })] *)
Definition remove (keys : list pattern) (data : gmap string value)
    (extraOps : option (list op)) : outcome :=
  finish (collect (remove_pattern data) keys []) extraOps.

(** The fields of the change set that the in-place branch of [update]
    sees for a pattern: with a field list, the listed fields the change
    set defines; without, the change set. *)
Definition visible_changes (p : pattern) (changes : gmap string value)
  : gmap string value :=
  match fields p with
  | Some fs =>
      filter (fun kv => kv.1 ∈ fs /\ kv.2 <> VUndefined) changes
  | None => changes
  end.

(** *** [DynamoDB.updateExpression]

    The object is given by its fields in the order [for (key in object)]
    visits them, each name once. *)

(** The loop of lines 434-444: the expression, the attribute names and
    the attribute values. *)
Definition updateExpression_turn
    (acc : string * gmap string string * gmap string value)
    (entry : string * value) : string * gmap string string * gmap string value :=
  let '(expression, names, values) := acc in
  let '(key, val) := entry in
  let expression :=
    if String.eqb expression ""
    then "set #" +:+ key +:+ " = :" +:+ key
    else expression +:+ ", #" +:+ key +:+ " = :" +:+ key in
  (expression, <["#" +:+ key := key]> names, <[":" +:+ key := val]> values).

Definition is_key_field (name : string) : bool :=
  String.eqb name "pk" || String.eqb name "sk".

(** [updateExpression(object)]: the object as the call leaves it, and the
    three attributes returned. *)
Definition updateExpression (object : list (string * value))
  : list (string * value) * (string * gmap string string * gmap string value) :=
  let object := List.filter (fun entry => negb (is_key_field (fst entry))) object in
  (object, fold_left updateExpression_turn object ("", ∅, ∅)).

(** One assignment of the expression. *)
Definition assignment (key : string) : string := "#" +:+ key +:+ " = :" +:+ key.

(** What the loop appends once the expression is not empty. *)
Definition appended (expression : string) (object : list (string * value)) : string :=
  fold_left (fun text entry => text +:+ ", " +:+ assignment (fst entry)) object expression.

(** A pattern configuration is stored as this pattern: it has no field
    besides [pk], [sk], [fields] and [when] (the object of its other
    fields is empty for [lodash.isempty]), it has both key templates, and
    its [when], if given, is a function. *)
Definition stored_as (config : pattern_config) (p : pattern) : Prop :=
  isEmpty (config_extra config) = true
  /\ config_pk config = Some (pk p)
  /\ config_sk config = Some (sk p)
  /\ config_fields config = fields p
  /\ match config_when config with
     | None => when p = None
     | Some (WhenFunction f) => when p = Some f
     | Some (WhenOther _) => False
     end.

End CollectionMore.

Export CollectionMore.

(** ** [DynamoDB.query], [export] and [truncate] *)

Module Query.

Section Query.

Variable number : Type.
Variable Number : string -> number.
Variable truthy : number -> bool.

Variable token : Type.
Variable JSON_stringify : token -> string.
Variable JSON_parse : string -> option token.

(** The third argument of [query]: [{ limit, cursor, filters, reverse }],
    each optional. *)
Record query_options : Type := QueryOptions {
  option_limit : option nat;
  option_cursor : option string;
  option_filters : option (list string);
  option_reverse : bool
}.

(** The parameters handed to [client.query]. A field the code does not
    set is [None]. *)
Record query_params : Type := QueryParams {
  TableName : string;
  KeyConditionExpression : string;
  ExpressionAttributeNames : gmap string (option string);
  ExpressionAttributeValues : gmap string (filter_value number);
  Limit : option nat;
  ExclusiveStartKey : option token;
  FilterExpression : option string;
  ScanIndexForward : option bool
}.

(** The truthiness of an optional string and of an optional count: the
    empty string and zero are falsy, as [undefined] is. *)
Definition truthy_string (s : option string) : bool :=
  match s with
  | Some (String _ _) => true
  | _ => false
  end.

Definition truthy_count (n : option nat) : bool :=
  match n with
  | Some (S _) => true
  | _ => false
  end.

(** Lines 150-174: the key condition. *)
Definition key_condition (this : DynamoDB) (pk : string) (sk : option string)
  : query_params :=
  if truthy_string sk then
    QueryParams (table this) "#pk = :pk and begins_with(#sk, :sk)"
      (<["#pk" := Some "pk"]> (<["#sk" := Some "sk"]> ∅))
      (<[":pk" := FString pk]> (<[":sk" := FString (default "" sk)]> ∅))
      None None None None
  else
    QueryParams (table this) "#pk = :pk"
      (<["#pk" := Some "pk"]> ∅)
      (<[":pk" := FString pk]> ∅)
      None None None None.

(** One call of the callback of [filters.map] (lines 188-212): the two
    attribute maps of [params] afterwards, and the expressions returned
    so far. *)
Definition filter_turn
    (acc : gmap string (option string) * gmap string (filter_value number) * list string)
    (filter : string)
  : gmap string (option string) * gmap string (filter_value number) * list string :=
  let '(names, values, expressions) := acc in
  let entry := filter_callback number Number truthy filter in
  (<[name_key _ entry := name _ entry]> names,
   <[value_key _ entry := bound_value _ entry]> values,
   expressions ++ [expression _ entry]).

(** The parameters [query] assembles (lines 149-221), or the SyntaxError
    of [JSON.parse] in [fromCursor]. *)
Definition query_request (this : DynamoDB) (pk : string) (sk : option string)
    (options : query_options) : error + query_params :=
  let params := key_condition this pk sk in
  let limit := if truthy_count (option_limit options) then option_limit options
               else None in
  match (if truthy_string (option_cursor options)
         then match fromCursor token JSON_parse (default "" (option_cursor options)) with
              | Some start => inr (Some start)
              | None => inl (SyntaxError (base64Decode (default "" (option_cursor options))))
              end
         else inr None) with
  | inl e => inl e
  | inr start =>
      let '(names, values, filter) :=
        match option_filters options with
        | Some filters =>
            let '(names, values, expressions) :=
              fold_left filter_turn filters
                (ExpressionAttributeNames params, ExpressionAttributeValues params, []) in
            (names, values, Some (join " and " expressions))
        | None =>
            (ExpressionAttributeNames params, ExpressionAttributeValues params, None)
        end in
      inr (QueryParams (TableName params) (KeyConditionExpression params)
             names values limit start filter
             (if option_reverse options then Some false else None))
  end.

(** What [client.query(params)] answers: [{ Items, LastEvaluatedKey }],
    or an error. *)
Inductive query_response : Type :=
| QueryData (Items : list (gmap string value)) (LastEvaluatedKey : option token)
| QueryFailure (message : string).

Variable client_query : query_params -> query_response.

(** [{ items, cursor }] *)
Record query_result : Type := QueryResult {
  items : list (gmap string value);
  cursor : option string
}.

(** [query(pk, sk, { limit, cursor, filters, reverse }, mapFn)] *)
Definition query (this : DynamoDB) (pk : string) (sk : option string)
    (options : query_options)
    (mapFn : option (gmap string value -> gmap string value))
  : error + query_result :=
  match query_request this pk sk options with
  | inl e => inl e
  | inr params =>
      match client_query params with
      | QueryFailure message => inl (DatabaseError message)
      | QueryData Items LastEvaluatedKey =>
          inr (QueryResult
                 (match mapFn with
                  | Some f => List.map f Items
                  | None => Items
                  end)
                 (toCursor token JSON_stringify <$> LastEvaluatedKey))
      end
  end.

End Query.

(** *** The loops over the pages of a scan *)

(** What [client.scan(params)] answers. *)
Inductive scan_response : Type :=
| ScanData (Items : list (gmap string value))
    (LastEvaluatedKey : option (gmap string value))
| ScanFailure (message : string).

Section Scan.

(** The store's answer to the [n]-th scan of the call, the first being
    scan [0]. Every scan carries the same parameters,
    [{ TableName: this.table }]. *)
Variable client_scan : nat -> scan_response.

(** [JSON.stringify(items, null, 2)] *)
Variable JSON_stringify_pretty : list (gmap string value) -> string.

(** The loop of [export] (lines 392-408), entered with [scans] scans made
    and [items] collected. [None] when [fuel] turns were not enough. *)
Fixpoint export_loop (fuel scans : nat) (items : list (gmap string value))
  : option (error + list (gmap string value)) :=
  match fuel with
  | O => None
  | S fuel' =>
      match client_scan scans with
      | ScanFailure message => Some (inl (DatabaseError message))
      | ScanData Items LastEvaluatedKey =>
          match LastEvaluatedKey with
          | None => Some (inr (items ++ Items))
          | Some _ => export_loop fuel' (S scans) (items ++ Items)
          end
      end
  end.

(** [export()] *)
Definition export (fuel : nat) : option (error + string) :=
  match export_loop fuel 0 [] with
  | None => None
  | Some (inl e) => Some (inl e)
  | Some (inr items) => Some (inr (JSON_stringify_pretty items))
  end.

(** The items of the scans [from], ..., [from + count - 1]. *)
Fixpoint pages (from count : nat) : list (gmap string value) :=
  match count with
  | O => []
  | S count' =>
      match client_scan from with
      | ScanData Items _ => Items ++ pages (S from) count'
      | ScanFailure _ => []
      end
  end.

End Scan.

Section ImportItems.

(** [JSON.parse] on the text of an array of items; [None] when it throws
    its SyntaxError. *)
Variable JSON_parse_items : string -> option (list (gmap string value)).

(** [import(data)]: the batches sent, and how the promise settles. *)
Definition import (this : DynamoDB) (fuel : nat) (data : string)
  : option (run (list (gmap string value))) :=
  match JSON_parse_items data with
  | None => Some (Run [] (Rejected (SyntaxError data)))
  | Some items =>
      (fun r => Run (calls r) (match settled r with
                               | Resolved _ => Resolved RTrue
                               | Rejected e => Rejected e
                               end)) <$> putBatch this fuel items
  end.

End ImportItems.

Section Truncate.

(** A table that no other client writes to while the call runs: its
    states, what a scan of a state answers, and what deleting the item at
    [{ pk, sk }] answers and leaves. *)
Variable store : Type.
Variable store_scan : store -> scan_response.
Variable store_delete : store -> value -> value -> response * store.

(** The loop over the items of a page (lines 375-377): the table
    afterwards and the error that stopped the loop, if any. *)
Fixpoint delete_each (s : store) (Items : list (gmap string value))
  : store * option error :=
  match Items with
  | [] => (s, None)
  | item :: rest =>
      match store_delete s (getProp item "pk") (getProp item "sk") with
      | (Success, s') => delete_each s' rest
      | (Failure message, s') => (s', Some (DatabaseError message))
      end
  end.

(** [truncate()]: the table afterwards and how the promise settles.
    [None] when [fuel] turns of the loop were not enough. *)
Fixpoint truncate (fuel : nat) (s : store) : option (store * promise) :=
  match fuel with
  | O => None
  | S fuel' =>
      match store_scan s with
      | ScanFailure message => Some (s, Rejected (DatabaseError message))
      | ScanData Items LastEvaluatedKey =>
          match delete_each s Items with
          | (s', Some e) => Some (s', Rejected e)
          | (s', None) =>
              match LastEvaluatedKey with
              | None => Some (s', Resolved RTrue)
              | Some _ => truncate fuel' s'
              end
          end
      end
  end.

End Truncate.

(** A table as the list of its items, scanned [page] items at a time: a
    scan answers with the first [page] items and gives a continuation key
    when items remain after them; a delete removes the items with these
    keys. *)
Definition list_scan (page : nat) (s : list (gmap string value)) : scan_response :=
  ScanData (take page s)
    (if (page <? length s)%nat then last (take page s) else None).

(** The key [truncate] reads off an item: [{ pk, sk }]. *)
Definition key_of (item : gmap string value) : value * value :=
  (getProp item "pk", getProp item "sk").

Definition has_key (pk sk : value) (item : gmap string value) : bool :=
  bool_decide (getProp item "pk" = pk /\ getProp item "sk" = sk).

Definition list_delete (s : list (gmap string value)) (pk sk : value)
  : response * list (gmap string value) :=
  (Success, List.filter (fun item => negb (has_key pk sk item)) s).

(** The field a filter names: the text before its first space. *)
Definition filter_field (filter : string) : string :=
  default "undefined" (split_on " " filter !! 0%nat).

End Query.

Export Query.

(** ** [collectionDifferences] of [src/util.js] *)

Module Differences.

Section Differences.

(** The elements of the two collections are objects; [key] is the name
    of the key field, [at_key x] is [x[key]], [strict_equal] is [===] on
    such values and [is_equal] is [lodash.isequal] on elements. *)
Variable element : Type.
Variable key_value : Type.
Variable key : string.
Variable at_key : element -> key_value.
Variable strict_equal : key_value -> key_value -> bool.
Variable is_equal : element -> element -> bool.

(** What a field of a change record holds: an element, or the value of
    a key field. *)
Inductive change_field : Type :=
| AnElement (x : element)
| AKey (k : key_value).

(** A change record is the object the code builds (lines 66-72):
    [{ from: x, to: y }], to which [change[key] = x[key]] is assigned. A
    key field named [from] or [to] overwrites the element stored under
    that name. *)
Definition change : Type := gmap string change_field.

Definition change_record (x y : element) : change :=
  assign (<["to" := AnElement y]> {[ "from" := AnElement x ]}) key (AKey (at_key x)).

(** [{ added, removed, changed }] *)
Record differences : Type := Differences {
  added : list element;
  removed : list element;
  changed : list change
}.

(** [collection.find(e => e[key] === x[key])] *)
Definition find_by_key (collection : list element) (x : element) : option element :=
  List.find (fun e => strict_equal (at_key e) (at_key x)) collection.

(** The callback of [a.forEach] (lines 54-77), on [removed] and
    [changed]. *)
Definition compare_with (b : list element) (acc : list element * list change)
    (x : element) : list element * list change :=
  let '(removed, changed) := acc in
  match find_by_key b x with
  | None => (removed ++ [x], changed)
  | Some y =>
      if negb (is_equal x y)
      then (removed, changed ++ [change_record x y])
      else (removed, changed)
  end.

(** The callback of [b.forEach] (lines 80-88), on [added]. *)
Definition look_up_in (a : list element) (added : list element) (y : element)
  : list element :=
  match find_by_key a y with
  | None => added ++ [y]
  | Some _ => added
  end.

(** [collectionDifferences(a, b, key)] *)
Definition collectionDifferences (a b : list element) : differences :=
  let '(removed, changed) := fold_left (compare_with b) a ([], []) in
  Differences (fold_left (look_up_in a) b []) removed changed.

(** No element of the collection has the key of [x]. *)
Definition unmatched (collection : list element) (x : element) : bool :=
  negb (existsb (fun e => strict_equal (at_key e) (at_key x)) collection).

End Differences.

Arguments AnElement {element key_value} _.
Arguments AKey {element key_value} _.
Arguments Differences {element key_value} _ _ _.
Arguments added {element key_value} _.
Arguments removed {element key_value} _.
Arguments changed {element key_value} _.

(** [===] on the values of this embedding that are not arrays: the same
    scalar. Two arrays are the same only when they are one object, which
    their contents do not tell; they are taken as distinct here. *)
Definition strict_equal_scalars (a b : value) : bool :=
  match a, b with
  | VArr _, _ | _, VArr _ => false
  | _, _ => isEqual a b
  end.

End Differences.

Export Differences.

(** ** [publishChange] and [withSilentPublish] *)

Module Publish.

(** The entity handed to [publishChange]: [{ path, action, id }]. *)
Record entity : Type := Entity {
  path : string;
  action : string;
  id : value
}.

(** The fields of the context the two helpers read and write (both read
    for truthiness). *)
Record context : Type := Context {
  isWorker : bool;
  silencePublish : bool
}.

(** [{ channel, event: { name: 'change', data: { action, id } } }]; the
    action is [None] when the [switch] falls through to [undefined]. *)
Record event : Type := Event {
  channel : string;
  event_action : option string;
  event_id : value
}.

(** What a call does to the outside: a job handed to [worker.enqueue], or
    an event handed to [pubsub.publish]. *)
Inductive effect : Type :=
| Enqueue (topic : string) (e : entity)
| Publish (ev : event).

(** [path.replace(/\//g, '_')] *)
Fixpoint replace_slashes (path : string) : string :=
  match path with
  | EmptyString => EmptyString
  | String c rest =>
      String (if Ascii.eqb c "/" then "_"%char else c) (replace_slashes rest)
  end.

(** The [switch] on the action. *)
Definition collection_action (action : string) : option string :=
  if String.eqb action "create" then Some "add"
  else if String.eqb action "update" then Some "update"
  else if String.eqb action "delete" then Some "remove"
  else None.

(** [publishChange(entity, context)] *)
Definition publishChange (e : entity) (c : context) : list effect :=
  if silencePublish c then []
  else if negb (isWorker c) then [Enqueue "publishChange" e]
  else
    let entityEvent := Event (replace_slashes (path e)) (Some (action e)) (id e) in
    if (length (split_on "/" (path e)) <? 3)%nat then [Publish entityEvent]
    else
      let collectionEvent :=
        Event (join "_" (removelast (split_on "/" (path e))))
          (collection_action (action e)) (id e) in
      [Publish entityEvent; Publish collectionEvent].

(** An operation run inside [withSilentPublish]: given the context
    object, what it leaves of it, what it does to the outside, and the
    exception it throws, if any. *)
Definition operation : Type := context -> context * list effect * option error.

(** [withSilentPublish(context, op)]: the context object afterwards, the
    effects, and the exception or the value returned. *)
Definition withSilentPublish (c : context) (op : operation)
  : context * list effect * (error + bool) :=
  let c := Context (isWorker c) true in
  match op c with
  | (c', effects, Some e) => (c', effects, inl e)
  | (c', effects, None) => (Context (isWorker c') false, effects, inr false)
  end.

(** The operation that publishes the changes of these entities, one after
    the other, with the context object. *)
Definition publish_each (entities : list entity) : operation :=
  fun c => (c, flat_map (fun e => publishChange e c) entities, None).

End Publish.

Export Publish.

(** ** The retries of [src/app/worker.js] *)

Module Backoff.

(** The count of attempts is a natural number: [retry] computes it by
    adding one to a count that starts at zero. A delay is a number of
    seconds. *)
Definition equalBackoffDelay (attempts : nat) : N :=
  if (attempts =? 1)%nat then 15
  else if (attempts =? 2)%nat then 30
  else if (attempts =? 3)%nat then 45
  else if (attempts =? 4)%nat then 60
  else 0.

Definition steppedBackoffDelay (attempts : nat) : N :=
  if (attempts <? 4)%nat then 1
  else if (attempts <? 15)%nat then 5
  else if (attempts <? 61)%nat then 15
  else if (attempts <? 121)%nat then 30
  else 0.

Definition steppedQuickBackoffDelay (attempts : nat) : N :=
  if (attempts <? 4)%nat then 1
  else if (attempts <? 11)%nat then 3
  else if (attempts <? 21)%nat then 10
  else 0.

Definition steppedLongBackoffDelay (attempts : nat) : N :=
  if (attempts <? 4)%nat then 1
  else if (attempts <? 10)%nat then 86400
  else if (attempts <? 15)%nat then 259200
  else if (attempts <? 20)%nat then 604800
  else 0.

(** [function exponentialBackoffDelay(attempts) {}] returns [undefined],
    which is [None] here. *)
Definition exponentialBackoffDelay (attempts : nat) : option N := None.

(** [delayDuration(attempts, strategy)]; a strategy that is missing or
    empty is falsy. *)
Definition delayDuration (attempts : nat) (strategy : option string) : option N :=
  let strategy := match strategy with
                  | Some (String c s) => String c s
                  | _ => "stepped"
                  end in
  if String.eqb strategy "equal" then Some (equalBackoffDelay attempts)
  else if String.eqb strategy "stepped" then Some (steppedBackoffDelay attempts)
  else if String.eqb strategy "steppedQuick" then Some (steppedQuickBackoffDelay attempts)
  else if String.eqb strategy "steppedLong" then Some (steppedLongBackoffDelay attempts)
  else if String.eqb strategy "exponential" then exponentialBackoffDelay attempts
  else Some 0%N.

(** [lodash.uniq]: the first occurrence of each element is kept. *)
Fixpoint uniq_loop (seen array : list string) : list string :=
  match array with
  | [] => []
  | x :: rest =>
      if bool_decide (x ∈ seen) then uniq_loop seen rest
      else x :: uniq_loop (x :: seen) rest
  end.

Definition uniq (array : list string) : list string := uniq_loop [] array.

(** A job: [{ topic, data, attempts, errors, retry, retryStrategy }];
    the payload is carried along and never read. *)
Record job : Type := Job {
  topic : string;
  data : value;
  attempts : option nat;
  errors : option (list string);
  retry_flag : bool;
  retryStrategy : option string
}.

(** The options [enqueue] is given, all optional. *)
Record enqueue_options : Type := EnqueueOptions {
  option_attempts : option nat;
  option_delay : option N;
  option_errors : option (list string);
  option_retry : bool;
  option_retryStrategy : option string
}.

(** Where a job ends up: in the morgue, run at once by [this.work], in a
    delayed execution of the state machine, or published to the topic. *)
Inductive route : Type :=
| Morgue (topic : string) (attempts : nat) (errors : list string)
| WorkNow (j : job)
| StartExecution (delay : N) (j : job)
| SnsPublish (j : job).

(** [enqueue(topic, data, context, opts)], up to the call it makes. *)
Definition enqueue (topic : string) (data : value) (isWorker : bool)
    (opts : enqueue_options) : route :=
  let attempts := default 0%nat (option_attempts opts) in
  let delay := default 0%N (option_delay opts) in
  let retry := option_retry opts in
  let retryStrategy := match option_retryStrategy opts with
                       | Some (String c s) => String c s
                       | _ => "stepped"
                       end in
  let errors := default [] (option_errors opts) in
  if (0 <? attempts)%nat && negb retry then Morgue topic attempts errors
  else
    let j := Job topic data (Some attempts) (Some errors) retry (Some retryStrategy) in
    if isWorker && (delay =? 0)%N then WorkNow j
    else if (0 <? delay)%N then StartExecution delay j
    else SnsPublish j.

(** [retry(job, err, context)], up to the call it makes. *)
Definition retry (j : job) (err : string) (isWorker : bool) : route :=
  let attempts := (default 0%nat (attempts j) + 1)%nat in
  let errors := uniq (default [] (errors j) ++ [err]) in
  let delay := delayDuration attempts (retryStrategy j) in
  match delay with
  | Some 0%N => Morgue (topic j) attempts errors
  | _ =>
      enqueue (topic j) (data j) isWorker
        (EnqueueOptions (Some attempts) delay (Some errors) (retry_flag j)
           (retryStrategy j))
  end.

(** The number of attempts from which a strategy gives up. *)
Definition give_up_at (strategy : string) : nat :=
  if String.eqb strategy "equal" then 5
  else if String.eqb strategy "stepped" then 121
  else if String.eqb strategy "steppedQuick" then 21
  else if String.eqb strategy "steppedLong" then 20
  else 0.

Definition stepped_strategies : list string :=
  ["equal"; "stepped"; "steppedQuick"; "steppedLong"].

End Backoff.

Export Backoff.

(** ** The object identifiers of [src/service/algolia.js] *)

Module SearchIndex.

(** [({ id, ...object }) => ({ objectID: id, ...object })] *)
Definition to_index (object : gmap string value) : gmap string value :=
  spread {[ "objectID" := getProp object "id" ]} (delete "id" object).

(** [({ objectID, ...object }) => ({ id: objectID, ...object })] *)
Definition from_index (hit : gmap string value) : gmap string value :=
  spread {[ "id" := getProp hit "objectID" ]} (delete "objectID" hit).

End SearchIndex.

Export SearchIndex.

(** ** [migrate] of [src/app/migrator.js] *)

Module Migrator.

(** A migration: [{ name, description, run }]. [runs] tells whether
    [run(context)] returns ([true]) or throws. *)
Record migration : Type := Migration {
  migration_name : string;
  description : string;
  runs : bool
}.

(** What [migrate] does to the outside: it runs a migration, or it puts
    an item. *)
Inductive migrator_effect : Type :=
| Ran (name : string)
| Stored (item : gmap string value).

(** How [migrate] ends: nothing was pending, every pending migration ran,
    a migration failed, or a call of the store rejected. *)
Inductive migrate_outcome : Type :=
| UpToDate
| AllComplete
| MigrationFailed
| StoreRejected (e : error).

(** [_differenceWith(array, values, comparator)]: the elements of
    [array] that the comparator relates to no element of [values]. *)
Definition differenceWith {A B : Type} (array : list A) (values : list B)
    (comparator : A -> B -> bool) : list A :=
  List.filter (fun x => negb (existsb (comparator x) values)) array.

(** [migration.name === prevMigration.name] *)
Definition same_name (m : migration) (prevMigration : gmap string value) : bool :=
  bool_decide (getProp prevMigration "name" = VStr (migration_name m)).

Section Migrate.

(** [unixNow()] at the call made for the migration of this name, and what
    [dynamo.put] answers for an item. *)
Variable unixNow : string -> Z.
Variable dynamo_put : gmap string value -> response.

(** The item [createMigration] puts. [unixNow()] is
    [new Date().getTime()], a whole number of milliseconds that a Date
    keeps within 8.64e15 of zero: the template literal prints it in
    decimal digits. *)
Definition migration_item (name : string) : gmap string value :=
  let createdAt := NilZero.string_of_int (Z.to_int (unixNow name)) in
  <["pk" := VStr "root#migrations"]>
    (<["sk" := VStr ("name-" +:+ name +:+ "-" +:+ createdAt)]>
       (<["name" := VStr name]> {[ "createdAt" := VStr createdAt ]})).

(** The loop over the pending migrations. *)
Fixpoint run_pending (pending : list migration)
  : list migrator_effect * migrate_outcome :=
  match pending with
  | [] => ([], AllComplete)
  | m :: rest =>
      if runs m then
        match dynamo_put (migration_item (migration_name m)) with
        | Failure message =>
            ([Ran (migration_name m); Stored (migration_item (migration_name m))],
             StoreRejected (DatabaseError message))
        | Success =>
            let '(effects, outcome) := run_pending rest in
            (Ran (migration_name m) :: Stored (migration_item (migration_name m))
               :: effects, outcome)
        end
      else ([Ran (migration_name m)], MigrationFailed)
  end.

(** [migrate(data, context)], given what [allMigrations] resolved to:
    the items of the first page of the query, or its rejection. *)
Definition migrate (migrations : list migration)
    (previousMigrations : error + list (gmap string value))
  : list migrator_effect * migrate_outcome :=
  match previousMigrations with
  | inl e => ([], StoreRejected e)
  | inr previous =>
      let pendingMigrations := differenceWith migrations previous same_name in
      if (length pendingMigrations =? 0)%nat then ([], UpToDate)
      else run_pending pendingMigrations
  end.

(** The items a run of [migrate] stored. *)
Definition stored_items (effects : list migrator_effect) : list (gmap string value) :=
  flat_map (fun e => match e with Stored item => [item] | Ran _ => [] end) effects.

(** The migrations at the head of the list whose [run] returns. *)
Fixpoint successful_prefix (pending : list migration) : list migration :=
  match pending with
  | m :: rest => if runs m then m :: successful_prefix rest else []
  | [] => []
  end.

(** What [migrate] does for a migration whose [run] returns. *)
Definition ran_and_stored (m : migration) : list migrator_effect :=
  [Ran (migration_name m); Stored (migration_item (migration_name m))].

End Migrate.

End Migrator.

Export Migrator.

(** ** Instances the development is run on *)

Module Instances.

Definition profile_pattern : pattern :=
  Pattern "user#{id}" "profile" (Some ["name"; "email"]) None.

Definition active_pattern : pattern :=
  Pattern "active" "user#{id}" None
    (Some (fun e => bool_decide (getProp e "status" = VStr "active"))).

Definition ann : gmap string value :=
  <["id" := VStr "42"]> (<["name" := VStr "Ann"]>
    (<["email" := VStr "a@x.com"]> {[ "age" := VNum (SafeInteger 30 I) ]})).

(** A pattern that projects [name], an entity, and a change set that
    moves the entity to another key and sets [name] to [undefined]. *)
Definition name_pattern : pattern :=
  Pattern "user#{id}" "profile" (Some ["name"]) None.

Definition ann_1 : gmap string value :=
  <["id" := VStr "1"]> {[ "name" := VStr "Ann" ]}.

Definition id_2_name_undefined : gmap string value :=
  <["id" := VStr "2"]> {[ "name" := VUndefined ]}.

(** A pattern that lists a field named like a member of
    [Object.prototype]. *)
Definition constructor_pattern : pattern :=
  Pattern "user#{id}" "profile" (Some ["constructor"]) None.

(** A pattern for the entities that have no [flag] field
    ([e => !Object.keys(e).includes('flag')]), and a change set that
    defines [flag] as [undefined]. *)
Definition unflagged_pattern : pattern :=
  Pattern "unflagged" "user#{id}" None (Some (fun e => bool_decide (e !! "flag" = None))).

Definition flag_undefined : gmap string value := {[ "flag" := VUndefined ]}.

(** A pattern without a field list, a pattern whose partition key is
    built from the entity's [pk] field, and a change set that gives a new
    [pk]. *)
Definition whole_pattern : pattern := Pattern "user#{id}" "profile" None None.

Definition by_pk_pattern : pattern := Pattern "{pk}#{id}" "copy" (Some ["name"]) None.

Definition ann_stored : gmap string value :=
  <["id" := VStr "1"]> (<["name" := VStr "Ann"]>
    (<["pk" := VStr "user#1"]> {[ "sk" := VStr "profile" ]})).

Definition name_and_pk : gmap string value :=
  <["name" := VStr "Anna"]> {[ "pk" := VStr "user#2" ]}.

Definition bob : gmap string value :=
  <["id" := VStr "7"]> (<["name" := VStr "Bob"]> {[ "status" := VStr "active" ]}).

(** A store whose client reports a conflict on the first [N - 1] attempts
    of every transaction and then succeeds. *)
Definition conflicting_store (N limit : nat) : DynamoDB :=
  {| table := "app";
     client :=
       {| client_transactWrite := fun _ k =>
            if (k <? N)%nat
            then Failure "Transaction cancelled, please refer cancellation reasons for specific reasons [TransactionConflict]"
            else Success;
          client_batchWrite := fun _ => Success |};
     transactLimit := limit |}.

Definition five_ops : list op :=
  [Put None ann; Delete None (ItemKey "a" "1"); Delete None (ItemKey "a" "2");
   Delete None (ItemKey "a" "3"); Delete None (ItemKey "a" "4")].

(** The continuation token of a query on the profile items. *)
Definition last_key : MiniJSON.json :=
  MiniJSON.JObject [("pk", MiniJSON.JString "user#42"); ("sk", MiniJSON.JString "profile")].

(** The one-character string U+00E9. *)
Definition e_acute : string := String "233" "".

End Instances.

Export Instances.

(** ** Further instances *)

Module MoreInstances.

(** A client that answers every query with one profile item and the
    continuation token [last_key]. *)
Definition one_page_client (params : query_params (option Z) MiniJSON.json)
  : query_response MiniJSON.json :=
  QueryData _ [ann] (Some last_key).

(** A table of three items. *)
Definition three_items : list (gmap string value) :=
  [<["pk" := VStr "user#1"]> {[ "sk" := VStr "profile" ]};
   <["pk" := VStr "user#2"]> {[ "sk" := VStr "profile" ]};
   <["pk" := VStr "active"]> {[ "sk" := VStr "user#1" ]}].

(** A store that answers every scan with the first two items of
    [three_items] and a continuation key, whatever was scanned before;
    and one whose second answer is the last page. *)
Definition same_page_scan (n : nat) : scan_response :=
  ScanData (take 2 three_items) (last (take 2 three_items)).

Definition two_pages_scan (n : nat) : scan_response :=
  match n with
  | O => ScanData (take 2 three_items) (last (take 2 three_items))
  | _ => ScanData (drop 2 three_items) None
  end.

(** Objects with a [key] field, compared by deep equality. *)
Definition keyed (k : string) (name : string) : gmap string value :=
  <["key" := VStr k]> {[ "name" := VStr name ]}.

Definition at_key_field (e : gmap string value) : value := getProp e "key".

Definition is_equal_objects (x y : gmap string value) : bool := bool_decide (x = y).

(** Three migrations, the second of which fails, and a clock. *)
Definition three_migrations : list migration :=
  [Migration "users" "create the users" true;
   Migration "teams" "create the teams" true;
   Migration "roles" "create the roles" false].

Definition users_record : gmap string value :=
  <["pk" := VStr "root#migrations"]>
    (<["sk" := VStr "name-users-1700000000000"]>
       (<["name" := VStr "users"]> {[ "createdAt" := VStr "1700000000000" ]})).

Definition fixed_clock (name : string) : Z := 1700000000001%Z.

Definition accepting_put (item : gmap string value) : response := Success.

(** The executable JSON on lists of items whose fields hold [null],
    booleans, integers and strings. *)
Definition value_to_json (v : value) : MiniJSON.json :=
  match v with
  | VBool b => MiniJSON.JBool b
  | VNum n => MiniJSON.JNumber (integer n)
  | VStr s => MiniJSON.JString s
  | _ => MiniJSON.JNull
  end.

Definition safe (n : Z) : option safe_integer :=
  (if is_safe_integer n as b return (Is_true b -> safe_integer) -> option safe_integer
   then fun make => Some (make I)
   else fun _ => None) (SafeInteger n).

Definition json_to_value (j : MiniJSON.json) : option value :=
  match j with
  | MiniJSON.JNull => Some VNull
  | MiniJSON.JBool b => Some (VBool b)
  | MiniJSON.JNumber n => VNum <$> safe n
  | MiniJSON.JString s => Some (VStr s)
  | _ => None
  end.

Definition stringify_items (items : list (gmap string value)) : string :=
  MiniJSON.stringify
    (MiniJSON.JArray
       (List.map (fun item : gmap string value =>
                    MiniJSON.JObject
                      (List.map (fun kv => (fst kv, value_to_json (snd kv)))
                         (map_to_list item))) items)).

Definition parse_items (text : string) : option (list (gmap string value)) :=
  match MiniJSON.parse text with
  | Some (MiniJSON.JArray objects) =>
      mapM (fun object =>
              match object with
              | MiniJSON.JObject members =>
                  list_to_map
                  <$> mapM (fun m => (fun v => (fst m, v)) <$> json_to_value (snd m))
                        members
              | _ => None
              end) objects
  | _ => None
  end.

End MoreInstances.

Export MoreInstances.

(** * Properties *)

(** ** Key templates *)

Example key_profile :
  key "user#{id}" {[ "id" := VStr "42" ]} = inr "user#42".
Proof. reflexivity. Qed.

Example key_absent : key "user#{id}" ∅ = inr "user#undefined".
Proof. reflexivity. Qed.

Example key_dollar :
  key "a{x}b" {[ "x" := VStr "[$&|$`|$'|$$|$1]" ]} = inr "a[{x}|a|b|$|$1]b".
Proof. reflexivity. Qed.

Example key_twice :
  key "{a}-{b}-{a}" (<["a" := VNum (SafeInteger 7 I)]> {[ "b" := VBool true ]}) = inr "7-true-7".
Proof. reflexivity. Qed.

Example key_nested :
  key "{{a}}{b}" (<["a" := VStr "b"]> {[ "b" := VStr "x" ]}) = inr "xx".
Proof. reflexivity. Qed.

Example key_digits : key "k{12}" {[ "12" := VStr "x" ]} = inl (SyntaxError "{12}").
Proof. reflexivity. Qed.

(** A placeholder named like a member of [Object.prototype] that the
    entity does not have reads that member. A function is called by
    [replace] for each match: [Object] gives back the matched text,
    [toString] and [isPrototypeOf] answer for [undefined], the others
    throw a TypeError. [__proto__] reads [Object.prototype], an object. *)
Example key_inherited_constructor : key "user#{constructor}" ∅ = inr "user#{constructor}".
Proof. reflexivity. Qed.

Example key_inherited_toString : key "user#{toString}" ∅ = inr "user#[object Undefined]".
Proof. reflexivity. Qed.

Example key_inherited_isPrototypeOf : key "{isPrototypeOf}#{id}" ∅ = inr "false#undefined".
Proof. reflexivity. Qed.

Example key_inherited_valueOf : key "user#{valueOf}" ∅ = inl (TypeError MValueOf).
Proof. reflexivity. Qed.

Example key_inherited_proto : key "user#{__proto__}" ∅ = inr "user#[object Object]".
Proof. reflexivity. Qed.

Example key_own_valueOf :
  key "user#{valueOf}" {[ "valueOf" := VStr "7" ]} = inr "user#7".
Proof. reflexivity. Qed.

(** *** Strings *)

Section StringFacts.

Lemma append_cons (c : ascii) (s t : string) : String c s +:+ t = String c (s +:+ t).
Proof. reflexivity. Qed.

Lemma append_nil_l (s : string) : "" +:+ s = s.
Proof. reflexivity. Qed.

Lemma append_nil_r (s : string) : s +:+ "" = s.
Proof. induction s as [|c s IH]; [reflexivity | now rewrite append_cons, IH]. Qed.

Lemma append_assoc (a b c : string) : (a +:+ b) +:+ c = a +:+ (b +:+ c).
Proof. induction a as [|x a IH]; [reflexivity | now rewrite !append_cons, IH]. Qed.

Lemma length_append (a b : string) :
  String.length (a +:+ b) = String.length a + String.length b.
Proof. induction a as [|x a IH]; [reflexivity | rewrite append_cons; simpl; now rewrite IH]. Qed.

End StringFacts.

(** *** The placeholders of a template *)

Lemma word_prefix_spec (s : string) :
  forall w r, word_prefix s = (w, r) ->
    s = w +:+ r /\ wordy w = true /\
    match r with String c _ => is_word c = false | EmptyString => True end.
Proof.
  induction s as [|c s IH]; simpl; intros w r H.
  - inversion H; subst. repeat split.
  - destruct (is_word c) eqn:Hc.
    + destruct (word_prefix s) as [w' r'] eqn:Hw. inversion H; subst.
      destruct (IH w' r eq_refl) as (-> & Hw' & Hr). repeat split; trivial.
      unfold wordy; simpl. rewrite Hc. exact Hw'.
    + inversion H; subst. repeat split. exact Hc.
Qed.

Lemma placeholder_at_spec (s field : string) :
  placeholder_at s = Some field ->
  exists rest, s = field +:+ String "}" rest /\ wordy field = true /\ field <> "".
Proof.
  unfold placeholder_at. destruct (word_prefix s) as [w r] eqn:Hw.
  destruct (word_prefix_spec _ _ _ Hw) as (-> & Hwordy & _).
  destruct w as [|c w]; [discriminate|].
  destruct r as [|c' r]; [discriminate|].
  destruct (Ascii.eqb_spec c' "}") as [->|Hne].
  - intros [= <-]. exists r. repeat split; trivial. discriminate.
  - intros H. exfalso.
    destruct c' as [[] [] [] [] [] [] [] []]; try discriminate H. now apply Hne.
Qed.

Lemma segments_from_skip (u s : string) (k : nat) :
  segments_from (String.length u + k) (u +:+ s) = segments_from k s.
Proof. induction u as [|c u IH]; simpl; [reflexivity | exact IH]. Qed.

Lemma matchAll_from_holes (s : string) :
  forall k, matchAll_from k s = holes (segments_from k s).
Proof.
  induction s as [|c s IH]; intros k; simpl; [reflexivity|].
  destruct k as [|k]; [|apply IH].
  destruct (Ascii.eqb c "{"); [|apply IH].
  destruct (placeholder_at s); simpl; [f_equal|]; apply IH.
Qed.

Lemma matchAll_holes (template : string) :
  matchAll template = holes (segments template).
Proof. apply matchAll_from_holes. Qed.


Lemma string_drop_0 s : string_drop 0 s = s.
Proof.
  unfold string_drop. rewrite Nat.sub_0_r.
  induction s as [|c s IH]; simpl; [reflexivity | now f_equal].
Qed.

Lemma render_nil_from (text : string -> string) (s : string) :
  render text [] (segments_from 0 s) = s.
Proof.
  remember (String.length s) as n eqn:Hn.
  revert s Hn. induction n as [n IH] using lt_wf_ind. intros s Hn.
  destruct s as [|c s]; [reflexivity|]. simpl.
  destruct (Ascii.eqb_spec c "{") as [->|Hc].
  - destruct (placeholder_at s) as [f|] eqn:Hp.
    + destruct (placeholder_at_spec _ _ Hp) as (rest & -> & _ & _).
      simpl. 
      replace (S (String.length f)) with (String.length (f +:+ "}") + 0)
        by (rewrite length_append; simpl; lia).
      replace (f +:+ String "}" rest) with ((f +:+ "}") +:+ rest)
        by (now rewrite append_assoc).
      rewrite segments_from_skip.
      rewrite (IH (String.length rest)); trivial.
      subst n. simpl. rewrite !length_append. simpl. lia.
    + simpl. f_equal. apply (IH (String.length s)); subst; simpl; lia.
  - simpl. f_equal. apply (IH (String.length s)); subst; simpl; lia.
Qed.

Lemma render_template (text : string -> string) (template : string) :
  render text [] (segments template) = template.
Proof. apply render_nil_from. Qed.

Lemma render_all (text : string -> string) (done : list string) (segs : list segment) :
  (forall f, In f (holes segs) -> mem f done = true) ->
  render text done segs =
  fold_right (fun seg acc => match seg with
                             | Lit c => String c acc
                             | Hole field => text field +:+ acc
                             end) "" segs.
Proof.
  induction segs as [|[c|f] segs IH]; intros H; simpl.
  - reflexivity.
  - f_equal. apply IH. exact H.
  - rewrite (H f) by (simpl; auto). f_equal. apply IH.
    intros g Hg. apply H. simpl. auto.
Qed.

(** Holes are non-empty runs of word characters. *)
Lemma holes_wordy_from (s : string) :
  forall k f, In f (holes (segments_from k s)) -> wordy f = true /\ f <> "".
Proof.
  induction s as [|c s IH]; intros k f; simpl; [tauto|].
  destruct k as [|k]; [|apply IH].
  destruct (Ascii.eqb c "{"); [|apply IH].
  destruct (placeholder_at s) as [g|] eqn:Hp; simpl; [|apply IH].
  intros [<-|H]; [|now apply IH in H].
  destruct (placeholder_at_spec _ _ Hp) as (_ & _ & ? & ?). auto.
Qed.

Lemma mem_cons f g l : mem f (g :: l) = String.eqb f g || mem f l.
Proof. reflexivity. Qed.

Lemma mem_app f l1 l2 : mem f (l1 ++ l2) = mem f l1 || mem f l2.
Proof. unfold mem. apply existsb_app. Qed.

Lemma mem_In f l : mem f l = true <-> In f l.
Proof.
  unfold mem. rewrite existsb_exists. split.
  - intros (x & Hx & He). apply String.eqb_eq in He. now subst.
  - intros H. exists f. split; trivial. apply String.eqb_refl.
Qed.

(** *** Replacement over a rendered template *)

Lemma has_char_cons c d s :
  has_char c (String d s) = Ascii.eqb c d || has_char c s.
Proof. reflexivity. Qed.

Lemma has_char_append c a b : has_char c (a +:+ b) = has_char c a || has_char c b.
Proof.
  induction a as [|x a IH]; [reflexivity|].
  rewrite append_cons, !has_char_cons, IH. now rewrite orb_assoc.
Qed.

Lemma GetSubstitution_plain (matched before after rep : string) :
  has_char "$" rep = false -> GetSubstitution matched before after rep = rep.
Proof.
  induction rep as [|c rep IH]; intros H; [reflexivity|].
  rewrite has_char_cons in H. apply orb_false_elim in H as [Hc Hr].
  simpl. rewrite (IH Hr).
  destruct c as [[] [] [] [] [] [] [] []]; try reflexivity; try discriminate Hc.
  all: destruct rep; reflexivity.
Qed.

Lemma prefix_cons (a b : ascii) (s t : string) :
  String.prefix (String a s) (String b t) = Ascii.eqb a b && String.prefix s t.
Proof.
  simpl. destruct (ascii_dec a b) as [->|Hne].
  - now rewrite Ascii.eqb_refl.
  - apply Ascii.eqb_neq in Hne. now rewrite Hne.
Qed.

Lemma prefix_nil (t : string) : String.prefix "" t = true.
Proof. now destruct t. Qed.

Section Replace.

Variables (field rep whole : string).
Let pat := token_text field.
Hypothesis rep_plain : has_char "$" rep = false.

Lemma prefix_pat_cons (c : ascii) (s : string) :
  Ascii.eqb "{" c = false -> String.prefix pat (String c s) = false.
Proof.
  intros Hc. unfold pat, token_text. rewrite append_cons, prefix_cons, Hc.
  reflexivity.
Qed.

Lemma replace_from_pass (u s : string) :
  has_char "{" u = false ->
  forall pos, replace_from pat rep whole pos 0 (u +:+ s)
              = u +:+ replace_from pat rep whole (pos + String.length u) 0 s.
Proof.
  induction u as [|c u IH]; intros Hu pos.
  - simpl. now rewrite Nat.add_0_r.
  - rewrite has_char_cons in Hu. apply orb_false_elim in Hu as [Hc Hu].
    rewrite !append_cons.
    change (replace_from pat rep whole pos 0 (String c (u +:+ s)))
      with (if String.prefix pat (String c (u +:+ s))
            then GetSubstitution pat (substring 0 pos whole)
                   (string_drop (pos + String.length pat) whole) rep
                 +:+ replace_from pat rep whole (S pos) (String.length pat - 1) (u +:+ s)
            else String c (replace_from pat rep whole (S pos) 0 (u +:+ s))).
    rewrite (prefix_pat_cons _ _ Hc), (IH Hu). simpl String.length.
    now replace (S pos + String.length u) with (pos + S (String.length u)) by lia.
Qed.

Lemma replace_from_skip (u s : string) :
  forall pos k, replace_from pat rep whole pos (String.length u + k) (u +:+ s)
                = replace_from pat rep whole (pos + String.length u) k s.
Proof.
  induction u as [|c u IH]; intros pos k.
  - simpl. now rewrite Nat.add_0_r.
  - rewrite append_cons. simpl. rewrite IH. f_equal. lia.
Qed.

End Replace.

Lemma is_word_not_close (c : ascii) :
  is_word c = true -> Ascii.eqb c "}" = false /\ Ascii.eqb "}" c = false
                      /\ Ascii.eqb "{" c = false.
Proof.
  intros H. repeat split; apply Ascii.eqb_neq; intros E; subst c; discriminate H.
Qed.

Lemma wordy_cons c s : wordy (String c s) = is_word c && wordy s.
Proof. reflexivity. Qed.

Lemma prefix_token_body (f : string) :
  wordy f = true -> forall g s, wordy g = true ->
  String.prefix (f +:+ "}") (g +:+ String "}" s) = String.eqb f g.
Proof.
  induction f as [|x f IH]; intros Hf g s Hg.
  - destruct g as [|y g];
      [now rewrite !append_nil_l, prefix_cons, prefix_nil, Ascii.eqb_refl|].
    rewrite wordy_cons in Hg. apply andb_prop in Hg as [Hy _].
    destruct (is_word_not_close _ Hy) as (_ & H & _).
    rewrite append_nil_l, append_cons, prefix_cons, H. reflexivity.
  - rewrite wordy_cons in Hf. apply andb_prop in Hf as [Hx Hf].
    destruct g as [|y g].
    + destruct (is_word_not_close _ Hx) as (H & _ & _).
      rewrite append_nil_l, append_cons, prefix_cons, H. reflexivity.
    + rewrite wordy_cons in Hg. apply andb_prop in Hg as [_ Hg].
      rewrite !append_cons, prefix_cons, (IH Hf g s Hg). reflexivity.
Qed.

Lemma prefix_token (f g s : string) :
  wordy f = true -> wordy g = true ->
  String.prefix (token_text f) (token_text g +:+ s) = String.eqb f g.
Proof.
  intros Hf Hg. unfold token_text.
  rewrite !append_cons, !append_nil_l, prefix_cons, Ascii.eqb_refl, append_assoc.
  simpl andb. rewrite append_cons, append_nil_l. now apply prefix_token_body.
Qed.

Lemma wordy_no_open (g : string) :
  wordy g = true -> has_char "{" (g +:+ "}") = false.
Proof.
  induction g as [|c g IH]; intros H; [reflexivity|].
  rewrite wordy_cons in H. apply andb_prop in H as [Hc Hg].
  rewrite append_cons, has_char_cons, (IH Hg).
  destruct (is_word_not_close _ Hc) as (_ & _ & ->). reflexivity.
Qed.

Lemma render_lit text done c segs :
  render text done (Lit c :: segs) = String c "" +:+ render text done segs.
Proof. reflexivity. Qed.

Lemma render_hole text done g segs :
  render text done (Hole g :: segs)
  = (if mem g done then text g else token_text g) +:+ render text done segs.
Proof. reflexivity. Qed.

Lemma replace_from_here pat rep whole pos c s :
  replace_from pat rep whole pos 0 (String c s)
  = if String.prefix pat (String c s)
    then GetSubstitution pat (substring 0 pos whole)
           (string_drop (pos + String.length pat) whole) rep
         +:+ replace_from pat rep whole (S pos) (String.length pat - 1) s
    else String c (replace_from pat rep whole (S pos) 0 s).
Proof. reflexivity. Qed.

Lemma token_text_cons g s : token_text g +:+ s = String "{" ((g +:+ "}") +:+ s).
Proof. reflexivity. Qed.

Lemma token_text_length g : String.length (token_text g) - 1 = String.length (g +:+ "}") + 0.
Proof. unfold token_text. rewrite append_cons, append_nil_l. simpl. lia. Qed.

Section Step.

Variable text : string -> string.
Variables (field : string) (done : list string).
Hypothesis field_wordy : wordy field = true.
Hypothesis field_plain : plain (text field) = true.
Hypothesis done_plain : forall g, mem g done = true -> has_char "{" (text g) = false.

Lemma replace_render (whole : string) (segs : list segment) :
  existsb stray_brace segs = false ->
  (forall g, In g (holes segs) -> wordy g = true) ->
  forall pos,
    replace_from (token_text field) (text field) whole pos 0 (render text done segs)
    = render text (field :: done) segs.
Proof.
  unfold plain in field_plain. apply andb_prop in field_plain as [Hd Hb].
  apply negb_true_iff in Hd, Hb.
  induction segs as [|[c|g] segs IH]; intros Hstray Hw pos.
  - reflexivity.
  - simpl in Hstray. apply orb_false_elim in Hstray as [Hc Hstray].
    rewrite !render_lit, replace_from_pass.
    + now rewrite (IH Hstray Hw).
    + rewrite has_char_cons, Ascii.eqb_sym, Hc. reflexivity.
  - simpl in Hstray.
    assert (Hg : wordy g = true) by (apply Hw; simpl; auto).
    assert (Hw' : forall h, In h (holes segs) -> wordy h = true)
      by (intros h Hh; apply Hw; simpl; auto).
    rewrite !render_hole, mem_cons.
    destruct (mem g done) eqn:Hm.
    + rewrite orb_true_r, replace_from_pass by (now apply done_plain).
      now rewrite (IH Hstray Hw').
    + rewrite orb_false_r, token_text_cons, replace_from_here, <- token_text_cons.
      rewrite (prefix_token _ _ _ field_wordy Hg), String.eqb_sym.
      destruct (String.eqb_spec g field) as [->|Hne].
      * rewrite (GetSubstitution_plain _ _ _ _ Hd), token_text_length,
          replace_from_skip. f_equal. now apply IH.
      * rewrite replace_from_pass by (now apply wordy_no_open).
        now rewrite (IH Hstray Hw'), token_text_cons.
Qed.

End Step.

Lemma replace_not_function (pat : string) (v : value) (key : string) :
  isFunction v = false -> replace pat v key = inr (replace_all pat (toString v) key).
Proof.
  unfold replace. destruct v as [| | | | | |m]; try reflexivity.
  destruct m; try discriminate; reflexivity.
Qed.

Section KeySubstitution.

Variable data : gmap string value.
Let text (f : string) : string := toString (getProp data f).

Lemma key_loop_render (segs : list segment) :
  existsb stray_brace segs = false ->
  (forall g, In g (holes segs) -> wordy g = true) ->
  forall todo done,
    (forall f, In f todo ->
       wordy f = true /\ all_digits f = false
       /\ isFunction (getProp data f) = false /\ plain (text f) = true) ->
    (forall g, mem g done = true -> has_char "{" (text g) = false) ->
    key_loop todo data (render text done segs)
    = inr (render text (rev todo ++ done) segs).
Proof.
  intros Hstray Hw todo.
  induction todo as [|f todo IH]; intros done Htodo Hdone; [reflexivity|].
  destruct (Htodo f (or_introl eq_refl)) as (Hf & Hdig & Hfun & Hplain).
  cbn [key_loop]. unfold RegExp_throws. rewrite Hdig.
  rewrite (replace_not_function _ _ _ Hfun).
  unfold replace_all. fold (text f).
  rewrite (replace_render text f done Hf Hplain Hdone _ segs Hstray Hw).
  rewrite IH.
  - simpl rev. now rewrite <- app_assoc.
  - intros g Hg. apply Htodo. now right.
  - intros g. rewrite mem_cons. intros [He|Hg]%orb_prop; [|now apply Hdone].
    apply String.eqb_eq in He. subst g.
    unfold plain in Hplain. apply andb_prop in Hplain as [_ H].
    now apply negb_true_iff in H.
Qed.

End KeySubstitution.

Theorem key_substitute (template : string) (data : gmap string value) :
  braces_open_placeholders template = true ->
  (forall f, In f (matchAll template) ->
     all_digits f = false /\ isFunction (getProp data f) = false
     /\ plain (toString (getProp data f)) = true) ->
  key template data
  = inr (substitute (fun f => toString (getProp data f)) template).
Proof.
  intros Hb Hf. unfold key.
  set (text := fun f => toString (getProp data f)).
  rewrite <- (render_template text template) at 2.
  unfold braces_open_placeholders in Hb. apply negb_true_iff in Hb.
  assert (Hw : forall g, In g (holes (segments template)) -> wordy g = true)
    by (intros g Hg; now apply holes_wordy_from in Hg).
  rewrite (key_loop_render data (segments template) Hb Hw).
  - unfold substitute. f_equal. apply render_all.
    intros f Hin. rewrite app_nil_r. apply mem_In, in_rev.
    rewrite rev_involutive, matchAll_holes. exact Hin.
  - intros f Hin. destruct (Hf f Hin) as (? & ? & ?). repeat split; trivial.
    apply Hw. now rewrite <- matchAll_holes.
  - intros g Hg. discriminate Hg.
Qed.

(** *** The properties of key resolution *)




(** ** [DynamoCollection.update] *)

(** The examples of the specification: a change of [email] is one update
    of that field, an unchanged [email] is a call that does nothing, and a
    change of [id] moves the item. *)
Example update_email :
  update [profile_pattern] ann {[ "email" := VStr "b@x.com" ]} None
  = ({[ "email" := VStr "b@x.com" ]},
     Submitted [Update None (ItemKey "user#42" "profile") {[ "email" := VStr "b@x.com" ]}]).
Proof. vm_compute. reflexivity. Qed.

Example update_same_email :
  update [profile_pattern] ann {[ "email" := VStr "a@x.com" ]} None = (∅, Skipped).
Proof. vm_compute. reflexivity. Qed.

Example update_id :
  update [profile_pattern] ann {[ "id" := VStr "43" ]} None
  = ({[ "id" := VStr "43" ]},
     Submitted [Delete None (ItemKey "user#42" "profile");
                Put None (<["pk" := VStr "user#43"]> (<["sk" := VStr "profile"]>
                   (<["name" := VStr "Ann"]> {[ "email" := VStr "a@x.com" ]})))]).
Proof. vm_compute. reflexivity. Qed.

(** A placeholder named by digits makes [new RegExp] throw, whatever the
    change set. *)
Example update_digit_placeholder :
  update [Pattern "slot#{1}" "x" None None] ann ∅ None
  = (∅, Threw (SyntaxError "{1}")).
Proof. vm_compute. reflexivity. Qed.

(** *** The loop over the patterns *)

Section UpdateLoop.

Variable data : gmap string value.

Lemma update_loop_acc (keys : list pattern) :
  forall changes ops,
    update_loop data changes keys ops
    = ((update_loop data changes keys []).1,
       match (update_loop data changes keys []).2 with
       | inl e => inl e
       | inr pushed => inr (ops ++ pushed)
       end).
Proof.
  induction keys as [|p keys IH]; intros changes ops; simpl.
  - now rewrite app_nil_r.
  - destruct (update_pattern data changes p) as [c [e|pushed]]; [reflexivity|].
    rewrite (IH c (ops ++ pushed)), (IH c pushed). simpl.
    destruct (update_loop data c keys []) as [c' [e|more]]; simpl; [reflexivity|].
    now rewrite app_assoc.
Qed.

Lemma update_loop_around (before after : list pattern) (p : pattern)
    (changes c1 c1' c2 : gmap string value) (ops_before pushed ops_after : list op) :
  update_loop data changes before [] = (c1, inr ops_before) ->
  update_pattern data c1 p = (c1', inr pushed) ->
  update_loop data c1' after [] = (c2, inr ops_after) ->
  update_loop data changes (before ++ p :: after) []
  = (c2, inr (ops_before ++ pushed ++ ops_after)).
Proof.
  revert changes ops_before.
  induction before as [|q before IH]; intros changes ops_before Hb Hp Ha; simpl in *.
  - inversion Hb; subst. rewrite Hp, update_loop_acc, Ha. reflexivity.
  - destruct (update_pattern data changes q) as [c [e|first]].
    + discriminate Hb.
    + rewrite update_loop_acc in Hb. simpl in Hb.
      destruct (update_loop data c before []) as [c' [e|more]] eqn:Hm;
        simpl in Hb; [discriminate|].
      inversion Hb; subst. rewrite update_loop_acc.
      rewrite (IH c more Hm Hp Ha). simpl. now rewrite <- app_assoc.
Qed.

(** The loop only ever removes fields from the change set. *)
Lemma update_pattern_shrinks (changes : gmap string value) (p : pattern) :
  (update_pattern data changes p).1 ⊆ changes.
Proof.
  unfold update_pattern.
  assert (Hstrip : strip_keys changes ⊆ changes)
    by (unfold strip_keys; etrans; apply delete_subseteq).
  destruct (fields p) as [fs|].
  - destruct (pull_fields fs data changes) as [[prev curr] currChanges].
    repeat match goal with
           | |- context [if ?b then _ else _] => destruct b
           | |- context [match ?x with inl _ => _ | inr _ => _ end] => destruct x
           end; reflexivity.
  - repeat match goal with
           | |- context [if ?b then _ else _] => destruct b
           | |- context [match ?x with inl _ => _ | inr _ => _ end] => destruct x
           end; simpl; trivial; reflexivity.
Qed.

Lemma update_loop_shrinks (keys : list pattern) :
  forall changes ops, (update_loop data changes keys ops).1 ⊆ changes.
Proof.
  induction keys as [|p keys IH]; intros changes ops; simpl; [reflexivity|].
  pose proof (update_pattern_shrinks changes p) as Hp.
  destruct (update_pattern data changes p) as [c [e|pushed]]; simpl in *; [exact Hp|].
  etrans; [apply IH | exact Hp].
Qed.

End UpdateLoop.

(** *** How [update] ends *)

Lemma update_submits (keys : list pattern) (data changes c : gmap string value)
    (extraOps : option (list op)) (ops : list op) :
  update_loop data (remove_unchanged data changes) keys [] = (c, inr ops) ->
  ops ++ default [] extraOps <> [] ->
  update keys data changes extraOps = (c, Submitted (ops ++ default [] extraOps)).
Proof.
  intros Hloop Hne. unfold update. rewrite Hloop.
  destruct extraOps as [extra|]; simpl in *.
  - destruct (ops ++ extra); [congruence | reflexivity].
  - rewrite app_nil_r in *. destruct ops; [congruence | reflexivity].
Qed.

(** *** Reading and writing fields *)

Lemma getProp_spread (data changes : gmap string value) (f : string) :
  getProp (spread data changes) f
  = match changes !! f with
    | Some v => v
    | None => getProp data f
    end.
Proof.
  unfold getProp, spread. destruct (changes !! f) as [v|] eqn:Hc.
  - now rewrite (lookup_union_Some_l _ _ _ _ Hc).
  - now rewrite (lookup_union_r _ _ _ Hc).
Qed.

Lemma spread_empty (data : gmap string value) : spread data ∅ = data.
Proof. unfold spread. apply (left_id_L ∅ (∪)). Qed.

Lemma plain_name_proto (f : string) : plain_name f = true -> f <> "__proto__".
Proof. intros H ->. discriminate H. Qed.

Lemma assign_insert {A : Type} (obj : gmap string A) (f : string) (v : A) :
  f <> "__proto__" -> assign obj f v = <[f := v]> obj.
Proof.
  intros Hf. unfold assign. now destruct (String.eqb_spec f "__proto__").
Qed.

Lemma assign_plain {A : Type} (obj : gmap string A) (f : string) (v : A) :
  plain_name f = true -> assign obj f v = <[f := v]> obj.
Proof. intros H. now apply assign_insert, plain_name_proto. Qed.

Lemma getProp_plain (obj : gmap string value) (f : string) :
  plain_name f = true -> getProp obj f = default VUndefined (obj !! f).
Proof.
  unfold plain_name, getProp. intros H.
  destruct (obj !! f); [reflexivity|]. now destruct (member_named f).
Qed.

Lemma isEmpty_empty : isEmpty ∅ = true.
Proof. reflexivity. Qed.

Lemma isEmpty_false (obj : gmap string value) : isEmpty obj = false -> obj <> ∅.
Proof. intros H ->. discriminate H. Qed.

(** With no listed field set to [undefined] and none named like a member
    of [Object.prototype], the [curr] object of the loop over [fields] is
    the projection of the merged entity. *)
Lemma pull_fields_curr_acc (data changes : gmap string value) (fs : list string) :
  (forall f, In f fs -> plain_name f = true /\ changes !! f <> Some VUndefined) ->
  forall prev curr cc,
    (fold_left (pull_field data changes) fs (prev, curr, cc)).1.2
    = fold_left (fun item field => <[field := getProp (spread data changes) field]> item)
        fs curr.
Proof.
  induction fs as [|f fs IH]; intros Hdef prev curr cc; [reflexivity|].
  simpl fold_left.
  destruct (Hdef f (or_introl eq_refl)) as [Hplain Hf].
  assert (Hrest : forall g, In g fs ->
                    plain_name g = true /\ changes !! g <> Some VUndefined)
    by (intros g Hg; apply Hdef; simpl; auto).
  rewrite getProp_spread, !(assign_plain _ _ _ Hplain), (getProp_plain changes f Hplain).
  destruct (changes !! f) as [v|] eqn:Hc; simpl.
  - destruct v; try congruence; simpl; now apply IH.
  - now apply IH.
Qed.

Lemma pull_fields_curr (data changes : gmap string value) (fs : list string) :
  (forall f, In f fs -> plain_name f = true /\ changes !! f <> Some VUndefined) ->
  (pull_fields fs data changes).1.2 = project (Some fs) (spread data changes).
Proof. intros H. now apply pull_fields_curr_acc. Qed.

(** With nothing to change, the loop over fields that are named like no
    member of [Object.prototype] records no change. *)
Lemma pull_fields_unchanged_acc (data : gmap string value) (fs : list string) :
  forallb plain_name fs = true ->
  forall prev curr cc,
    (fold_left (pull_field data ∅) fs (prev, curr, cc)).2 = cc.
Proof.
  induction fs as [|f fs IH]; intros Hplain prev curr cc; [reflexivity|].
  simpl in Hplain. apply andb_prop in Hplain as [Hf Hplain].
  simpl. rewrite (getProp_plain ∅ f Hf), lookup_empty. simpl. now apply IH.
Qed.

Lemma pull_fields_unchanged (data : gmap string value) (fs : list string) :
  forallb plain_name fs = true -> (pull_fields fs data ∅).2 = ∅.
Proof. intros H. now apply pull_fields_unchanged_acc. Qed.

(** *** What [#key] throws *)

Lemma replace_total (pat : string) (v : value) (k : string) :
  throws_as_replacer v = false -> exists k', replace pat v k = inr k'.
Proof.
  unfold replace, throws_as_replacer. destruct v as [| | | | | |m]; eauto.
  destruct m; simpl; try discriminate; intros _; destruct (occurs pat k); eauto.
Qed.

Lemma replace_error (pat : string) (v : value) (k : string) (e : error) :
  replace pat v k = inl e ->
  exists m, v = VMember m /\ throws_as_replacer v = true /\ e = TypeError m.
Proof.
  unfold replace, throws_as_replacer. destruct v as [| | | | | |m]; try discriminate.
  destruct m; simpl; try discriminate; destruct (occurs pat k); try discriminate;
    intros [= <-]; eauto.
Qed.

Lemma key_loop_total (tokens : list string) (data : gmap string value) :
  forallb (fun field => negb (RegExp_throws field)
                        && negb (throws_as_replacer (getProp data field))) tokens = true ->
  forall k, exists s, key_loop tokens data k = inr s.
Proof.
  induction tokens as [|f tokens IH]; intros H k; simpl in *.
  - now exists k.
  - apply andb_prop in H as [Hf H]. apply andb_prop in Hf as [Hf Hv].
    apply negb_true_iff in Hf, Hv. rewrite Hf.
    destruct (replace_total (token_text f) _ k Hv) as [k' ->]. now apply IH.
Qed.

Lemma key_total (template : string) (data : gmap string value) :
  template_resolves template data = true -> exists s, key template data = inr s.
Proof. intros H. now apply key_loop_total. Qed.

(** [#key] throws nothing but the SyntaxError of [new RegExp] for a
    placeholder made of digits and the TypeError of a builtin that a
    placeholder reads. *)
Lemma key_loop_error (tokens : list string) (data : gmap string value) :
  forall k e,
    key_loop tokens data k = inl e ->
    exists f, In f tokens
      /\ ((all_digits f = true /\ e = SyntaxError (token_text f))
          \/ exists m, getProp data f = VMember m
               /\ throws_as_replacer (VMember m) = true /\ e = TypeError m).
Proof.
  induction tokens as [|f tokens IH]; intros k e; simpl; [discriminate|].
  unfold RegExp_throws. destruct (all_digits f) eqn:Hd.
  - intros [= <-]. exists f. auto.
  - destruct (replace (token_text f) (getProp data f) k) as [e'|k'] eqn:Hr.
    + intros [= <-]. destruct (replace_error _ _ _ _ Hr) as (m & Hm & Ht & ->).
      rewrite Hm in Ht. exists f. split; [now left|]. right. exists m. auto.
    + intros H. destruct (IH _ _ H) as (g & Hg & Hcase). exists g. auto.
Qed.

Lemma resolve_keys_total (p : pattern) (data : gmap string value) :
  pattern_resolves p data = true -> exists k, resolve_keys p data = inr k.
Proof.
  unfold pattern_resolves, resolve_keys. intros [Hp Hs]%andb_prop.
  destruct (key_total _ data Hp) as [a ->], (key_total _ data Hs) as [b ->].
  simpl. eauto.
Qed.

Lemma key_changed_refl (k : item_key) : key_changed k k = false.
Proof. unfold key_changed. now rewrite !String.eqb_refl. Qed.

Lemma key_changed_iff (a b : item_key) :
  key_changed a b = true <-> key_pk a <> key_pk b \/ key_sk a <> key_sk b.
Proof.
  unfold key_changed. rewrite orb_true_iff, !negb_true_iff, !String.eqb_neq. tauto.
Qed.

(** *** An empty change set *)

(** One turn of the loop with nothing to change, for a pattern whose
    listed fields are named like no member of [Object.prototype], pushes
    nothing: it resolves the keys when the predicate accepts the entity,
    and that is all. *)
Lemma update_pattern_idle (data : gmap string value) (p : pattern) :
  plain_fields p = true ->
  update_pattern data ∅ p
  = (∅, if included p data
        then match resolve_keys p data with
             | inl e => inl e
             | inr _ => inr []
             end
        else inr []).
Proof.
  intros Hplain. unfold update_pattern, included. rewrite spread_empty.
  assert (Hcc : (match fields p with
                 | Some fs => pull_fields fs data ∅
                 | None => (data, data, ∅)
                 end).2 = ∅).
  { unfold plain_fields in Hplain.
    destruct (fields p); [now apply pull_fields_unchanged | reflexivity]. }
  destruct (match fields p with
            | Some fs => pull_fields fs data ∅
            | None => (data, data, ∅)
            end) as [[prev curr] cc]. simpl in Hcc. subst cc.
  assert (Hleaves : match when p with
                    | Some w => w data && negb (w data)
                    | None => false
                    end = false)
    by (destruct (when p) as [w|]; [destruct (w data)|]; reflexivity).
  rewrite Hleaves.
  assert (Hin : match when p with Some w => negb (w data) | None => false end
                = negb (match when p with Some w => w data | None => true end))
    by (now destruct (when p)).
  rewrite Hin.
  destruct (match when p with Some w => w data | None => true end); simpl;
    [|reflexivity].
  destruct (resolve_keys p data) as [e|k]; [reflexivity|].
  now rewrite key_changed_refl, isEmpty_empty.
Qed.

Lemma update_loop_idle (data : gmap string value) (keys : list pattern) :
  forallb plain_fields keys = true ->
  (update_loop data ∅ keys [] = (∅, inr [])
   \/ exists e, update_loop data ∅ keys [] = (∅, inl e))
  /\ ((forall p, In p keys -> included p data = true ->
         exists k, resolve_keys p data = inr k) ->
      update_loop data ∅ keys [] = (∅, inr [])).
Proof.
  induction keys as [|p keys IH]; intros Hplain; simpl; [now split; [left|]|].
  simpl in Hplain. apply andb_prop in Hplain as [Hp Hplain].
  destruct (IH Hplain) as [IH1 IH2]. rewrite (update_pattern_idle data p Hp).
  split.
  - destruct (included p data); [|exact IH1].
    destruct (resolve_keys p data) as [e|k]; [eauto | exact IH1].
  - intros Hres.
    assert (Hrest : update_loop data ∅ keys [] = (∅, inr []))
      by (apply IH2; intros q Hq; apply Hres; now right).
    destruct (included p data) eqn:Hinc; [|exact Hrest].
    destruct (Hres p (or_introl eq_refl) Hinc) as [k ->]. exact Hrest.
Qed.

(** *** The first loop *)

Lemma remove_unchanged_empty (data : gmap string value) :
  remove_unchanged data ∅ = ∅.
Proof. apply map_filter_empty. Qed.

Lemma remove_unchanged_idem (data changes : gmap string value) :
  remove_unchanged data (remove_unchanged data changes)
  = remove_unchanged data changes.
Proof.
  unfold remove_unchanged. apply map_eq. intros f. apply option_eq. intros v.
  rewrite !map_lookup_filter_Some. tauto.
Qed.

Lemma remove_unchanged_lookup (data changes : gmap string value) (f : string) (v : value) :
  remove_unchanged data changes !! f = Some v
  <-> changes !! f = Some v /\ isEqual (getProp data f) v = false.
Proof. unfold remove_unchanged. now rewrite map_lookup_filter_Some. Qed.

(** *** The change set along the loop over the patterns *)

Lemma strip_keys_lookup (c : gmap string value) (f : string) :
  strip_keys c !! f = if is_key_field f then None else c !! f.
Proof.
  unfold strip_keys, is_key_field.
  destruct (decide (f = "sk")) as [->|Hsk]; [now rewrite lookup_delete_eq|].
  rewrite lookup_delete_ne by congruence.
  destruct (decide (f = "pk")) as [->|Hpk]; [now rewrite lookup_delete_eq|].
  rewrite lookup_delete_ne by congruence.
  apply String.eqb_neq in Hsk, Hpk. now rewrite Hsk, Hpk.
Qed.

Lemma strip_keys_idem (c : gmap string value) : strip_keys (strip_keys c) = strip_keys c.
Proof.
  apply map_eq. intros f. rewrite !strip_keys_lookup. now destruct (is_key_field f).
Qed.

Lemma strip_keys_fixed (c : gmap string value) :
  c !! "pk" = None -> c !! "sk" = None -> strip_keys c = c.
Proof.
  intros Hpk Hsk. apply map_eq. intros f. rewrite strip_keys_lookup.
  unfold is_key_field.
  destruct (String.eqb_spec f "pk") as [->|_]; [now rewrite Hpk|].
  destruct (String.eqb_spec f "sk") as [->|_]; [now rewrite Hsk | reflexivity].
Qed.

(** A turn of the loop leaves the change set as it is, or, for a pattern
    without a field list, without [pk] and [sk]. *)
Lemma update_pattern_state (data c : gmap string value) (p : pattern) :
  (update_pattern data c p).1 = c
  \/ (fields p = None /\ (update_pattern data c p).1 = strip_keys c).
Proof.
  unfold update_pattern.
  destruct (fields p) as [fs|].
  - left. destruct (pull_fields fs data c) as [[prev curr] currChanges].
    repeat match goal with
           | |- context [if ?b then _ else _] => destruct b
           | |- context [match ?x with inl _ => _ | inr _ => _ end] => destruct x
           end; reflexivity.
  - repeat match goal with
           | |- context [if ?b then _ else _] => destruct b
           | |- context [match ?x with inl _ => _ | inr _ => _ end] => destruct x
           end; simpl; auto.
Qed.

Lemma update_loop_state (data : gmap string value) (keys : list pattern) :
  forall c ops,
    (update_loop data c keys ops).1 = c
    \/ (update_loop data c keys ops).1 = strip_keys c.
Proof.
  induction keys as [|p keys IH]; intros c ops; simpl; [now left|].
  pose proof (update_pattern_state data c p) as Hp.
  destruct (update_pattern data c p) as [c' [e|pushed]]; simpl in Hp.
  - destruct Hp as [->|[_ ->]]; auto.
  - destruct (IH c' (ops ++ pushed)) as [H|H]; rewrite H;
      destruct Hp as [->|[_ ->]]; auto.
    right. apply strip_keys_idem.
Qed.

Lemma update_loop_kept (data : gmap string value) (keys : list pattern) :
  forall c ops,
    forallb (fun q => bool_decide (is_Some (fields q))) keys = true
    \/ strip_keys c = c ->
    (update_loop data c keys ops).1 = c.
Proof.
  induction keys as [|p keys IH]; intros c ops Hkept; simpl; [reflexivity|].
  pose proof (update_pattern_state data c p) as Hp.
  assert (Hc : (update_pattern data c p).1 = c).
  { destruct Hp as [Hp|[Hnone Hp]]; [exact Hp|].
    destruct Hkept as [Hall|Hfix]; [|now rewrite Hp].
    simpl in Hall. rewrite Hnone in Hall. apply andb_prop in Hall as [Hall _].
    apply bool_decide_eq_true_1 in Hall. now destruct Hall. }
  destruct (update_pattern data c p) as [c' [e|pushed]]; simpl in Hc; subst c';
    [reflexivity|].
  apply IH. destruct Hkept as [Hall|Hfix]; [left|now right].
  simpl in Hall. now apply andb_prop in Hall as [_ Hall].
Qed.

(** Under [change_set_kept] the loop over the patterns hands the pruned
    change set on as it is. *)
Lemma update_loop_kept_pruned (data changes : gmap string value) (keys : list pattern)
    (ops : list op) :
  change_set_kept keys changes = true ->
  (update_loop data (remove_unchanged data changes) keys ops).1
  = remove_unchanged data changes.
Proof.
  intros Hkept. apply update_loop_kept. unfold change_set_kept in Hkept.
  apply orb_prop in Hkept as [Hall|Hkeys]; [now left|right].
  apply andb_prop in Hkeys as [Hpk Hsk].
  apply bool_decide_eq_true_1 in Hpk, Hsk.
  apply strip_keys_fixed.
  - destruct (remove_unchanged data changes !! "pk") as [v|] eqn:H; [|reflexivity].
    apply remove_unchanged_lookup in H as [H _]. congruence.
  - destruct (remove_unchanged data changes !! "sk") as [v|] eqn:H; [|reflexivity].
    apply remove_unchanged_lookup in H as [H _]. congruence.
Qed.

Lemma emitted_loop (keys : list pattern) (data changes : gmap string value)
    (ops : list op) :
  change_set_kept keys changes = true ->
  emitted keys data changes = inr ops ->
  update_loop data (remove_unchanged data changes) keys []
  = (remove_unchanged data changes, inr ops).
Proof.
  intros Hkept Hops. unfold emitted in Hops.
  pose proof (update_loop_kept_pruned data changes keys [] Hkept) as Hstate.
  destruct (update_loop data (remove_unchanged data changes) keys []) as [c r].
  simpl in *. now subst.
Qed.

(** *** Deep equality and the pruned change set *)

Lemma value_ind_deep (P : value -> Prop) :
  P VUndefined -> P VNull -> (forall b, P (VBool b)) -> (forall n, P (VNum n)) ->
  (forall s, P (VStr s)) -> (forall items, Forall P items -> P (VArr items)) ->
  (forall m, P (VMember m)) ->
  forall v, P v.
Proof.
  intros Hu Hn Hb Hz Hs Ha Hm. fix go 1. intros [| |b|n|s|items|m].
  - exact Hu.
  - exact Hn.
  - apply Hb.
  - apply Hz.
  - apply Hs.
  - apply Ha. induction items as [|x items IH]; constructor; [apply go | exact IH].
  - apply Hm.
Qed.

Lemma safe_integer_eq (a b : safe_integer) : integer a = integer b -> a = b.
Proof.
  destruct a as [x Hx], b as [y Hy]. simpl. intros <-. f_equal.
  revert Hx Hy. destruct (is_safe_integer x); simpl; [|intros []].
  now intros [] [].
Qed.

Lemma member_name_inj (a b : member) : member_name a = member_name b -> a = b.
Proof. destruct a, b; intros H; first [reflexivity | discriminate H]. Qed.

Lemma isEqual_eq (a b : value) : isEqual a b = true <-> a = b.
Proof.
  revert b. induction a as [| |x|x|x|xs IH|x] using value_ind_deep; intros b.
  - destruct b; simpl; split; congruence.
  - destruct b; simpl; split; congruence.
  - destruct b as [| |y| | | |]; simpl; try (split; congruence).
    rewrite Bool.eqb_true_iff. split; congruence.
  - destruct b as [| | |y| | |]; simpl; try (split; congruence).
    rewrite Z.eqb_eq. split; [intros H; f_equal; now apply safe_integer_eq | congruence].
  - destruct b as [| | | |y| |]; simpl; try (split; congruence).
    rewrite String.eqb_eq. split; congruence.
  - destruct b as [| | | | |ys|]; simpl; try (split; congruence).
    cut (forall ys,
           (fix each (xs ys : list value) {struct xs} : bool :=
              match xs, ys with
              | [], [] => true
              | x :: xs', y :: ys' => isEqual x y && each xs' ys'
              | _, _ => false
              end) xs ys = true <-> xs = ys).
    { intros H. rewrite H. split; congruence. }
    clear ys. induction IH as [|x xs Hx _ IHxs]; intros [|y ys];
      try (split; congruence).
    rewrite andb_true_iff, Hx, IHxs. split; [intros [-> ->]; reflexivity|].
    intros [= -> ->]. auto.
  - destruct b as [| | | | | |y]; simpl; try (split; congruence).
    rewrite String.eqb_eq. split; [intros H; f_equal; now apply member_name_inj | congruence].
Qed.

Lemma no_dangling_lookup (data changes : gmap string value) (f : string) (v : value) :
  no_dangling data changes = true ->
  changes !! f = Some v ->
  is_Some (data !! f) \/ isEqual (getProp data f) v = false.
Proof.
  unfold no_dangling. intros H Hf. apply bool_decide_eq_true_1 in H.
  exact (H f v Hf).
Qed.

(** Merging the entity with the pruned change set gives the entity merged
    with the caller's change set, when the caller's set defines no field
    that the entity lacks with the value the entity reads for it. *)
Lemma spread_remove_unchanged (data changes : gmap string value) :
  no_dangling data changes = true ->
  spread data (remove_unchanged data changes) = spread data changes.
Proof.
  intros Hdangling. unfold spread, remove_unchanged. apply map_eq. intros f.
  destruct (changes !! f) as [v|] eqn:Hc.
  - rewrite (lookup_union_Some_l _ _ _ _ Hc).
    destruct (isEqual (getProp data f) v) eqn:Heq.
    + rewrite lookup_union_r
        by (apply map_lookup_filter_None; right; intros v' Hv'; simpl; congruence).
      destruct (no_dangling_lookup _ _ _ _ Hdangling Hc) as [[d Hd]|Hne];
        [|congruence].
      apply isEqual_eq in Heq. unfold getProp in Heq. rewrite Hd in Heq. congruence.
    + apply lookup_union_Some_l, map_lookup_filter_Some. auto.
  - rewrite !lookup_union_r; trivial.
    apply map_lookup_filter_None. now left.
Qed.

(** *** The properties of [update] *)

Lemma update_changes_after (keys : list pattern) (data changes : gmap string value)
    (extraOps : option (list op)) :
  (update keys data changes extraOps).1
  = (update_loop data (remove_unchanged data changes) keys []).1.
Proof.
  unfold update.
  destruct (update_loop data (remove_unchanged data changes) keys [])
    as [c [e|ops]]; [reflexivity|].
  simpl. now destruct (length _ =? 0)%nat.
Qed.

(** The batch of [update] around one pattern whose turn leaves the change
    set as it is. *)
Lemma update_around (before after : list pattern) (p : pattern)
    (data changes : gmap string value) (extraOps : option (list op))
    (ops_before pushed ops_after : list op) :
  change_set_kept before changes = true ->
  emitted before data changes = inr ops_before ->
  update_pattern data (remove_unchanged data changes) p
  = (remove_unchanged data changes, inr pushed) ->
  emitted after data changes = inr ops_after ->
  pushed <> [] ->
  (update (before ++ p :: after) data changes extraOps).2
  = Submitted (ops_before ++ pushed ++ ops_after ++ default [] extraOps).
Proof.
  intros Hkept Hbefore Hp Hafter Hne.
  pose proof (emitted_loop before data changes ops_before Hkept Hbefore) as Hb.
  unfold emitted in Hafter.
  destruct (update_loop data (remove_unchanged data changes) after [])
    as [c2 r] eqn:Ha. simpl in Hafter. subst r.
  replace (ops_before ++ pushed ++ ops_after ++ default [] extraOps)
    with ((ops_before ++ pushed ++ ops_after) ++ default [] extraOps)
    by (now rewrite <- !app_assoc).
  rewrite (update_submits (before ++ p :: after) data changes c2 extraOps
             (ops_before ++ pushed ++ ops_after)); [reflexivity| |].
  - exact (update_loop_around data before after p _ _ _ _ _ _ _ Hb Hp Ha).
  - intros H. apply (f_equal (@length op)) in H.
    rewrite !length_app in H. destruct pushed; [congruence|]. simpl in H. lia.
Qed.

(** C1, as amended. Let [merged] be the entity merged with the caller's
    change set. Take a pattern of the collection whose predicate, when it
    has one, accepts [merged], and whose keys resolve on the entity and
    on [merged] to different pairs. Then the pattern contributes exactly
    a delete at the previous keys followed by a put at the new keys that
    carries the projection of [merged], and no update, and in the batch
    handed to [transactWrite] the two stand in this order between the
    operations of the patterns before and after, provided that
    - the change set defines no field that the entity lacks with the
      value the entity reads for it (such a field is pruned, and is then
      missing from what the code merges);
    - every pattern before this one has a field list, or the change set
      has neither [pk] nor [sk] (an earlier pattern without a field list
      that updates in place deletes them from the change set);
    - the pattern's listed fields are named like no member of
      [Object.prototype], and the change set sets none of them to
      [undefined]. *)
Theorem update_migrates_key
    (before after : list pattern) (p : pattern) (data changes : gmap string value)
    (extraOps : option (list op)) (ops_before ops_after : list op)
    (prevKey currKey : item_key) :
  let merged := spread data changes in
  let migration := [Delete None prevKey;
                    Put None (projected_item p merged currKey)] in
  no_dangling data changes = true ->
  change_set_kept before changes = true ->
  plain_fields p = true ->
  defines_listed p changes = true ->
  included p merged = true ->
  resolve_keys p data = inr prevKey ->
  resolve_keys p merged = inr currKey ->
  key_pk prevKey <> key_pk currKey \/ key_sk prevKey <> key_sk currKey ->
  emitted before data changes = inr ops_before ->
  emitted after data changes = inr ops_after ->
  (update (before ++ p :: after) data changes extraOps).2
  = Submitted (ops_before ++ migration ++ ops_after ++ default [] extraOps).
Proof.
  intros merged migration Hdangling Hkept Hplain Hdef Hinc Hprev Hcurr Hdiff
    Hbefore Hafter.
  pose proof (spread_remove_unchanged data changes Hdangling) as Hmerged.
  apply update_around; trivial; [|discriminate].
  unfold update_pattern. rewrite Hmerged. fold merged.
  unfold included in Hinc.
  assert (Hcurrobj : (match fields p with
                      | Some fs => pull_fields fs data (remove_unchanged data changes)
                      | None => (data, merged, remove_unchanged data changes)
                      end).1.2 = project (fields p) merged).
  { unfold plain_fields, defines_listed in *.
    destruct (fields p) as [fs|] eqn:Hfs; [|reflexivity].
    rewrite pull_fields_curr; [now rewrite Hmerged|].
    intros f Hf. split.
    - now apply (proj1 (forallb_forall _ _) Hplain).
    - intros Hc. apply remove_unchanged_lookup in Hc as [Hc _].
      apply (proj1 (forallb_forall _ _) Hdef) in Hf.
      apply negb_true_iff, bool_decide_eq_false_1 in Hf. contradiction. }
  destruct (match fields p with
            | Some fs => pull_fields fs data (remove_unchanged data changes)
            | None => (data, merged, remove_unchanged data changes)
            end) as [[prev curr] cc]. simpl in Hcurrobj. subst curr.
  destruct (when p) as [w|]; rewrite ?Hinc, ?andb_false_r; simpl;
    rewrite Hprev, Hcurr, (proj2 (key_changed_iff _ _) Hdiff); reflexivity.
Qed.

(** C2, as amended. Take a pattern with an inclusion predicate that
    accepts the entity and rejects the entity merged with the caller's
    change set, and whose keys resolve on the entity. The pattern
    contributes exactly one delete at those keys, and neither a put nor
    an update, and the batch handed to [transactWrite] holds it between
    the operations of the patterns before and after, provided that the
    change set defines no field that the entity lacks with the value the
    entity reads for it, and that every pattern before this one has a
    field list or the change set has neither [pk] nor [sk]. *)
Theorem update_deletes_excluded
    (before after : list pattern) (p : pattern) (w : gmap string value -> bool)
    (data changes : gmap string value) (extraOps : option (list op))
    (ops_before ops_after : list op) (k : item_key) :
  no_dangling data changes = true ->
  change_set_kept before changes = true ->
  when p = Some w ->
  w data = true ->
  w (spread data changes) = false ->
  resolve_keys p data = inr k ->
  emitted before data changes = inr ops_before ->
  emitted after data changes = inr ops_after ->
  (update (before ++ p :: after) data changes extraOps).2
  = Submitted (ops_before ++ [Delete None k] ++ ops_after ++ default [] extraOps).
Proof.
  intros Hdangling Hkept Hwhen Hwas His Hk Hbefore Hafter.
  apply update_around; trivial; [|discriminate].
  unfold update_pattern.
  rewrite (spread_remove_unchanged data changes Hdangling), Hwhen, Hwas, His. simpl.
  destruct (match fields p with
            | Some fs => pull_fields fs data (remove_unchanged data changes)
            | None => (data, spread data changes, remove_unchanged data changes)
            end) as [[prev curr] cc].
  now rewrite Hk.
Qed.

(** C7, as amended. With an empty change set and no extra operations, on
    a collection whose field lists name no member of [Object.prototype],
    [update] never reaches [transactWrite]: it takes the early return, or
    it throws what key resolution throws; the change set stays empty. It
    takes the early return when the keys of every pattern that accepts
    the entity resolve. *)
Theorem update_empty_changes (keys : list pattern) (data : gmap string value) :
  forallb plain_fields keys = true ->
  (update keys data ∅ None = (∅, Skipped)
   \/ exists e, update keys data ∅ None = (∅, Threw e))
  /\ ((forall p, In p keys -> included p data = true ->
         exists k, resolve_keys p data = inr k) ->
      update keys data ∅ None = (∅, Skipped)).
Proof.
  intros Hplain. unfold update. rewrite remove_unchanged_empty.
  destruct (update_loop_idle data keys Hplain) as [Hany Hres]. split.
  - destruct Hany as [->|[e ->]]; [now left | eauto].
  - intros H. now rewrite (Hres H).
Qed.

(** C10, as amended. [update] changes the object it is given as change
    set. Every field whose new value deep-equals what the entity reads
    for it is gone from it after the call; every field left in it was
    given by the caller with a value that differs from the current one;
    every such field is left in it, except that [pk] and [sk] may be
    gone: what is left is the pruned change set, or the pruned change set
    without [pk] and [sk], and it is the pruned change set when every
    pattern has a field list or the caller's set has neither [pk] nor
    [sk]. The call behaves as if it had been given the pruned change set:
    the operations are computed after the pruning. *)
Theorem update_prunes_change_set (keys : list pattern)
    (data changes : gmap string value) (extraOps : option (list op)) :
  let left := (update keys data changes extraOps).1 in
  (forall f v, changes !! f = Some v -> isEqual (getProp data f) v = true ->
     left !! f = None)
  /\ (forall f v, left !! f = Some v ->
        changes !! f = Some v /\ isEqual (getProp data f) v = false)
  /\ (forall f v, changes !! f = Some v -> isEqual (getProp data f) v = false ->
        is_key_field f = false -> left !! f = Some v)
  /\ (left = remove_unchanged data changes
      \/ left = strip_keys (remove_unchanged data changes))
  /\ (change_set_kept keys changes = true -> left = remove_unchanged data changes)
  /\ update keys data changes extraOps
     = update keys data (remove_unchanged data changes) extraOps.
Proof.
  intros left. subst left. rewrite update_changes_after.
  pose proof (update_loop_state data keys (remove_unchanged data changes) [])
    as Hstate.
  assert (Hleft : forall f v,
             (update_loop data (remove_unchanged data changes) keys []).1 !! f = Some v ->
             changes !! f = Some v /\ isEqual (getProp data f) v = false).
  { intros f v Hf. apply remove_unchanged_lookup.
    destruct Hstate as [H|H]; rewrite H in Hf; [exact Hf|].
    rewrite strip_keys_lookup in Hf. now destruct (is_key_field f). }
  split; [|split; [|split; [|split; [|split]]]].
  - intros f v Hf Heq.
    destruct ((update_loop data (remove_unchanged data changes) keys []).1 !! f)
      as [v'|] eqn:Hafter; [|reflexivity].
    destruct (Hleft f v' Hafter) as [Hf' Hne]. congruence.
  - exact Hleft.
  - intros f v Hf Hne Hkey.
    assert (Hc : remove_unchanged data changes !! f = Some v)
      by (now apply remove_unchanged_lookup).
    destruct Hstate as [H|H]; rewrite H; [exact Hc|].
    now rewrite strip_keys_lookup, Hkey.
  - exact Hstate.
  - intros Hkept. now apply update_loop_kept_pruned.
  - unfold update. now rewrite remove_unchanged_idem.
Qed.

(** *** Instances *)

Lemma update_migrates_key_witness :
  (update [profile_pattern] ann {[ "id" := VStr "43" ]} None).2
  = Submitted [Delete None (ItemKey "user#42" "profile");
               Put None (<["pk" := VStr "user#43"]> (<["sk" := VStr "profile"]>
                  (<["name" := VStr "Ann"]> {[ "email" := VStr "a@x.com" ]})))].
Proof.
  assert (H := update_migrates_key [] [] profile_pattern ann {[ "id" := VStr "43" ]}
                 None [] [] (ItemKey "user#42" "profile") (ItemKey "user#43" "profile")).
  cbv zeta in H. etrans; [apply H|].
  - vm_compute. reflexivity.
  - reflexivity.
  - reflexivity.
  - vm_compute. reflexivity.
  - reflexivity.
  - vm_compute. reflexivity.
  - vm_compute. reflexivity.
  - left. simpl. discriminate.
  - reflexivity.
  - reflexivity.
  - vm_compute. reflexivity.
Defined.

(** C1 as stated fails when the change set sets a listed field to
    [undefined]. The pattern below has no predicate and its partition key
    changes with [id]; the merged entity holds [undefined] as [name], and
    the put that [update] emits carries the entity's old [name]: its item
    is not the projection of the merged entity. *)
Lemma update_migrates_key_counterexample :
  included name_pattern (spread ann_1 id_2_name_undefined) = true
  /\ resolve_keys name_pattern ann_1 = inr (ItemKey "user#1" "profile")
  /\ resolve_keys name_pattern (spread ann_1 id_2_name_undefined)
     = inr (ItemKey "user#2" "profile")
  /\ getProp (spread ann_1 id_2_name_undefined) "name" = VUndefined
  /\ update [name_pattern] ann_1 id_2_name_undefined None
     = (id_2_name_undefined,
        Submitted [Delete None (ItemKey "user#1" "profile");
                   Put None (<["pk" := VStr "user#2"]> (<["sk" := VStr "profile"]>
                      {[ "name" := VStr "Ann" ]}))])
  /\ update [name_pattern] ann_1 id_2_name_undefined None
     <> (id_2_name_undefined,
         Submitted [Delete None (ItemKey "user#1" "profile");
                    Put None (projected_item name_pattern
                                (spread ann_1 id_2_name_undefined)
                                (ItemKey "user#2" "profile"))]).
Proof.
  repeat split; try (vm_compute; reflexivity).
  vm_compute. intros H. discriminate H.
Qed.

(** It fails too when an earlier pattern without a field list has updated
    in place: [updateExpression] has then deleted [pk] from the change
    set, and a later pattern whose key is built from [pk] sees the old
    [pk]. Its keys on the entity and on the entity merged with the
    caller's change set differ, and yet it contributes an update in place
    at the old key, and neither a delete nor a put. *)
Example update_stripped_pk :
  resolve_keys by_pk_pattern ann_stored = inr (ItemKey "user#1#1" "copy")
  /\ resolve_keys by_pk_pattern (spread ann_stored name_and_pk)
     = inr (ItemKey "user#2#1" "copy")
  /\ update [whole_pattern; by_pk_pattern] ann_stored name_and_pk None
     = ({[ "name" := VStr "Anna" ]},
        Submitted [Update None (ItemKey "user#1" "profile") {[ "name" := VStr "Anna" ]};
                   Update None (ItemKey "user#1#1" "copy") {[ "name" := VStr "Anna" ]}]).
Proof. repeat split; vm_compute; reflexivity. Qed.

Lemma update_deletes_excluded_witness :
  (update [active_pattern] bob {[ "status" := VStr "inactive" ]} None).2
  = Submitted [Delete None (ItemKey "active" "user#7")].
Proof.
  assert (H := update_deletes_excluded [] [] active_pattern
                 (fun e => bool_decide (getProp e "status" = VStr "active"))
                 bob {[ "status" := VStr "inactive" ]} None
                 [] [] (ItemKey "active" "user#7")).
  etrans; [apply H|].
  - vm_compute. reflexivity.
  - reflexivity.
  - reflexivity.
  - vm_compute. reflexivity.
  - vm_compute. reflexivity.
  - vm_compute. reflexivity.
  - reflexivity.
  - reflexivity.
  - reflexivity.
Defined.

(** C2 as stated fails when the change set defines as [undefined] a field
    that the entity lacks. The predicate below accepts the entities
    without a [flag] field: it accepts the entity and rejects the entity
    merged with the change set, which has the field. But [update] prunes
    the field from the change set before it merges, finds nothing
    changed, and emits no delete: it returns early. *)
Lemma update_deletes_excluded_counterexample :
  included unflagged_pattern bob = true
  /\ included unflagged_pattern (spread bob flag_undefined) = false
  /\ resolve_keys unflagged_pattern bob = inr (ItemKey "unflagged" "user#7")
  /\ update [unflagged_pattern] bob flag_undefined None = (∅, Skipped).
Proof. repeat split; vm_compute; reflexivity. Qed.

Lemma update_empty_changes_witness :
  update [profile_pattern; active_pattern] ann ∅ None = (∅, Skipped).
Proof.
  apply (proj2 (update_empty_changes [profile_pattern; active_pattern] ann eq_refl)).
  intros p [<-|[<-|[]]] _; eexists; vm_compute; reflexivity.
Defined.

(** C7 as stated fails for a pattern that lists a field named like a
    member of [Object.prototype]: the empty change set reads the builtin
    under that name, which is not [undefined], so the field counts as
    changed, and [update] submits an update in place that assigns the
    builtin. *)
Lemma update_empty_changes_counterexample :
  update [constructor_pattern] {[ "id" := VStr "1" ]} ∅ None
  = (∅, Submitted [Update None (ItemKey "user#1" "profile")
                     {[ "constructor" := VMember MConstructor ]}]).
Proof. vm_compute. reflexivity. Qed.

Lemma update_prunes_change_set_witness :
  (update [profile_pattern] ann
     (<["name" := VStr "Ann"]> {[ "email" := VStr "b@x.com" ]}) None).1 !! "name" = None
  /\ (update [profile_pattern] ann
        (<["name" := VStr "Ann"]> {[ "email" := VStr "b@x.com" ]}) None).1 !! "email"
     = Some (VStr "b@x.com").
Proof.
  assert (H := update_prunes_change_set [profile_pattern] ann
                 (<["name" := VStr "Ann"]> {[ "email" := VStr "b@x.com" ]}) None).
  cbv zeta in H. destruct H as (Hgone & _ & Hkept & _). split.
  - apply (Hgone "name" (VStr "Ann")); reflexivity.
  - apply (Hkept "email" (VStr "b@x.com")); reflexivity.
Defined.

(** C10 read as "exactly the changed fields are left" fails: the change
    set below gives a new [pk], which differs from what the entity reads,
    and the pattern without a field list updates in place, so that
    [updateExpression] deletes [pk] from the caller's object. *)
Lemma update_prunes_change_set_counterexample :
  (<["pk" := VStr "user#9"]> {[ "email" := VStr "b@x.com" ]} : gmap string value) !! "pk"
  = Some (VStr "user#9")
  /\ isEqual (getProp ann "pk") (VStr "user#9") = false
  /\ update [whole_pattern] ann
       (<["pk" := VStr "user#9"]> {[ "email" := VStr "b@x.com" ]}) None
     = ({[ "email" := VStr "b@x.com" ]},
        Submitted [Update None (ItemKey "user#42" "profile")
                     {[ "email" := VStr "b@x.com" ]}])
  /\ (update [whole_pattern] ann
        (<["pk" := VStr "user#9"]> {[ "email" := VStr "b@x.com" ]}) None).1 !! "pk"
     = None.
Proof. repeat split; vm_compute; reflexivity. Qed.

(** ** The store wrapper *)

Example chunk_5_2 : chunk [1; 2; 3; 4; 5]%nat 2 = [[1; 2]; [3; 4]; [5]]%nat.
Proof. reflexivity. Qed.

Example chunk_size_0 : chunk [1; 2; 3]%nat 0 = [].
Proof. reflexivity. Qed.

Example split_filter : split_on " " "status = not active" = ["status"; "="; "not"; "active"].
Proof. reflexivity. Qed.

Example filter_active :
  filter_callback (option Z) Number_integer truthy_integer "status = active"
  = FilterEntry (option Z) "#status" (Some "status") ":status" (FString "active")
      "#status = :status".
Proof. reflexivity. Qed.

Example filter_true :
  bound_value _ (filter_callback (option Z) Number_integer truthy_integer "done = true")
  = FBoolean true.
Proof. reflexivity. Qed.

Example filter_42 :
  bound_value _ (filter_callback (option Z) Number_integer truthy_integer "age > 42")
  = FNumber (Some 42%Z).
Proof. reflexivity. Qed.

(** With a ceiling of zero [chunk] gives no chunk: the call resolves
    without a client call. *)
Example transactWrite_ceiling_0 :
  transactWrite (conflicting_store 1 0) 23 five_ops
  = Some (Run [] (Resolved (RArray []))).
Proof. vm_compute. reflexivity. Qed.

(** The table of the store is injected into an operation that names none,
    or names the empty string; a name that is given is kept. *)
Example inject_table_missing :
  TransactItems (conflicting_store 1 10)
    [Put None ann; Delete (Some "") (ItemKey "a" "1"); Delete (Some "other") (ItemKey "a" "2")]
  = [Put (Some "app") ann; Delete (Some "app") (ItemKey "a" "1");
     Delete (Some "other") (ItemKey "a" "2")].
Proof. reflexivity. Qed.

(** *** [chunk] *)

Section Chunk.

Context {A : Type}.

Lemma chunk_loop_concat (size : nat) :
  (0 < size)%nat ->
  forall fuel (array : list A),
    (length array <= fuel)%nat -> concat (chunk_loop fuel size array) = array.
Proof.
  intros Hsize. induction fuel as [|fuel IH]; intros array Hlen.
  - destruct array; [reflexivity | simpl in Hlen; lia].
  - destruct array as [|x array]; [reflexivity|].
    cbn [chunk_loop concat]. rewrite IH.
    + apply take_drop.
    + rewrite length_drop. simpl in *. lia.
Qed.

Lemma chunk_loop_sizes (size : nat) :
  (0 < size)%nat ->
  forall fuel (array : list A),
    Forall (fun c => 0 < length c <= size)%nat (chunk_loop fuel size array).
Proof.
  intros Hsize. induction fuel as [|fuel IH]; intros array; [constructor|].
  destruct array as [|x array]; [constructor|].
  cbn [chunk_loop]. constructor; [|apply IH].
  rewrite length_take. simpl. lia.
Qed.

Lemma chunk_concat (array : list A) (size : nat) :
  (0 < size)%nat -> concat (chunk array size) = array.
Proof.
  intros Hsize. unfold chunk.
  destruct (Nat.ltb_spec size 1); [lia|]. now apply chunk_loop_concat.
Qed.

Lemma chunk_sizes (array : list A) (size : nat) :
  (0 < size)%nat -> Forall (fun c => 0 < length c <= size)%nat (chunk array size).
Proof.
  intros Hsize. unfold chunk.
  destruct (Nat.ltb_spec size 1); [lia|]. now apply chunk_loop_sizes.
Qed.

Lemma chunk_several (array : list A) (size : nat) :
  (0 < size)%nat -> (size < length array)%nat -> (1 < length (chunk array size))%nat.
Proof.
  intros Hsize Hlen.
  pose proof (chunk_concat array size Hsize) as Hcat.
  pose proof (chunk_sizes array size Hsize) as Hsz.
  destruct (chunk array size) as [|c1 [|c2 rest]]; simpl in *.
  - subst array. simpl in Hlen. lia.
  - rewrite app_nil_r in Hcat. subst c1. inversion Hsz; subst. lia.
  - lia.
Qed.

End Chunk.

(** *** The retry loop *)

Section WrapperFacts.

Variable this : DynamoDB.

Lemma attempt_loop_total (items : list op) :
  forall fuel attempts,
    (1 <= fuel)%nat -> (21 <= fuel + attempts)%nat -> (attempts <= 20)%nat ->
    exists n s, attempt_loop this fuel attempts items = Some (n, s)
                /\ (attempts <= n <= 20)%nat /\ (attempts < 20 -> attempts < n)%nat.
Proof.
  induction fuel as [|fuel IH]; intros attempts H1 Hf Ha; [lia|].
  cbn [attempt_loop].
  destruct (Nat.ltb_spec 20 (attempts + 1)) as [Hmax|Hmore].
  - eexists _, _. split; [reflexivity|]. simpl. lia.
  - destruct (client_transactWrite (client this) items (attempts + 1)) as [|message].
    + eexists _, _. split; [reflexivity|]. simpl. lia.
    + destruct (is_conflict message).
      * destruct (IH (attempts + 1)%nat) as (n & s & -> & Hn & Hn'); [lia..|].
        eexists _, _. split; [reflexivity|]. lia.
      * eexists _, _. split; [reflexivity|]. simpl. lia.
Qed.

Lemma attempt_loop_more_fuel (items : list op) :
  forall fuel attempts r,
    attempt_loop this fuel attempts items = Some r ->
    attempt_loop this (S fuel) attempts items = Some r.
Proof.
  induction fuel as [|fuel IH]; intros attempts r H; [discriminate|].
  cbn [attempt_loop] in H |- *.
  destruct (20 <? attempts + 1)%nat; [exact H|].
  destruct (client_transactWrite (client this) items (attempts + 1)) as [|message];
    [exact H|].
  destruct (is_conflict message); [|exact H].
  now apply IH.
Qed.

Lemma attempt_loop_enough (items : list op) (fuel : nat) :
  (21 <= fuel)%nat ->
  attempt_loop this fuel 0 items = attempt_loop this 21 0 items.
Proof.
  intros Hf. destruct (attempt_loop_total items 21 0) as (n & s & H & _); [lia..|].
  rewrite H. replace fuel with ((fuel - 21) + 21)%nat by lia.
  induction (fuel - 21)%nat as [|d IH]; [exact H|].
  now apply attempt_loop_more_fuel.
Qed.

(** While the store reports conflicts the loop goes on. *)
Lemma attempt_loop_skip (items : list op) :
  forall d fuel attempts,
    (attempts + d <= 20)%nat ->
    (forall k, (attempts < k <= attempts + d)%nat -> conflict_at this items k) ->
    attempt_loop this (d + fuel) attempts items
    = attempt_loop this fuel (attempts + d) items.
Proof.
  induction d as [|d IH]; intros fuel attempts Hmax Hconf.
  - now rewrite Nat.add_0_r.
  - cbn [Nat.add attempt_loop].
    destruct (Nat.ltb_spec 20 (attempts + 1)) as [?|_]; [lia|].
    destruct (Hconf (attempts + 1)%nat) as (message & -> & ->); [lia|].
    rewrite IH.
    + f_equal. lia.
    + lia.
    + intros k Hk. apply Hconf. lia.
Qed.

Lemma transactWrite_single (fuel : nat) (ops : list op) :
  (length ops <= transactLimit this)%nat ->
  transactWrite this (S fuel) ops
  = (fun r => Run (replicate r.1 (TransactItems this ops)) r.2)
      <$> attempt_loop this fuel 0 (TransactItems this ops).
Proof.
  intros Hlen. cbn [transactWrite].
  destruct (Nat.ltb_spec (transactLimit this) (length ops)); [lia | reflexivity].
Qed.

Lemma transactWrite_chunked (fuel : nat) (ops : list op) :
  (transactLimit this < length ops)%nat ->
  transactWrite this (S fuel) ops
  = Promise_all <$> mapM (transactWrite this fuel) (chunk ops (transactLimit this)).
Proof.
  intros Hlen. cbn [transactWrite].
  destruct (Nat.ltb_spec (transactLimit this) (length ops)); [reflexivity | lia].
Qed.

Lemma putBatch_single (fuel : nat) (items : list (gmap string value)) :
  (length items <= transactLimit this)%nat ->
  putBatch this (S fuel) items = Some (putBatch_once this items).
Proof.
  intros Hlen. cbn [putBatch].
  destruct (Nat.ltb_spec (transactLimit this) (length items)); [lia | reflexivity].
Qed.

Lemma putBatch_chunked (fuel : nat) (items : list (gmap string value)) :
  (transactLimit this < length items)%nat ->
  putBatch this (S fuel) items
  = Promise_all <$> mapM (putBatch this fuel) (chunk items (transactLimit this)).
Proof.
  intros Hlen. cbn [putBatch].
  destruct (Nat.ltb_spec (transactLimit this) (length items)); [reflexivity | lia].
Qed.

Lemma transactWrite_single_run (fuel : nat) (ops : list op) :
  (length ops <= transactLimit this)%nat -> (22 <= fuel)%nat ->
  exists n s, transactWrite this fuel ops
              = Some (Run (replicate n (TransactItems this ops)) s)
              /\ (1 <= n <= 20)%nat
              /\ transactWrite this 22 ops
                 = Some (Run (replicate n (TransactItems this ops)) s).
Proof.
  intros Hlen Hf. destruct fuel as [|fuel]; [lia|].
  rewrite !transactWrite_single by exact Hlen.
  rewrite (attempt_loop_enough _ fuel) by lia.
  destruct (attempt_loop_total (TransactItems this ops) 21 0) as (n & s & -> & Hn & Hn');
    [lia..|].
  exists n, s. simpl. repeat split; lia.
Qed.

Lemma all_settled_resolved (runs : list promise) :
  is_resolved (all_settled runs) = true
  <-> Forall (fun s => is_resolved s = true) runs.
Proof.
  induction runs as [|[v|e] runs IH]; simpl.
  - split; [constructor | reflexivity].
  - destruct (all_settled runs) as [[|vs]|e] eqn:Hrest; simpl in *.
    + split; [|reflexivity]. intros _. constructor; [reflexivity | now apply IH].
    + split; [|reflexivity]. intros _. constructor; [reflexivity | now apply IH].
    + split; [discriminate|]. intros H. inversion H; subst. now apply IH.
  - split; [discriminate|]. intros H. inversion H; subst. discriminate.
Qed.

End WrapperFacts.

(** *** The filters of [query] *)

(** What the callback binds, by cases on the text of the value: a number
    when the number read from it is truthy; otherwise the boolean named by
    the text, or the text itself. *)
Lemma filter_value_of_cases (number : Type) (Number : string -> number)
    (truthy : number -> bool) (value : string) :
  (truthy (Number value) = true ->
   filter_value_of number Number truthy value = FNumber (Number value))
  /\ (truthy (Number value) = false ->
      filter_value_of number Number truthy value
      = if String.eqb value "true" then FBoolean true
        else if String.eqb value "false" then FBoolean false
        else FString value).
Proof. unfold filter_value_of. split; intros ->; reflexivity. Qed.

(** *** The properties of [transactWrite] and [putBatch] *)

(** C5. Take a batch at or under the transactional ceiling. If the store
    reports a transactional conflict on the first [N - 1] attempts and
    succeeds on attempt [N], [transactWrite] resolves after [N] client
    calls when [N <= 20], and rejects with the DatabaseError of the
    exhausted retries, after twenty client calls, when [N > 20]. If an
    attempt within the twenty fails with anything but a conflict, the call
    rejects with that failure's message and makes no further client call.
    Twenty-two units of fuel are enough for every case. *)
Theorem transactWrite_retry_bound (this : DynamoDB) (fuel : nat) (ops : list op) :
  (length ops <= transactLimit this)%nat ->
  (22 <= fuel)%nat ->
  let items := TransactItems this ops in
  (forall N,
      (1 <= N)%nat ->
      (forall k, (1 <= k < N)%nat -> conflict_at this items k) ->
      client_transactWrite (client this) items N = Success ->
      ((N <= 20)%nat ->
       transactWrite this fuel ops = Some (Run (replicate N items) (Resolved RTrue)))
      /\ ((20 < N)%nat ->
          transactWrite this fuel ops
          = Some (Run (replicate 20 items)
                    (Rejected (DatabaseError max_attempts_message)))))
  /\ (forall K message,
         (1 <= K <= 20)%nat ->
         (forall k, (1 <= k < K)%nat -> conflict_at this items k) ->
         client_transactWrite (client this) items K = Failure message ->
         is_conflict message = false ->
         transactWrite this fuel ops
         = Some (Run (replicate K items) (Rejected (DatabaseError message)))).
Proof.
  intros Hlen Hfuel items.
  destruct fuel as [|fuel]; [lia|].
  rewrite transactWrite_single by exact Hlen. fold items.
  split.
  - intros N HN Hconf Hok. split; intros HN'.
    + replace fuel with ((N - 1) + (fuel - (N - 1)))%nat by lia.
      rewrite attempt_loop_skip; [|lia|intros k Hk; apply Hconf; lia].
      destruct (fuel - (N - 1))%nat as [|rest] eqn:Hrest; [lia|].
      cbn [attempt_loop Nat.add].
      replace (N - 1 + 1)%nat with N by lia.
      destruct (Nat.ltb_spec 20 N); [lia|]. now rewrite Hok.
    + replace fuel with (20 + (fuel - 20))%nat by lia.
      rewrite attempt_loop_skip; [|lia|intros k Hk; apply Hconf; lia].
      destruct (fuel - 20)%nat as [|rest] eqn:Hrest; [lia|].
      reflexivity.
  - intros K message HK Hconf Hfail Hother.
    replace fuel with ((K - 1) + (fuel - (K - 1)))%nat by lia.
    rewrite attempt_loop_skip; [|lia|intros k Hk; apply Hconf; lia].
    destruct (fuel - (K - 1))%nat as [|rest] eqn:Hrest; [lia|].
    cbn [attempt_loop Nat.add].
    replace (K - 1 + 1)%nat with K by lia.
    destruct (Nat.ltb_spec 20 K); [lia|]. now rewrite Hfail, Hother.
Qed.

(** C6. With a ceiling of at least one operation, a list longer than the
    ceiling is cut into several chunks, none empty and none above the
    ceiling, whose concatenation is the list. [transactWrite] is the
    [Promise.all] of its own runs on the chunks: every client call it makes
    carries the items of one chunk, so at most the ceiling's number, every
    chunk is sent at least once, and the call resolves exactly when the run
    of every chunk resolves. The same holds of [putBatch], which sends
    every chunk exactly once. *)
Theorem writes_are_chunked (this : DynamoDB) (fuel : nat) :
  (0 < transactLimit this)%nat ->
  (23 <= fuel)%nat ->
  (forall ops : list op,
      (transactLimit this < length ops)%nat ->
      let chunks := chunk ops (transactLimit this) in
      concat chunks = ops
      /\ Forall (fun c => 0 < length c <= transactLimit this)%nat chunks
      /\ (1 < length chunks)%nat
      /\ exists runs,
          Forall2 (fun c r =>
                     transactWrite this fuel c = Some r
                     /\ exists n, (1 <= n)%nat
                                  /\ calls r = replicate n (TransactItems this c))
            chunks runs
          /\ transactWrite this fuel ops = Some (Promise_all runs)
          /\ Forall (fun call => length call <= transactLimit this)%nat
               (calls (Promise_all runs))
          /\ (is_resolved (settled (Promise_all runs)) = true
              <-> Forall (fun r => is_resolved (settled r) = true) runs))
  /\ (forall items : list (gmap string value),
         (transactLimit this < length items)%nat ->
         let chunks := chunk items (transactLimit this) in
         concat chunks = items
         /\ Forall (fun c => 0 < length c <= transactLimit this)%nat chunks
         /\ (1 < length chunks)%nat
         /\ exists runs,
             Forall2 (fun c r => putBatch this fuel c = Some r /\ calls r = [c])
               chunks runs
             /\ putBatch this fuel items = Some (Promise_all runs)
             /\ calls (Promise_all runs) = chunks
             /\ (is_resolved (settled (Promise_all runs)) = true
                 <-> Forall (fun r => is_resolved (settled r) = true) runs)).
Proof.
  intros Hlimit Hfuel. split.
  - intros ops Hlen chunks.
    pose proof (chunk_sizes ops _ Hlimit) as Hsizes. fold chunks in Hsizes.
    split; [now apply chunk_concat|]. split; [exact Hsizes|].
    split; [now apply chunk_several|].
    assert (Hruns : exists runs,
               Forall2 (fun c r =>
                          transactWrite this (fuel - 1) c = Some r
                          /\ transactWrite this fuel c = Some r
                          /\ exists n, (1 <= n)%nat
                                       /\ calls r = replicate n (TransactItems this c))
                 chunks runs).
    { clear -Hsizes Hfuel. induction Hsizes as [|c chunks Hc _ [runs IH]].
      - exists []. constructor.
      - destruct (transactWrite_single_run this (fuel - 1) c) as (n & s & H1 & Hn & H22);
          [lia..|].
        destruct (transactWrite_single_run this fuel c) as (n' & s' & H2 & _ & H22');
          [lia..|].
        rewrite H22 in H22'.
        exists (Run (replicate n (TransactItems this c)) s :: runs).
        constructor; [|exact IH].
        split; [exact H1|]. split; [now rewrite H2, <- H22'|].
        exists n. split; [lia | reflexivity]. }
    destruct Hruns as [runs Hruns]. exists runs.
    split; [eapply Forall2_impl; [exact Hruns | intros c r (_ & Hc & Hn); now split]|].
    split.
    { destruct fuel as [|fuel']; [lia|].
      rewrite transactWrite_chunked by exact Hlen. fold chunks.
      assert (Hm : mapM (transactWrite this fuel') chunks = Some runs).
      { apply mapM_Some. eapply Forall2_impl; [exact Hruns|].
        simpl. intros c r (Hc & _). now replace fuel' with (S fuel' - 1)%nat by lia. }
      now rewrite Hm. }
    split.
    { unfold Promise_all. simpl. clear -Hruns Hsizes.
      induction Hruns as [|c r chunks runs (_ & _ & n & _ & Hcalls) _ IH]; [constructor|].
      inversion Hsizes; subst. simpl. apply Forall_app. split; [|now apply IH].
      rewrite Hcalls. apply Forall_forall. intros call Hin.
      apply elem_of_replicate in Hin as [-> _].
      unfold TransactItems. rewrite length_map. lia. }
    unfold Promise_all. simpl. rewrite all_settled_resolved, Forall_map. reflexivity.
  - intros items Hlen chunks.
    pose proof (chunk_sizes items _ Hlimit) as Hsizes. fold chunks in Hsizes.
    split; [now apply chunk_concat|]. split; [exact Hsizes|].
    split; [now apply chunk_several|].
    exists (List.map (putBatch_once this) chunks).
    split.
    { apply Forall2_fmap_r, Forall_Forall2_diag.
      destruct fuel as [|f]; [lia|].
      eapply Forall_impl; [exact Hsizes|]. intros c Hc. cbv beta in Hc |- *.
      rewrite putBatch_single by lia. split; reflexivity. }
    split.
    { destruct fuel as [|[|f]]; [lia..|].
      rewrite putBatch_chunked by exact Hlen. fold chunks.
      assert (Hm : mapM (putBatch this (S f)) chunks
                   = Some (List.map (putBatch_once this) chunks)).
      { apply mapM_Some, Forall2_fmap_r, Forall_Forall2_diag.
        eapply Forall_impl; [exact Hsizes|]. intros c Hc. cbv beta in Hc |- *.
        now rewrite putBatch_single by lia. }
      now rewrite Hm. }
    split.
    { unfold Promise_all. simpl. rewrite List.map_map. simpl.
      clear. induction chunks as [|c chunks IH]; [reflexivity|].
      simpl. now rewrite IH. }
    unfold Promise_all. simpl. rewrite all_settled_resolved, Forall_map. reflexivity.
Qed.

(** *** Instances *)

Lemma transactWrite_retry_bound_witness :
  transactWrite (conflicting_store 3 25) 22 five_ops
  = Some (Run (replicate 3 (TransactItems (conflicting_store 3 25) five_ops))
            (Resolved RTrue)).
Proof.
  refine (proj1 (proj1 (transactWrite_retry_bound (conflicting_store 3 25) 22 five_ops
                          _ _) 3%nat _ _ _) _).
  - simpl. lia.
  - lia.
  - lia.
  - intros k Hk. unfold conflict_at. eexists. simpl.
    destruct (Nat.ltb_spec k 3); [|lia]. split; reflexivity.
  - reflexivity.
  - lia.
Defined.

Lemma writes_are_chunked_witness :
  concat (chunk five_ops 2) = five_ops
  /\ Forall (fun c => 0 < length c <= 2)%nat (chunk five_ops 2).
Proof.
  destruct (proj1 (writes_are_chunked (conflicting_store 1 2) 23
                     ltac:(simpl; lia) ltac:(lia)) five_ops ltac:(simpl; lia))
    as (Hcat & Hsizes & _).
  split; [exact Hcat | exact Hsizes].
Defined.

Example transactWrite_five_by_two :
  transactWrite (conflicting_store 2 2) 23 five_ops
  = Some (Run (let items := TransactItems (conflicting_store 2 2) in
               [items (take 2 five_ops); items (take 2 five_ops);
                items (take 2 (drop 2 five_ops)); items (take 2 (drop 2 five_ops));
                items (drop 4 five_ops); items (drop 4 five_ops)])
            (Resolved (RArray [RTrue; RTrue; RTrue]))).
Proof. vm_compute. reflexivity. Qed.

(** C8, at the input where the code departs from it. Whatever the
    platform's [Number] and truthiness are, if the number read from the
    text ["0"] is falsy, the filter ["count = 0"] binds the text ["0"] and
    not a number. *)
Theorem filter_zero_stays_text (number : Type) (Number : string -> number)
    (truthy : number -> bool) :
  truthy (Number "0") = false ->
  bound_value number (filter_callback number Number truthy "count = 0") = FString "0".
Proof.
  intros H. unfold filter_callback. simpl. unfold filter_value_of. now rewrite H.
Qed.

Lemma filter_zero_stays_text_witness :
  truthy_integer (Number_integer "0") = false
  /\ bound_value (option Z)
       (filter_callback (option Z) Number_integer truthy_integer "count = 0")
     = FString "0".
Proof.
  split; [reflexivity|].
  apply (filter_zero_stays_text (option Z) Number_integer truthy_integer).
  reflexivity.
Defined.

(** ** The cursor codec *)

Example base64_hello : base64Encode "hello" = "aGVsbG8=".
Proof. reflexivity. Qed.

Example base64_hello_back : base64Decode "aGVsbG8=" = "hello".
Proof. reflexivity. Qed.

Example base64_no_padding : base64Decode "aGVsbG8" = "hello".
Proof. reflexivity. Qed.

Example base64_e_acute : base64Encode (String "233" "") = "w6k=".
Proof. reflexivity. Qed.

Example base64_e_acute_back : base64Decode "w6k=" = "C)".
Proof. reflexivity. Qed.

Example stringify_key :
  MiniJSON.stringify
    (MiniJSON.JObject [("pk", MiniJSON.JString "user#42"); ("n", MiniJSON.JNumber (-7));
                       ("l", MiniJSON.JArray [MiniJSON.JNull; MiniJSON.JBool true])])
  = String "{" (String "034" ("pk" +:+ String "034" (":" +:+ String "034" ("user#42"
      +:+ String "034" ("," +:+ String "034" ("n" +:+ String "034" (":-7,"
      +:+ String "034" ("l" +:+ String "034" ":[null,true]}")))))))).
Proof. reflexivity. Qed.

Example parse_stringify_key :
  let v := MiniJSON.JObject
             [("pk", MiniJSON.JString "user#42"); ("n", MiniJSON.JNumber (-7));
              ("l", MiniJSON.JArray [MiniJSON.JNull; MiniJSON.JBool true;
                                     MiniJSON.JObject []; MiniJSON.JArray []]);
              ("e", MiniJSON.JString (String "034" (String "010" "\/")))] in
  MiniJSON.parse (MiniJSON.stringify v) = Some v.
Proof. vm_compute. reflexivity. Qed.

Example parse_one : MiniJSON.parse " 1 " = Some (MiniJSON.JNumber 1).
Proof. vm_compute. reflexivity. Qed.

Example parse_rejects : MiniJSON.parse "{pk:1}" = None.
Proof. vm_compute. reflexivity. Qed.

(** *** The encodings of [Buffer] *)

Ltac divmod := zify; Z.to_euclidean_division_equations; lia.

Lemma string_list_ascii (l : list ascii) (s : string) :
  string_of_list_ascii l +:+ s
  = fold_right String s l.
Proof. induction l as [|c l IH]; simpl; [reflexivity | now rewrite append_cons, IH]. Qed.

(** Octets in groups of three. *)
Lemma octets_ind (P : list ascii -> Prop) :
  P [] -> (forall a, P [a]) -> (forall a b, P [a; b]) ->
  (forall a b c rest, P rest -> P (a :: b :: c :: rest)) ->
  forall buffer, P buffer.
Proof.
  intros H0 H1 H2 H3.
  assert (H : forall buffer, P buffer /\ (forall a, P (a :: buffer))
                             /\ (forall a b, P (a :: b :: buffer))).
  { induction buffer as [|c buffer (IH0 & IH1 & IH2)]; [now repeat split|].
    split; [apply IH1|]. split; [intros a; apply IH2 | intros a b; now apply H3]. }
  intros buffer. apply H.
Qed.

Lemma octet_back (x : ascii) (n : N) : n = N_of_ascii x -> ascii_of_N n = x.
Proof. intros ->. apply ascii_N_embedding. Qed.

Lemma octets_sextets_octets (buffer : list ascii) :
  sextets_to_octets (octets_to_sextets buffer) = buffer.
Proof.
  induction buffer as [|a|a b|a b c rest IH] using octets_ind;
    cbn [octets_to_sextets sextets_to_octets]; rewrite ?IH;
    repeat match goal with
           | |- context [N_of_ascii ?x] =>
               lazymatch goal with
               | _ : (N_of_ascii x < 256)%N |- _ => fail
               | _ => pose proof (N_ascii_bounded x)
               end
           end;
    repeat (f_equal; try (apply octet_back; divmod)).
Qed.

Lemma octets_to_sextets_small (buffer : list ascii) :
  Forall (fun s => (s < 64)%N) (octets_to_sextets buffer).
Proof.
  induction buffer as [|a|a b|a b c rest IH] using octets_ind;
    cbn [octets_to_sextets]; repeat constructor; trivial;
    repeat match goal with
           | |- context [N_of_ascii ?x] =>
               pose proof (N_ascii_bounded x); generalize dependent (N_of_ascii x);
               intros
           end; divmod.
Qed.

Lemma base64_char_read_all :
  forallb (fun n => match unbase64 (base64_char (N.of_nat n)) with
                    | Some m => (m =? N.of_nat n)%N
                    | None => false
                    end && negb (Ascii.eqb (base64_char (N.of_nat n)) "="))
    (seq 0 64) = true.
Proof. vm_compute. reflexivity. Qed.

Lemma base64_char_read (s : N) :
  (s < 64)%N ->
  unbase64 (base64_char s) = Some s /\ Ascii.eqb (base64_char s) "=" = false.
Proof.
  intros Hs. pose proof base64_char_read_all as H.
  rewrite forallb_forall in H.
  assert (Hin : In (N.to_nat s) (seq 0 64)) by (apply in_seq; lia).
  specialize (H (N.to_nat s) Hin). rewrite N2Nat.id in H.
  apply andb_prop in H as [H1 H2].
  apply negb_true_iff in H2. split; [|exact H2].
  destruct (unbase64 (base64_char s)) as [m|]; [|discriminate].
  apply N.eqb_eq in H1. now subst.
Qed.

Lemma base64_sextets_chars (sextets : list N) (pad : string) :
  Forall (fun s => (s < 64)%N) sextets ->
  base64_sextets pad = [] ->
  base64_sextets (string_of_list_ascii (List.map base64_char sextets) +:+ pad)
  = sextets.
Proof.
  intros Hs Hpad. induction Hs as [|s sextets Hs _ IH]; [exact Hpad|].
  cbn [List.map string_of_list_ascii]. rewrite append_cons. cbn [base64_sextets].
  destruct (base64_char_read s Hs) as [-> ->]. now rewrite IH.
Qed.

Lemma base64_decode_encode (buffer : list ascii) :
  base64_decode (base64_encode buffer) = buffer.
Proof.
  unfold base64_decode, base64_encode.
  rewrite base64_sextets_chars.
  - apply octets_sextets_octets.
  - apply octets_to_sextets_small.
  - unfold padding. destruct (length buffer mod 3)%nat as [|[|[|?]]]; reflexivity.
Qed.

Lemma ascii_decode_utf8 (text : string) :
  is_ascii_text text = true -> ascii_decode (utf8_encode text) = text.
Proof.
  unfold is_ascii_text, ascii_decode, utf8_encode.
  induction text as [|c text IH]; intros H; [reflexivity|].
  cbn [list_ascii_of_string forallb flat_map] in *.
  apply andb_prop in H as [Hc H]. unfold utf8_char at 1. rewrite Hc.
  cbn [app List.map string_of_list_ascii]. rewrite (IH H). f_equal.
  apply N.ltb_lt in Hc. rewrite N.mod_small by lia. apply ascii_N_embedding.
Qed.

Lemma base64Decode_Encode (text : string) :
  is_ascii_text text = true -> base64Decode (base64Encode text) = text.
Proof.
  intros H. unfold base64Decode, base64Encode.
  now rewrite base64_decode_encode, ascii_decode_utf8.
Qed.

(** Characters outside the alphabets do not count. *)
Lemma base64_sextets_foreign (text : string) :
  base64_sextets (without_foreign text) = base64_sextets text.
Proof.
  unfold without_foreign.
  induction text as [|c text IH]; [reflexivity|].
  cbn [list_ascii_of_string List.filter base64_sextets]. unfold foreign at 1.
  destruct (Ascii.eqb c "=") eqn:Heq.
  - cbn [negb andb string_of_list_ascii base64_sextets]. now rewrite Heq.
  - destruct (unbase64 c) as [s|] eqn:Hu;
      cbn [negb andb string_of_list_ascii base64_sextets].
    + now rewrite Heq, Hu, IH.
    + exact IH.
Qed.

Lemma base64_sextets_skip (junk text : string) :
  forallb foreign (list_ascii_of_string junk) = true ->
  base64_sextets (junk +:+ text) = base64_sextets text.
Proof.
  induction junk as [|c junk IH]; intros H; [reflexivity|].
  cbn [list_ascii_of_string forallb] in H. apply andb_prop in H as [Hc H].
  rewrite append_cons. cbn [base64_sextets].
  unfold foreign in Hc. apply andb_prop in Hc as [Heq Hu].
  apply negb_true_iff in Heq. rewrite Heq.
  destruct (unbase64 c); [discriminate | now apply IH].
Qed.

(** *** The properties of the codec *)

(** C4, as amended. Whatever [JSON.stringify] and [JSON.parse] are:
    [fromCursor] passes over the characters outside the base64 alphabets,
    so a string decodes like the string without them and no string is
    refused for its encoding; and for a token whose JSON text is ASCII and
    is read back by [JSON.parse], [fromCursor (toCursor token)] is the
    token, [toCursor] of what [fromCursor] gives for [toCursor token] is
    [toCursor token] again, and characters outside the alphabets put in
    front of the cursor do not change what it decodes to. *)
Theorem cursor_round_trip (token : Type) (JSON_stringify : token -> string)
    (JSON_parse : string -> option token) :
  (forall s, fromCursor token JSON_parse s
             = fromCursor token JSON_parse (without_foreign s))
  /\ (forall t,
         is_ascii_text (JSON_stringify t) = true ->
         JSON_parse (JSON_stringify t) = Some t ->
         fromCursor token JSON_parse (toCursor token JSON_stringify t) = Some t
         /\ (forall t', fromCursor token JSON_parse (toCursor token JSON_stringify t)
                        = Some t' ->
                        toCursor token JSON_stringify t'
                        = toCursor token JSON_stringify t)
         /\ (forall junk, forallb foreign (list_ascii_of_string junk) = true ->
                          fromCursor token JSON_parse
                            (junk +:+ toCursor token JSON_stringify t) = Some t)).
Proof.
  split.
  - intros s. unfold fromCursor, base64Decode, base64_decode.
    now rewrite base64_sextets_foreign.
  - intros t Hascii Hparse.
    assert (Hback : fromCursor token JSON_parse (toCursor token JSON_stringify t)
                    = Some t).
    { unfold fromCursor, toCursor. now rewrite base64Decode_Encode. }
    split; [exact Hback|]. split.
    + intros t' Ht'. rewrite Hback in Ht'. now inversion Ht'.
    + intros junk Hjunk.
      transitivity (fromCursor token JSON_parse (toCursor token JSON_stringify t));
        [|exact Hback].
      unfold fromCursor, base64Decode, base64_decode.
      now rewrite base64_sextets_skip.
Qed.

Lemma cursor_round_trip_witness :
  is_ascii_text (MiniJSON.stringify last_key) = true
  /\ MiniJSON.parse (MiniJSON.stringify last_key) = Some last_key
  /\ fromCursor MiniJSON.json MiniJSON.parse
       (toCursor MiniJSON.json MiniJSON.stringify last_key) = Some last_key.
Proof.
  split; [vm_compute; reflexivity|]. split; [vm_compute; reflexivity|].
  apply (proj2 (cursor_round_trip MiniJSON.json MiniJSON.stringify MiniJSON.parse)
           last_key); vm_compute; reflexivity.
Defined.

(** C4 as stated fails twice. A string that is no base64 text is decoded
    without an error; and a token that holds a character above U+007F does
    not come back. *)
Lemma cursor_round_trip_counterexample :
  fromCursor MiniJSON.json MiniJSON.parse "*M*Q*" = Some (MiniJSON.JNumber 1)
  /\ fromCursor MiniJSON.json MiniJSON.parse
       ("%%" +:+ toCursor MiniJSON.json MiniJSON.stringify last_key) = Some last_key
  /\ toCursor MiniJSON.json MiniJSON.stringify (MiniJSON.JString e_acute) = "IsOpIg=="
  /\ fromCursor MiniJSON.json MiniJSON.parse
       (toCursor MiniJSON.json MiniJSON.stringify (MiniJSON.JString e_acute))
     = Some (MiniJSON.JString "C)")
  /\ MiniJSON.JString "C)" <> MiniJSON.JString e_acute.
Proof. vm_compute. repeat split; try reflexivity. discriminate. Qed.

(** ** The partitioner *)

(** SHA-1 on the test vectors of FIPS 180. *)
Example sha1_empty : hash "" = "da39a3ee5e6b4b0d3255bfef95601890afd80709".
Proof. vm_compute. reflexivity. Qed.

Example sha1_abc : hash "abc" = "a9993e364706816aba3e25717850c26c9cd0d89d".
Proof. vm_compute. reflexivity. Qed.

Example sha1_two_blocks :
  hash "abcdbcdecdefdefgefghfghighijhijkijkljklmklmnlmnomnopnopq"
  = "84983e441c3bd26ebaae4aa1f95129e5e54670f1".
Proof. vm_compute. reflexivity. Qed.

Example partition_abc : partition "abc" 1000 = Some 553%Z.
Proof. vm_compute. reflexivity. Qed.

(** *** The integer operators *)

Section PartitionFacts.

Local Open Scope Z_scope.

Lemma ToInt32_mod (x : Z) : ToInt32 x mod 2^32 = x mod 2^32.
Proof. unfold ToInt32. divmod. Qed.

Lemma ToInt32_small (x : Z) : 0 <= x < 2^31 -> ToInt32 x = x.
Proof. unfold ToInt32. intros H. divmod. Qed.

Lemma lor_mod_2_32 (x y : Z) :
  Z.lor x y mod 2^32 = Z.lor (x mod 2^32) (y mod 2^32).
Proof.
  rewrite <- !(Z.land_ones _ 32) by lia. apply Z.land_lor_distr_l.
Qed.

Lemma bor_mod (x y : Z) :
  bor x y mod 2^32 = Z.lor (x mod 2^32) (y mod 2^32).
Proof. unfold bor. now rewrite ToInt32_mod, lor_mod_2_32, !ToInt32_mod. Qed.

Lemma lor_disjoint (hi lo k : Z) :
  0 <= k -> 0 <= lo < 2^k -> Z.lor (hi * 2^k) lo = hi * 2^k + lo.
Proof.
  intros Hk Hlo.
  assert (Hland : Z.land (hi * 2^k) lo = 0).
  { apply Z.bits_inj'. intros n Hn. rewrite Z.land_spec, Z.bits_0.
    destruct (Z.lt_ge_cases n k) as [Hlt|Hge].
    - now rewrite Z.mul_pow2_bits_low.
    - rewrite <- (Z.mod_small lo (2^k)) by lia.
      rewrite Z.mod_pow2_bits_high by lia. apply andb_false_r. }
  pose proof (Z.add_lor_land (hi * 2^k) lo). lia.
Qed.

Lemma shl_octet (a k : Z) :
  0 <= a < 256 -> 0 <= k < 32 -> shl a k mod 2^32 = (a * 2^k) mod 2^32.
Proof.
  intros Ha Hk. unfold shl.
  rewrite ToInt32_mod, (ToInt32_small a), (Z.mod_small k 32), Z.shiftl_mul_pow2 by lia.
  reflexivity.
Qed.

Lemma hashValueHash_octets (a b c d : Z) :
  0 <= a < 256 -> 0 <= b < 256 -> 0 <= c < 256 -> 0 <= d < 256 ->
  hashValueHash a b c d = a * 2^24 + b * 2^16 + c * 2^8 + d.
Proof.
  intros Ha Hb Hc Hd. unfold hashValueHash, ushr0.
  rewrite ToInt32_mod, !bor_mod, !shl_octet by lia.
  rewrite !Z.mod_small by lia.
  rewrite (lor_disjoint a (b * 2^16) 24) by lia.
  replace (a * 2^24 + b * 2^16) with ((a * 2^8 + b) * 2^16) by lia.
  rewrite (lor_disjoint _ (c * 2^8) 16) by lia.
  replace ((a * 2^8 + b) * 2^16 + c * 2^8) with ((a * 2^16 + b * 2^8 + c) * 2^8) by lia.
  rewrite (lor_disjoint _ d 8) by lia.
  lia.
Qed.

Lemma digest_codes (key : string) (i : nat) : 0 <= nth i (digest key) 0 < 256.
Proof.
  unfold digest. generalize (list_ascii_of_string (hash key)). intros l.
  revert i. induction l as [|c l IH]; intros [|i]; simpl; try lia; [|apply IH].
  pose proof (N_ascii_bounded c). lia.
Qed.

Lemma length_string_of_list (l : list ascii) :
  String.length (string_of_list_ascii l) = length l.
Proof. induction l as [|c l IH]; simpl; [reflexivity | now rewrite IH]. Qed.

Lemma length_list_of_string (s : string) :
  length (list_ascii_of_string s) = String.length s.
Proof. induction s as [|c s IH]; simpl; [reflexivity | now rewrite IH]. Qed.

Lemma hash_length (key : string) : String.length (hash key) = 40%nat.
Proof.
  unfold hash, SHA1.hex, SHA1.digest, SHA1.digest_words.
  destruct (fold_left _ _ _) as [[[[h0 h1] h2] h3] h4].
  rewrite length_string_of_list. reflexivity.
Qed.

End PartitionFacts.

(** *** The properties of [partition] *)

(** C9, as amended. For every key and every positive integer
    [partitions], [partition] returns an integer of [[0, partitions)]: the
    remainder modulo [partitions] of an unsigned 32-bit integer made of
    the character codes of the first four hexadecimal digits of the key's
    SHA-1 digest (forty digits), the fourth digit's code most significant
    and the first digit's least. The result depends on the key and the
    count alone. *)
Theorem partition_bucket (key : string) (partitions : Z) :
  (0 < partitions)%Z ->
  let x := digest key in
  let combined := (nth 3 x 0 * 2^24 + nth 2 x 0 * 2^16 + nth 1 x 0 * 2^8 + nth 0 x 0)%Z in
  String.length (hash key) = 40%nat
  /\ length x = 40%nat
  /\ hashValue key = combined
  /\ (0 <= combined < 2^32)%Z
  /\ partition key partitions = Some (combined mod partitions)%Z
  /\ (0 <= combined mod partitions < partitions)%Z.
Proof.
  intros Hpos x combined.
  pose proof (digest_codes key 0) as H0. pose proof (digest_codes key 1) as H1.
  pose proof (digest_codes key 2) as H2. pose proof (digest_codes key 3) as H3.
  fold x in H0, H1, H2, H3.
  assert (Hvalue : hashValue key = combined)
    by (unfold hashValue; fold x; now apply hashValueHash_octets).
  assert (Hrange : (0 <= combined < 2^32)%Z) by (unfold combined; lia).
  split; [apply hash_length|].
  split; [unfold x, digest; rewrite length_map, length_list_of_string;
          apply hash_length|].
  split; [exact Hvalue|]. split; [exact Hrange|].
  split; [|apply Z.mod_pos_bound; lia].
  unfold partition. destruct (Z.eqb_spec partitions 0) as [->|_]; [lia|].
  rewrite Hvalue, Z.rem_mod_nonneg by lia. reflexivity.
Qed.

Lemma partition_bucket_witness :
  partition "abc" 1000 = Some 553%Z.
Proof.
  destruct (partition_bucket "abc" 1000 ltac:(lia)) as (_ & _ & _ & _ & H & _).
  rewrite H. vm_compute. reflexivity.
Defined.

(** C9 as stated fails: for the key [abc] the integer reduced is
    [0x39393961], made of the codes of the digits [a999] that begin the
    hexadecimal digest; the big-endian combination of the first four
    octets of the digest is [0xa9993e36], which gives another bucket of
    1000, and no four octets of the digest combine big-endian into the
    integer the code reduces. *)
Lemma partition_bucket_counterexample :
  hash "abc" = "a9993e364706816aba3e25717850c26c9cd0d89d"
  /\ hashValue "abc" = 960051553%Z
  /\ partition "abc" 1000 = Some 553%Z
  /\ (let d := digest_octets "abc" in
      big_endian (nth 0 d 0) (nth 1 d 0) (nth 2 d 0) (nth 3 d 0) = 2845392438
      /\ 2845392438 mod 1000 = 438)%Z
  /\ no_big_endian_choice (digest_octets "abc") (hashValue "abc") = true.
Proof. vm_compute. repeat split; reflexivity. Qed.

(** ** [DynamoCollection.add] and [remove] *)

Lemma included_rejects (p : pattern) (data : gmap string value) :
  rejects p data = negb (included p data).
Proof. unfold rejects, included. now destruct (when p). Qed.

Lemma collect_acc (turn : pattern -> error + list op) (keys : list pattern) :
  forall ops,
    collect turn keys ops
    = match collect turn keys [] with
      | inl e => inl e
      | inr pushed => inr (ops ++ pushed)
      end.
Proof.
  induction keys as [|p keys IH]; intros ops; simpl.
  - now rewrite app_nil_r.
  - destruct (turn p) as [e|pushed]; [reflexivity|].
    rewrite (IH (ops ++ pushed)), (IH pushed).
    destruct (collect turn keys []); [reflexivity|]. now rewrite app_assoc.
Qed.

(** The loop of [add] and [remove] visits the patterns in order, and
    resolves the keys of those the entity is included in only. *)
Lemma collect_included (make : pattern -> item_key -> op)
    (data : gmap string value) (keys : list pattern) :
  (forall p, In p keys -> included p data = true -> pattern_resolves p data = true) ->
  exists pushed,
    collect (fun p => if rejects p data then inr []
                      else match resolve_keys p data with
                           | inl e => inl e
                           | inr k => inr [make p k]
                           end) keys [] = inr pushed
    /\ Forall2 (fun p o => exists k, resolve_keys p data = inr k /\ o = make p k)
         (List.filter (fun p => included p data) keys) pushed.
Proof.
  induction keys as [|p keys IH]; intros Hc; simpl.
  - exists []. split; [reflexivity | constructor].
  - destruct IH as (pushed & Hrest & Hall); [intros q Hq; apply Hc; simpl; auto|].
    rewrite included_rejects. destruct (included p data) eqn:Hin; simpl.
    + destruct (resolve_keys_total p data) as [k Hk]; [apply Hc; simpl; auto|].
      rewrite Hk, collect_acc, Hrest. exists (make p k :: pushed).
      split; [reflexivity|]. constructor; eauto.
    + rewrite Hrest. eauto.
Qed.

Lemma key_object_pk (k : item_key) : key_object k !! "pk" = Some (VStr (key_pk k)).
Proof. unfold key_object. now rewrite lookup_insert_eq. Qed.

Lemma key_object_sk (k : item_key) : key_object k !! "sk" = Some (VStr (key_sk k)).
Proof.
  unfold key_object. rewrite lookup_insert_ne by discriminate.
  now rewrite lookup_insert_eq.
Qed.

Lemma assign_lookup_ne {A : Type} (obj : gmap string A) (g f : string) (v : A) :
  f <> g -> assign obj g v !! f = obj !! f.
Proof.
  intros Hne. unfold assign. destruct (String.eqb g "__proto__"); [reflexivity|].
  now rewrite lookup_insert_ne by congruence.
Qed.

Lemma add_item_lookup (p : pattern) (data : gmap string value) (k : item_key)
    (fs : list string) (f : string) :
  fields p = Some fs ->
  add_item p data k !! f
  = if bool_decide (f ∈ fs) && negb (String.eqb f "__proto__")
    then Some (getProp data f)
    else key_object k !! f.
Proof.
  intros Hfs. unfold add_item. rewrite Hfs. clear Hfs.
  generalize (key_object k). induction fs as [|g fs IH]; intros item; simpl.
  - reflexivity.
  - rewrite IH. destruct (decide (f = g)) as [->|Hne].
    + rewrite (bool_decide_eq_true_2 (g ∈ g :: fs)) by left.
      destruct (String.eqb_spec g "__proto__") as [->|Hproto]; simpl.
      * now rewrite andb_false_r.
      * rewrite andb_true_r. destruct (bool_decide (g ∈ fs)); [reflexivity|].
        rewrite assign_insert by exact Hproto. now rewrite lookup_insert_eq.
    + rewrite assign_lookup_ne by exact Hne.
      destruct (decide (f ∈ fs)) as [Hin|Hout].
      * rewrite (bool_decide_eq_true_2 (f ∈ fs)), (bool_decide_eq_true_2 (f ∈ g :: fs));
          trivial. now right.
      * rewrite (bool_decide_eq_false_2 (f ∈ fs)), (bool_decide_eq_false_2 (f ∈ g :: fs));
          trivial. intros [-> | H]%elem_of_cons; congruence.
Qed.

(** X1. When the keys of every pattern that accepts the entity resolve,
    [add] pushes one put for each pattern whose predicate, if any,
    accepts the entity, in the order of the patterns, and none for the
    others, whose keys it does not resolve. With a field list the item
    holds each listed field with what reading it from the entity gives:
    the entity's value, or else the member of [Object.prototype] of that
    name, or else [undefined] (a listed field named [pk] or [sk] hides
    the resolved key; a listed [__proto__] is not stored, being no
    field); besides, the item holds the two resolved keys only: a field
    that is not listed is not stored. Without a field list the item is
    the entity with the resolved keys written over it. *)
Theorem add_puts_projected_items (keys : list pattern) (data : gmap string value)
    (extraOps : option (list op)) :
  (forall p, In p keys -> included p data = true -> pattern_resolves p data = true) ->
  exists puts,
    add keys data extraOps = finish (inr puts) extraOps
    /\ Forall2
         (fun p o =>
            exists k item,
              resolve_keys p data = inr k /\ o = Put None item
              /\ match fields p with
                 | Some fs =>
                     forall f, item !! f
                               = if bool_decide (f ∈ fs) && negb (String.eqb f "__proto__")
                                 then Some (getProp data f)
                                 else key_object k !! f
                 | None => item = key_object k ∪ data
                 end)
         (List.filter (fun p => included p data) keys) puts.
Proof.
  intros Hc.
  destruct (collect_included (fun p k => Put None (add_item p data k)) data keys Hc)
    as (puts & Hputs & Hall).
  exists puts. split.
  - unfold add, add_pattern. now rewrite Hputs.
  - eapply Forall2_impl; [exact Hall|]. intros p o (k & Hk & ->).
    exists k, (add_item p data k). repeat split; trivial.
    destruct (fields p) as [fs|] eqn:Hfs.
    + intros f. now apply add_item_lookup.
    + unfold add_item. now rewrite Hfs.
Qed.

(** A listed field named like a member of [Object.prototype] that the
    entity lacks is stored as that member. *)
Example add_inherited_field :
  add [constructor_pattern] {[ "id" := VStr "1" ]} None
  = Submitted [Put None (<["pk" := VStr "user#1"]> (<["sk" := VStr "profile"]>
                 {[ "constructor" := VMember MConstructor ]}))].
Proof. vm_compute. reflexivity. Qed.

(** A placeholder that reads a builtin which throws makes [add] throw. *)
Example add_throwing_placeholder :
  add [Pattern "user#{valueOf}" "profile" None None] {[ "id" := VStr "1" ]} None
  = Threw (TypeError MValueOf).
Proof. vm_compute. reflexivity. Qed.

Lemma add_puts_projected_items_witness :
  add [profile_pattern; active_pattern] ann None
  = Submitted [Put None (<["pk" := VStr "user#42"]> (<["sk" := VStr "profile"]>
                 (<["name" := VStr "Ann"]> {[ "email" := VStr "a@x.com" ]})))]
  /\ exists puts,
       add [profile_pattern; active_pattern] ann None = finish (inr puts) None
       /\ length puts = 1%nat.
Proof.
  split; [vm_compute; reflexivity|].
  destruct (add_puts_projected_items [profile_pattern; active_pattern] ann None)
    as (puts & Hadd & Hall).
  - intros p [<-|[<-|[]]] _; reflexivity.
  - exists puts. split; [exact Hadd|].
    apply Forall2_length in Hall. now rewrite <- Hall.
Defined.

(** X2. When no pattern accepts the entity, [add] and [remove] resolve no
    key and, without extra operations, return early: nothing reaches
    [transactWrite], whatever the key templates are. *)
Theorem add_remove_skip_rejected (keys : list pattern) (data : gmap string value) :
  (forall p, In p keys -> included p data = false) ->
  add keys data None = Skipped /\ remove keys data None = Skipped
  /\ add keys data (Some []) = Skipped /\ remove keys data (Some []) = Skipped.
Proof.
  intros Hout.
  assert (H : forall turn,
             (forall p, In p keys -> turn p = inr []) ->
             collect turn keys [] = inr []).
  { intros turn Hturn. induction keys as [|p keys IH]; [reflexivity|].
    simpl. rewrite Hturn by (simpl; auto). simpl.
    apply IH; intros q Hq; [apply Hout | apply Hturn]; simpl; auto. }
  unfold add, remove.
  rewrite (H (add_pattern data)), (H (remove_pattern data)); [now repeat split|..];
    intros p Hp; unfold add_pattern, remove_pattern;
    now rewrite included_rejects, (Hout p Hp).
Qed.

Lemma add_remove_skip_rejected_witness :
  add [active_pattern] ann None = Skipped
  /\ remove [active_pattern] ann None = Skipped.
Proof.
  destruct (add_remove_skip_rejected [active_pattern] ann) as (Ha & Hr & _).
  - intros p [<-|[]]. vm_compute. reflexivity.
  - now split.
Defined.

Lemma collect_add_remove (data : gmap string value) (keys : list pattern) :
  match collect (add_pattern data) keys [], collect (remove_pattern data) keys [] with
  | inl e, inl e' => e = e'
  | inr puts, inr dels =>
      Forall2 (fun put del =>
                 exists p k, In p keys /\ put = Put None (add_item p data k)
                             /\ del = Delete None k) puts dels
  | _, _ => False
  end.
Proof.
  induction keys as [|p keys IH]; simpl; [constructor|].
  assert (Ha : add_pattern data p
               = if rejects p data then inr []
                 else match resolve_keys p data with
                      | inl e => inl e
                      | inr k => inr [Put None (add_item p data k)]
                      end) by reflexivity.
  assert (Hr : remove_pattern data p
               = if rejects p data then inr []
                 else match resolve_keys p data with
                      | inl e => inl e
                      | inr k => inr [Delete None k]
                      end) by reflexivity.
  rewrite Ha, Hr. clear Ha Hr.
  destruct (rejects p data).
  - destruct (collect (add_pattern data) keys []), (collect (remove_pattern data) keys []);
      trivial.
    eapply Forall2_impl; [exact IH|]. intros put del (q & k & Hq & -> & ->).
    exists q, k. auto.
  - destruct (resolve_keys p data) as [e|k]; [reflexivity|].
    rewrite (collect_acc (add_pattern data)), (collect_acc (remove_pattern data)).
    destruct (collect (add_pattern data) keys []), (collect (remove_pattern data) keys []);
      trivial.
    simpl. constructor; [exists p, k; auto|].
    eapply Forall2_impl; [exact IH|]. intros put del (q & k' & Hq & -> & ->).
    exists q, k'. auto.
Qed.

(** X3. [remove] mirrors [add]: called on the same entity, the two throw
    the same exception, or both return early, or [remove] submits one
    delete for each put that [add] submits, in the same order and, when
    no field list names [pk] or [sk], at the very keys the put item
    carries. *)
Theorem remove_deletes_what_add_puts (keys : list pattern) (data : gmap string value) :
  (forall p fs, In p keys -> fields p = Some fs -> ~ In "pk" fs /\ ~ In "sk" fs) ->
  match add keys data None, remove keys data None with
  | Threw e, Threw e' => e = e'
  | Skipped, Skipped => True
  | Submitted puts, Submitted dels =>
      Forall2 (fun put del =>
                 exists item k,
                   put = Put None item /\ del = Delete None k
                   /\ item !! "pk" = Some (VStr (key_pk k))
                   /\ item !! "sk" = Some (VStr (key_sk k))) puts dels
  | _, _ => False
  end.
Proof.
  intros Hfs. unfold add, remove, finish.
  pose proof (collect_add_remove data keys) as H.
  destruct (collect (add_pattern data) keys []) as [e|puts],
           (collect (remove_pattern data) keys []) as [e'|dels];
    trivial; try contradiction.
  simpl. pose proof (Forall2_length _ _ _ H) as Hlen. rewrite <- Hlen.
  destruct (length puts =? 0)%nat; [exact I|].
  eapply Forall2_impl; [exact H|]. intros put del (p & k & Hp & -> & ->).
  exists (add_item p data k), k. repeat split.
  - destruct (fields p) as [fs|] eqn:Hf.
    + rewrite (add_item_lookup p data k fs) by exact Hf.
      rewrite bool_decide_eq_false_2; [apply key_object_pk|].
      rewrite list_elem_of_In. now apply (Hfs p fs).
    + unfold add_item, spread. rewrite Hf.
      apply lookup_union_Some_l, key_object_pk.
  - destruct (fields p) as [fs|] eqn:Hf.
    + rewrite (add_item_lookup p data k fs) by exact Hf.
      rewrite bool_decide_eq_false_2; [apply key_object_sk|].
      rewrite list_elem_of_In. now apply (Hfs p fs).
    + unfold add_item, spread. rewrite Hf.
      apply lookup_union_Some_l, key_object_sk.
Qed.

Lemma remove_deletes_what_add_puts_witness :
  add [profile_pattern; active_pattern] bob None
  = Submitted [Put None (<["pk" := VStr "user#7"]> (<["sk" := VStr "profile"]>
                 (<["name" := VStr "Bob"]> {[ "email" := VUndefined ]})));
               Put None (<["pk" := VStr "active"]> (<["sk" := VStr "user#7"]> bob))]
  /\ remove [profile_pattern; active_pattern] bob None
     = Submitted [Delete None (ItemKey "user#7" "profile");
                  Delete None (ItemKey "active" "user#7")]
  /\ match add [profile_pattern; active_pattern] bob None,
           remove [profile_pattern; active_pattern] bob None with
     | Submitted puts, Submitted dels => length puts = length dels
     | _, _ => True
     end.
Proof.
  split; [vm_compute; reflexivity|]. split; [vm_compute; reflexivity|].
  pose proof (remove_deletes_what_add_puts [profile_pattern; active_pattern] bob) as H.
  destruct (add [profile_pattern; active_pattern] bob None),
           (remove [profile_pattern; active_pattern] bob None); trivial.
  eapply Forall2_length, H.
  intros p fs [<-|[<-|[]]] [= <-]; simpl; intuition discriminate.
Defined.

(** ** The in-place branch of [update] *)

(** What the loop over [fields] leaves in [currChanges], for fields named
    like no member of [Object.prototype]. *)
Lemma pull_fields_changes_acc (data changes : gmap string value) (fs : list string) :
  forallb plain_name fs = true ->
  forall prev curr cc f,
    (fold_left (pull_field data changes) fs (prev, curr, cc)).2 !! f
    = if bool_decide (f ∈ fs)
      then match changes !! f with
           | Some v => if is_undefined v then cc !! f else Some v
           | None => cc !! f
           end
      else cc !! f.
Proof.
  induction fs as [|g fs IH]; intros Hplain prev curr cc f; [reflexivity|].
  simpl in Hplain. apply andb_prop in Hplain as [Hgplain Hplain].
  change (fold_left (pull_field data changes) (g :: fs) (prev, curr, cc))
    with (fold_left (pull_field data changes) fs
            (pull_field data changes (prev, curr, cc) g)).
  destruct (pull_field data changes (prev, curr, cc) g) as [[prev' curr'] cc'] eqn:Hpf.
  rewrite (IH Hplain). unfold pull_field in Hpf.
  rewrite !(assign_plain _ _ _ Hgplain) in Hpf.
  pose proof (getProp_plain changes g Hgplain) as Hg.
  assert (Hcc : cc' !! f
                = if decide (f = g)
                  then match changes !! f with
                       | Some v => if is_undefined v then cc !! f else Some v
                       | None => cc !! f
                       end
                  else cc !! f).
  { destruct (is_undefined (getProp changes g)) eqn:Hu; simpl in Hpf;
      injection Hpf as <- <- <-; destruct (decide (f = g)) as [->|Hne]; trivial.
    - rewrite Hg in Hu. destruct (changes !! g) as [v|]; [|reflexivity].
      simpl in Hu. now rewrite Hu.
    - rewrite lookup_insert_eq. rewrite Hg in Hu |- *.
      destruct (changes !! g) as [v|]; [|discriminate]. simpl in Hu |- *.
      now rewrite Hu.
    - now rewrite lookup_insert_ne by congruence. }
  rewrite Hcc. clear Hcc Hpf.
  destruct (decide (f = g)) as [->|Hne].
  - rewrite (bool_decide_eq_true_2 (g ∈ g :: fs)) by left.
    destruct (bool_decide (g ∈ fs)); [|reflexivity].
    destruct (changes !! g) as [v|]; [|reflexivity]. now destruct (is_undefined v).
  - destruct (decide (f ∈ fs)) as [Hin|Hout].
    + rewrite (bool_decide_eq_true_2 (f ∈ fs)), (bool_decide_eq_true_2 (f ∈ g :: fs));
        trivial. now right.
    + rewrite (bool_decide_eq_false_2 (f ∈ fs)), (bool_decide_eq_false_2 (f ∈ g :: fs));
        trivial. intros [-> | H]%elem_of_cons; congruence.
Qed.

Lemma pull_fields_changes (data changes : gmap string value) (fs : list string) :
  forallb plain_name fs = true ->
  (pull_fields fs data changes).2
  = filter (fun kv => kv.1 ∈ fs /\ kv.2 <> VUndefined) changes.
Proof.
  intros Hplain.
  apply map_eq. intros f. unfold pull_fields. rewrite pull_fields_changes_acc by exact Hplain.
  rewrite lookup_empty. apply option_eq. intros v.
  rewrite map_lookup_filter_Some. simpl.
  destruct (decide (f ∈ fs)) as [Hin|Hout].
  - rewrite bool_decide_eq_true_2 by exact Hin.
    destruct (changes !! f) as [w|]; [|split; [discriminate | intros [[=] _]]].
    destruct w; simpl; split; try discriminate; try (intros [[= <-] [_ H]]; congruence);
      intros [= <-]; repeat split; trivial; discriminate.
  - rewrite bool_decide_eq_false_2 by exact Hout.
    split; [discriminate | tauto].
Qed.

Lemma update_ends (keys : list pattern) (data changes c : gmap string value)
    (extraOps : option (list op)) (ops : list op) :
  update_loop data (remove_unchanged data changes) keys [] = (c, inr ops) ->
  update keys data changes extraOps
  = (c, if Nat.eqb (length (ops ++ default [] extraOps)) 0 then Skipped
        else Submitted (ops ++ default [] extraOps)).
Proof.
  intros Hloop. unfold update. rewrite Hloop.
  destruct extraOps as [extra|]; simpl.
  - now destruct (length (ops ++ extra) =? 0)%nat.
  - rewrite app_nil_r. now destruct (length ops =? 0)%nat.
Qed.

Lemma strip_keys_empty : strip_keys ∅ = ∅.
Proof. unfold strip_keys. now rewrite !delete_empty. Qed.

Lemma remove_unchanged_strip_keys (data changes : gmap string value) :
  remove_unchanged data (strip_keys changes) = strip_keys (remove_unchanged data changes).
Proof.
  apply map_eq. intros f. apply option_eq. intros v.
  rewrite remove_unchanged_lookup, !strip_keys_lookup.
  destruct (is_key_field f); [split; [intros [[=] _] | discriminate]|].
  now rewrite remove_unchanged_lookup.
Qed.

(** X4. Let [merged] be the entity merged with the caller's change set.
    Take a pattern of the collection whose predicate, when it has one,
    accepts [merged], and whose keys resolve to the same pair on the
    entity and on [merged]. The pattern contributes no delete and no
    put. With a field list it contributes nothing when the object of the
    listed fields that the change set gives a new, defined value is
    empty (for [lodash.isempty]), and otherwise one update at those keys
    that assigns exactly those fields, [pk] and [sk] left out; without a
    field list it does the same with all the fields that the change set
    gives a new value, and the patterns after it work with the change
    set without [pk] and [sk]. This holds whether or not the predicate
    accepted the entity before the change, provided that the change set
    defines no field that the entity lacks with the value the entity
    reads for it, that every pattern before this one has a field list or
    the change set has neither [pk] nor [sk], and that the pattern's
    listed fields are named like no member of [Object.prototype]. *)
Theorem update_in_place
    (before after : list pattern) (p : pattern) (data changes : gmap string value)
    (extraOps : option (list op)) (ops_before ops_after : list op) (k : item_key) :
  let merged := spread data changes in
  let seen := visible_changes p (remove_unchanged data changes) in
  let pushed := if isEmpty seen then [] else [Update None k (strip_keys seen)] in
  let left := match fields p with
              | Some _ => changes
              | None => if isEmpty seen then changes else strip_keys changes
              end in
  no_dangling data changes = true ->
  change_set_kept before changes = true ->
  plain_fields p = true ->
  included p merged = true ->
  resolve_keys p data = inr k ->
  resolve_keys p merged = inr k ->
  emitted before data changes = inr ops_before ->
  emitted after data left = inr ops_after ->
  (update (before ++ p :: after) data changes extraOps).2
  = (let ops := ops_before ++ pushed ++ ops_after ++ default [] extraOps in
     if Nat.eqb (length ops) 0 then Skipped else Submitted ops).
Proof.
  intros merged seen pushed left Hdangling Hkept Hplain Hinc Hprev Hcurr Hbefore Hafter.
  pose proof (spread_remove_unchanged data changes Hdangling) as Hmerged.
  pose proof (emitted_loop before data changes ops_before Hkept Hbefore) as Hb.
  set (c := remove_unchanged data changes) in *.
  set (c' := match fields p with
             | Some _ => c
             | None => if isEmpty seen then c else strip_keys c
             end).
  assert (Hleft : remove_unchanged data left = c').
  { subst left c'. destruct (fields p); [reflexivity|].
    destruct (isEmpty seen); [reflexivity | apply remove_unchanged_strip_keys]. }
  assert (Hp : update_pattern data c p = (c', inr pushed)).
  { unfold update_pattern. rewrite Hmerged. fold merged. unfold included in Hinc.
    assert (Hcc : (match fields p with
                   | Some fs => pull_fields fs data c
                   | None => (data, merged, c)
                   end).2 = seen).
    { subst seen. unfold visible_changes, plain_fields in *.
      destruct (fields p) as [fs|]; [now apply pull_fields_changes | reflexivity]. }
    destruct (match fields p with
              | Some fs => pull_fields fs data c
              | None => (data, merged, c)
              end) as [[prev curr] cc]. simpl in Hcc. subst cc.
    assert (Hend : (if key_changed k k
                    then (c, @inr error (list op)
                               [Delete None k; Put None (spread curr (key_object k))])
                    else if negb (isEmpty seen)
                         then (match fields p with
                               | Some _ => c
                               | None => strip_keys seen
                               end, inr [Update None k (strip_keys seen)])
                         else (c, inr []))
                   = (c', inr pushed)).
    { rewrite key_changed_refl. subst pushed c'.
      destruct (isEmpty seen) eqn:He; simpl; [now destruct (fields p)|].
      subst seen. unfold visible_changes. now destruct (fields p). }
    destruct (when p) as [w|]; rewrite ?Hinc, ?andb_false_r; simpl;
      rewrite Hprev, Hcurr; exact Hend. }
  unfold emitted in Hafter. rewrite Hleft in Hafter.
  destruct (update_loop data c' after []) as [c2 r] eqn:Ha. simpl in Hafter. subst r.
  cbv zeta.
  replace (ops_before ++ pushed ++ ops_after ++ default [] extraOps)
    with ((ops_before ++ pushed ++ ops_after) ++ default [] extraOps)
    by (now rewrite <- !app_assoc).
  rewrite (update_ends (before ++ p :: after) data changes c2 extraOps
             (ops_before ++ pushed ++ ops_after)); [reflexivity|].
  exact (update_loop_around data before after p _ _ _ _ _ _ _ Hb Hp Ha).
Qed.

Lemma update_in_place_witness :
  (update [profile_pattern] ann
     (<["email" := VStr "b@x.com"]> {[ "age" := VNum (SafeInteger 31 I) ]}) None).2
  = Submitted [Update None (ItemKey "user#42" "profile") {[ "email" := VStr "b@x.com" ]}]
  /\ (update [profile_pattern] ann {[ "age" := VNum (SafeInteger 31 I) ]} None).2
     = Skipped.
Proof.
  split.
  - assert (H := update_in_place [] [] profile_pattern ann
                   (<["email" := VStr "b@x.com"]> {[ "age" := VNum (SafeInteger 31 I) ]})
                   None [] [] (ItemKey "user#42" "profile")).
    cbv zeta in H. etrans; [apply H; vm_compute; reflexivity | vm_compute; reflexivity].
  - assert (H := update_in_place [] [] profile_pattern ann
                   {[ "age" := VNum (SafeInteger 31 I) ]} None [] []
                   (ItemKey "user#42" "profile")).
    cbv zeta in H. etrans; [apply H; vm_compute; reflexivity | vm_compute; reflexivity].
Defined.

(** One turn of the loop pushes at most two operations. *)
Lemma update_pattern_pushes (data changes : gmap string value) (p : pattern)
    (c : gmap string value) (pushed : list op) :
  update_pattern data changes p = (c, inr pushed) -> (length pushed <= 2)%nat.
Proof.
  unfold update_pattern, Collection.bind.
  destruct (match fields p with
            | Some fs => pull_fields fs data changes
            | None => (data, spread data changes, changes)
            end) as [[prev curr] cc].
  repeat match goal with
         | |- context [if ?b then _ else _] => destruct b
         | |- context [match ?x with inl _ => _ | inr _ => _ end] => destruct x
         end; simpl; try discriminate; intros [= <- <-]; simpl; lia.
Qed.

Lemma update_loop_pushes (data : gmap string value) (keys : list pattern) :
  forall changes c ops,
    update_loop data changes keys [] = (c, inr ops) ->
    (length ops <= 2 * length keys)%nat.
Proof.
  induction keys as [|p keys IH]; intros changes c ops; simpl.
  - intros [= <- <-]. simpl. lia.
  - destruct (update_pattern data changes p) as [c' [e|pushed]] eqn:Hp; [discriminate|].
    rewrite update_loop_acc.
    destruct (update_loop data c' keys []) as [c'' [e|more]] eqn:Hl; simpl;
      [discriminate|].
    intros [= <- <-]. rewrite length_app.
    apply update_pattern_pushes in Hp. apply IH in Hl. lia.
Qed.

(** X5. The batch [update] submits holds at most two operations for each
    pattern, besides the extra operations. When this bound is within the
    ceiling of the store, [transactWrite] sends the batch whole: every
    client call it makes, between one and twenty, carries all the
    operations, so the batch is written as one transaction. *)
Theorem update_batch_is_one_transaction (this : DynamoDB) (fuel : nat)
    (keys : list pattern) (data changes c : gmap string value)
    (extraOps : option (list op)) (ops : list op) :
  update keys data changes extraOps = (c, Submitted ops) ->
  (2 * length keys + length (default [] extraOps) <= transactLimit this)%nat ->
  (22 <= fuel)%nat ->
  (length ops <= 2 * length keys + length (default [] extraOps))%nat
  /\ exists n s,
       (1 <= n <= 20)%nat
       /\ transactWrite this fuel ops
          = Some (Run (replicate n (TransactItems this ops)) s).
Proof.
  intros Hu Hlimit Hfuel.
  assert (Hlen : (length ops <= 2 * length keys + length (default [] extraOps))%nat).
  { revert Hu. unfold update.
    destruct (update_loop data (remove_unchanged data changes) keys [])
      as [c' [e|pushed]] eqn:Hl; [discriminate|].
    apply update_loop_pushes in Hl.
    destruct extraOps as [extra|]; simpl;
      match goal with |- context [if ?b then _ else _] => destruct b end;
      try discriminate; intros [= <- <-]; rewrite ?length_app; lia. }
  split; [exact Hlen|].
  destruct (transactWrite_single_run this fuel ops) as (n & s & Hrun & Hn & _);
    [lia | exact Hfuel|].
  exists n, s. split; [exact Hn | exact Hrun].
Qed.

Lemma update_batch_is_one_transaction_witness :
  exists n s,
    (1 <= n <= 20)%nat
    /\ transactWrite (conflicting_store 3 25) 22
         [Delete None (ItemKey "user#42" "profile");
          Put None (<["pk" := VStr "user#43"]> (<["sk" := VStr "profile"]>
             (<["name" := VStr "Ann"]> {[ "email" := VStr "a@x.com" ]})))]
       = Some (Run (replicate n
            (TransactItems (conflicting_store 3 25)
               [Delete None (ItemKey "user#42" "profile");
                Put None (<["pk" := VStr "user#43"]> (<["sk" := VStr "profile"]>
                   (<["name" := VStr "Ann"]> {[ "email" := VStr "a@x.com" ]})))])) s).
Proof.
  refine (proj2 (update_batch_is_one_transaction (conflicting_store 3 25) 22
                   [profile_pattern] ann {[ "id" := VStr "43" ]} {[ "id" := VStr "43" ]}
                   None _ _ _ _)).
  - vm_compute. reflexivity.
  - simpl. lia.
  - lia.
Defined.

(** ** The constructor of [DynamoCollection] *)

Lemma check_pattern_stored (stringify : gmap string value -> string)
    (config : pattern_config) (p : pattern) :
  check_pattern stringify config = inr p <-> stored_as config p.
Proof.
  unfold check_pattern, stored_as. destruct p as [ppk psk pfs pwhen]. simpl.
  destruct (isEmpty (config_extra config)); simpl.
  - destruct (config_pk config) as [a|], (config_sk config) as [b|],
      (config_when config) as [[f|v]|];
      split; try discriminate; try (intros (_ & H & _); discriminate H);
      try (intros (_ & _ & H & _); discriminate H); try tauto.
    + intros [= -> -> -> ->]. auto.
    + intros (_ & [= ->] & [= ->] & -> & ->). reflexivity.
    + intros [= -> -> -> ->]. auto.
    + intros (_ & [= ->] & [= ->] & -> & ->). reflexivity.
  - split; [discriminate | intros [H _]; discriminate H].
Qed.

Lemma check_patterns_acc (stringify : gmap string value -> string)
    (configs : list pattern_config) :
  forall acc,
    check_patterns stringify configs acc
    = match check_patterns stringify configs [] with
      | inl e => inl e
      | inr keys => inr (acc ++ keys)
      end.
Proof.
  induction configs as [|config configs IH]; intros acc; simpl.
  - now rewrite app_nil_r.
  - destruct (check_pattern stringify config) as [e|p]; [reflexivity|].
    rewrite (IH (acc ++ [p])), (IH [p]).
    destruct (check_patterns stringify configs []); [reflexivity|].
    now rewrite <- app_assoc.
Qed.


(** ** [DynamoDB.updateExpression] *)

Lemma assignment_eq (key : string) :
  "#" +:+ key +:+ " = :" +:+ key = assignment key.
Proof. reflexivity. Qed.

Lemma is_key_field_spec (name : string) :
  is_key_field name = false <-> name <> "pk" /\ name <> "sk".
Proof.
  unfold is_key_field. rewrite orb_false_iff, !String.eqb_neq. tauto.
Qed.

Lemma string_app_inv_head (a s t : string) : a +:+ s = a +:+ t -> s = t.
Proof.
  induction a as [|c a IH]; simpl; [trivial|]. rewrite !append_cons.
  intros [= H]. auto.
Qed.

Lemma appended_prefix (a b : string) (object : list (string * value)) :
  appended (a +:+ b) object = a +:+ appended b object.
Proof.
  revert b. induction object as [|[k v] object IH]; intros b; [reflexivity|].
  unfold appended in *. simpl. now rewrite <- IH, append_assoc.
Qed.

Lemma appended_join (k : string) (object : list (string * value)) :
  appended (assignment k) object
  = join ", " (assignment k :: List.map (fun entry => assignment (fst entry)) object).
Proof.
  revert k. induction object as [|[k' v] object IH]; intros k; [reflexivity|].
  change (appended (assignment k) ((k', v) :: object))
    with (appended (assignment k +:+ ", " +:+ assignment k') object).
  rewrite appended_prefix, appended_prefix, IH. reflexivity.
Qed.

Lemma eqb_nonempty (s t : string) : s <> "" -> String.eqb (s +:+ t) "" = false.
Proof. destruct s; [congruence | reflexivity]. Qed.

Lemma updateExpression_loop_text (object : list (string * value)) :
  forall expression names values,
    expression <> "" ->
    (fold_left updateExpression_turn object (expression, names, values)).1.1
    = appended expression object.
Proof.
  induction object as [|[k v] object IH]; intros expression names values Hne;
    [reflexivity|].
  simpl fold_left.
  destruct expression as [|c rest]; [congruence|]. simpl String.eqb.
  rewrite IH by (rewrite append_cons; discriminate).
  unfold appended. simpl. reflexivity.
Qed.

Lemma updateExpression_loop_names (object : list (string * value)) :
  forall expression names values k,
    (fold_left updateExpression_turn object (expression, names, values)).1.2
      !! ("#" +:+ k)
    = if bool_decide (k ∈ List.map fst object) then Some k else names !! ("#" +:+ k).
Proof.
  induction object as [|[k' v] object IH]; intros expression names values k;
    [reflexivity|].
  simpl fold_left. rewrite IH. simpl List.map.
  destruct (decide (k = k')) as [->|Hne].
  - rewrite (bool_decide_eq_true_2 (k' ∈ k' :: _)) by left.
    rewrite lookup_insert_eq. now destruct (bool_decide _).
  - rewrite lookup_insert_ne
      by (intros H; apply (string_app_inv_head "#") in H; congruence).
    destruct (decide (k ∈ List.map fst object)) as [Hin|Hout].
    + rewrite (bool_decide_eq_true_2 (k ∈ List.map fst object)),
        (bool_decide_eq_true_2 (k ∈ k' :: _)); trivial. now right.
    + rewrite (bool_decide_eq_false_2 (k ∈ List.map fst object)),
        (bool_decide_eq_false_2 (k ∈ k' :: _)); trivial.
      intros [->|H]%elem_of_cons; congruence.
Qed.

Lemma updateExpression_loop_values (object : list (string * value)) :
  NoDup (List.map fst object) ->
  forall expression names values k,
    (fold_left updateExpression_turn object (expression, names, values)).2
      !! (":" +:+ k)
    = match List.find (fun entry => String.eqb (fst entry) k) object with
      | Some entry => Some (snd entry)
      | None => values !! (":" +:+ k)
      end.
Proof.
  induction object as [|[k' v] object IH]; intros Hnd expression names values k;
    [reflexivity|].
  simpl in Hnd. apply NoDup_cons in Hnd as [Hk' Hnd].
  simpl fold_left. rewrite (IH Hnd). simpl List.find.
  destruct (String.eqb_spec k' k) as [->|Hne].
  - assert (Hnone : List.find (fun entry => String.eqb (fst entry) k) object = None).
    { destruct (List.find _ object) as [[k0 v0]|] eqn:Hf; [|reflexivity].
      apply find_some in Hf as [Hin Heq]. simpl in Heq.
      apply String.eqb_eq in Heq as ->. exfalso.
      apply Hk', list_elem_of_In, in_map_iff. now exists (k, v0). }
    rewrite Hnone. apply lookup_insert_eq.
  - destruct (List.find _ object); [reflexivity|].
    apply lookup_insert_ne. intros H. apply (string_app_inv_head ":") in H. congruence.
Qed.

Lemma NoDup_fst_functional (l : list (string * value)) (k : string) (v w : value) :
  NoDup (List.map fst l) -> In (k, v) l -> In (k, w) l -> v = w.
Proof.
  induction l as [|[k1 v1] l IH]; intros Hnd Hv Hw; [destruct Hv|].
  simpl in Hnd. apply NoDup_cons in Hnd as [Hk Hnd].
  destruct Hv as [Hv|Hv], Hw as [Hw|Hw].
  - congruence.
  - injection Hv as -> ->. exfalso.
    apply Hk, list_elem_of_In, in_map_iff. now exists (k, w).
  - injection Hw as -> ->. exfalso.
    apply Hk, list_elem_of_In, in_map_iff. now exists (k, v).
  - now apply IH.
Qed.

(** X7. The object is given by its fields in the order of enumeration,
    each name once. [updateExpression] removes [pk] and [sk] from the
    object it is given. The expression it returns is empty when no other
    field is left, and otherwise is [set] followed by one assignment
    [#name = :name] for each field left, in order and separated by
    commas; the attribute names map [#name] to [name] and the attribute
    values map [:name] to the field's value for exactly these fields, so
    that [pk] and [sk] are never assigned. *)
Theorem updateExpression_assigns_fields (object : list (string * value)) :
  NoDup (List.map fst object) ->
  exists left expression names values,
    updateExpression object = (left, (expression, names, values))
    /\ left = List.filter (fun entry => negb (is_key_field (fst entry))) object
    /\ expression
       = match left with
         | [] => ""
         | _ => "set " +:+ join ", " (List.map (fun entry => assignment (fst entry)) left)
         end
    /\ (forall k, names !! ("#" +:+ k)
                  = if bool_decide (k ∈ List.map fst left) then Some k else None)
    /\ (forall k v, values !! (":" +:+ k) = Some v <-> (k, v) ∈ left)
    /\ names !! "#pk" = None /\ names !! "#sk" = None
    /\ values !! ":pk" = None /\ values !! ":sk" = None.
Proof.
  intros Hnd. unfold updateExpression.
  set (left := List.filter (fun entry => negb (is_key_field (fst entry))) object).
  assert (Hleft : NoDup (List.map fst left)).
  { subst left. clear -Hnd. induction object as [|[k v] object IH]; [constructor|].
    simpl in Hnd |- *. apply NoDup_cons in Hnd as [Hk Hnd].
    destruct (is_key_field k); simpl; [now apply IH|].
    apply NoDup_cons. split; [|now apply IH].
    intros Hin. apply Hk. apply list_elem_of_In, in_map_iff in Hin as ([k0 v0] & <- & Hin).
    apply filter_In in Hin as [Hin _].
    apply list_elem_of_In, in_map_iff. now exists (k0, v0). }
  assert (Hkeys : forall k, k ∈ List.map fst left -> is_key_field k = false).
  { intros k Hin. subst left.
    apply list_elem_of_In, in_map_iff in Hin as ([k0 v0] & <- & Hin).
    apply filter_In in Hin as [_ Hin]. now apply negb_true_iff in Hin. }
  pose proof (updateExpression_loop_names left "" ∅ ∅) as Hnames.
  pose proof (updateExpression_loop_values left Hleft "" ∅ ∅) as Hvalues.
  assert (Htext : (fold_left updateExpression_turn left ("", ∅, ∅)).1.1
                  = match left with
                    | [] => ""
                    | _ => "set " +:+ join ", "
                             (List.map (fun entry => assignment (fst entry)) left)
                    end).
  { destruct left as [|[k v] rest]; [reflexivity|].
    simpl fold_left. rewrite updateExpression_loop_text by discriminate.
    change ("set #" +:+ k +:+ " = :" +:+ k) with ("set " +:+ assignment k).
    now rewrite appended_prefix, appended_join. }
  destruct (fold_left updateExpression_turn left ("", ∅, ∅))
    as [[expression names] values]. simpl in Hnames, Hvalues, Htext.
  assert (Hvals : forall k v, values !! (":" +:+ k) = Some v <-> (k, v) ∈ left).
  { intros k v. rewrite Hvalues, lookup_empty. split.
    - destruct (List.find _ left) as [[k0 v0]|] eqn:Hf; [|discriminate].
      apply find_some in Hf as [Hin Heq]. simpl in Heq.
      apply String.eqb_eq in Heq as ->. intros [= <-]. now apply list_elem_of_In.
    - intros Hin. apply list_elem_of_In in Hin.
      destruct (List.find _ left) as [[k0 v0]|] eqn:Hf.
      + apply find_some in Hf as [Hin0 Heq]. simpl in Heq.
        apply String.eqb_eq in Heq as ->. simpl. f_equal.
        exact (NoDup_fst_functional left k v0 v Hleft Hin0 Hin).
      + exfalso. apply (find_none _ _ Hf) in Hin. simpl in Hin.
        now rewrite String.eqb_refl in Hin. }
  assert (Hnames' : forall k, names !! ("#" +:+ k)
                    = if bool_decide (k ∈ List.map fst left) then Some k else None)
    by (intros k; now rewrite Hnames, lookup_empty).
  assert (Hnone : forall k, is_key_field k = true ->
                    names !! ("#" +:+ k) = None /\ values !! (":" +:+ k) = None).
  { intros k Hk. split.
    - rewrite Hnames'. rewrite bool_decide_eq_false_2; [reflexivity|].
      intros Hin. apply Hkeys in Hin. congruence.
    - destruct (values !! (":" +:+ k)) as [v|] eqn:Hv; [|reflexivity].
      apply Hvals in Hv. exfalso.
      assert (Hin : k ∈ List.map fst left)
        by (apply list_elem_of_In, in_map_iff; exists (k, v);
            split; [reflexivity | now apply list_elem_of_In]).
      apply Hkeys in Hin. congruence. }
  exists left, expression, names, values.
  repeat split; trivial; try apply Hvals; try (apply (Hnone "pk"); reflexivity);
    apply (Hnone "sk"); reflexivity.
Qed.

Lemma updateExpression_assigns_fields_witness :
  exists left expression names values,
    updateExpression [("pk", VStr "user#42"); ("email", VStr "b@x.com"); ("age", VNum (SafeInteger 31 I))]
    = (left, (expression, names, values))
    /\ left = [("email", VStr "b@x.com"); ("age", VNum (SafeInteger 31 I))]
    /\ expression = "set #email = :email, #age = :age".
Proof.
  destruct (updateExpression_assigns_fields
              [("pk", VStr "user#42"); ("email", VStr "b@x.com"); ("age", VNum (SafeInteger 31 I))])
    as (left & expression & names & values & Hu & Hl & He & _).
  - simpl. apply (bool_decide_unpack _). reflexivity.
  - exists left, expression, names, values. split; [exact Hu|].
    split; [exact Hl|]. rewrite He, Hl. reflexivity.
Defined.

(** ** The exceptions of [#key] *)

Lemma matchAll_from_occurs (s : string) :
  forall skip f rest,
    matchAll_from skip s = f :: rest -> occurs (token_text f) s = true.
Proof.
  induction s as [|c s IH]; intros skip f rest; [discriminate|].
  assert (Hlater : forall k, matchAll_from k s = f :: rest ->
                     occurs (token_text f) (String c s) = true).
  { intros k H. cbn [occurs]. rewrite (IH _ _ _ H). apply orb_true_r. }
  destruct skip as [|k]; cbn [matchAll_from]; [|apply Hlater].
  destruct (Ascii.eqb_spec c "{") as [->|_]; [|apply Hlater].
  destruct (placeholder_at s) as [field|] eqn:Hp; [|apply Hlater].
  intros [= <- _].
  destruct (placeholder_at_spec _ _ Hp) as (after & -> & Hw & _).
  cbn [occurs]. apply orb_true_intro. left.
  replace (String "{" (field +:+ String "}" after)) with (token_text field +:+ after).
  - rewrite (prefix_token _ _ _ Hw Hw). apply String.eqb_refl.
  - rewrite token_text_cons. f_equal. rewrite append_assoc. reflexivity.
Qed.

(** X8. [#key] returns a key whenever no placeholder of the template is
    made of digits only and none reads from the entity a builtin that
    throws when it is called. It throws nothing but the SyntaxError of
    [new RegExp] for a placeholder made of digits, and the TypeError of
    a builtin of [Object.prototype] that a placeholder reads, from the
    entity or, the entity lacking the field, from the prototype. The
    first placeholder decides when it is one of these: made of digits,
    [#key] throws the SyntaxError whatever the entity is; reading such a
    builtin, [#key] throws its TypeError. *)
Theorem key_throws_for_digits_and_builtins (template : string) (data : gmap string value) :
  (template_resolves template data = true -> exists s, key template data = inr s)
  /\ (forall e, key template data = inl e ->
        exists f, In f (matchAll template)
          /\ ((all_digits f = true /\ e = SyntaxError (token_text f))
              \/ exists m, getProp data f = VMember m
                   /\ throws_as_replacer (VMember m) = true /\ e = TypeError m))
  /\ (forall f rest, matchAll template = f :: rest -> all_digits f = true ->
        key template data = inl (SyntaxError (token_text f)))
  /\ (forall f rest m, matchAll template = f :: rest -> all_digits f = false ->
        getProp data f = VMember m -> throws_as_replacer (VMember m) = true ->
        key template data = inl (TypeError m)).
Proof.
  split; [apply key_total|]. split; [apply key_loop_error|]. split.
  - intros f rest Hm Hd. unfold key. rewrite Hm. cbn [key_loop].
    unfold RegExp_throws. now rewrite Hd.
  - intros f rest m Hm Hd Hv Ht. unfold key.
    pose proof (matchAll_from_occurs template 0 f rest Hm) as Hocc.
    rewrite Hm. cbn [key_loop]. unfold RegExp_throws. rewrite Hd, Hv.
    unfold replace. unfold throws_as_replacer in Ht.
    destruct m; simpl in Ht; try discriminate Ht; simpl; now rewrite Hocc.
Qed.

Lemma key_throws_for_digits_and_builtins_witness :
  (exists s, key "user#{id}/{constructor}" ann = inr s)
  /\ key "{12}#{id}" ann = inl (SyntaxError "{12}")
  /\ key "user#{hasOwnProperty}" ann = inl (TypeError MHasOwnProperty).
Proof.
  destruct (key_throws_for_digits_and_builtins "user#{id}/{constructor}" ann)
    as (Hreturns & _).
  destruct (key_throws_for_digits_and_builtins "{12}#{id}" ann)
    as (_ & _ & Hdigits & _).
  destruct (key_throws_for_digits_and_builtins "user#{hasOwnProperty}" ann)
    as (_ & _ & _ & Hbuiltin).
  split; [apply Hreturns; reflexivity|]. split.
  - apply (Hdigits "12" ["id"]); reflexivity.
  - apply (Hbuiltin "hasOwnProperty" [] MHasOwnProperty); reflexivity.
Defined.

(** ** [DynamoDB.query] *)

Section QueryFacts.

Variable number : Type.
Variable Number : string -> number.
Variable truthy : number -> bool.
Variable token : Type.
Variable JSON_stringify : token -> string.
Variable JSON_parse : string -> option token.


Lemma filter_turns_expressions (filters : list string) :
  forall names values expressions,
    (fold_left (filter_turn number Number truthy) filters (names, values, expressions)).2
    = expressions ++ List.map (fun f => expression _ (filter_callback number Number truthy f)) filters.
Proof.
  induction filters as [|f filters IH]; intros names values expressions; simpl.
  - now rewrite app_nil_r.
  - rewrite IH. now rewrite <- app_assoc.
Qed.

Lemma filter_turns_values (filters : list string) (field : string) :
  forall names values expressions,
    (fold_left (filter_turn number Number truthy) filters (names, values, expressions)).1.2 !! (":" +:+ field)
    = match last (List.filter (fun f => String.eqb (filter_field f) field) filters) with
      | Some f => Some (bound_value _ (filter_callback number Number truthy f))
      | None => values !! (":" +:+ field)
      end.
Proof.
  induction filters as [|f filters IH]; intros names values expressions;
    [reflexivity|].
  simpl fold_left. rewrite IH. simpl List.filter.
  destruct (String.eqb_spec (filter_field f) field) as [Heq|Hne].
  - destruct (List.filter _ filters) as [|g rest] eqn:Hrest.
    + simpl. unfold filter_field in Heq. subst field. apply lookup_insert_eq.
    + change (last (f :: g :: rest)) with (last (g :: rest)).
      destruct (last (g :: rest)) eqn:Hl; [reflexivity|].
      apply last_None in Hl. discriminate.
  - destruct (last _); [reflexivity|].
    apply lookup_insert_ne. simpl. intros H.
    apply (string_app_inv_head ":") in H. contradiction.
Qed.


Variable client_query : query_params number token -> query_response token.

(** X9. Every filter adds its comparison to the filter expression, in
    order and joined by [and]; but the value bound to [:field] is that of
    the last filter naming the field. Of two filters on one field both
    comparisons therefore read the second value, and a filter on [pk] or
    [sk] replaces the value of the key condition; a name no filter uses
    keeps what the key condition bound. *)
Theorem query_last_filter_wins (this : DynamoDB) (pk : string) (sk : option string)
    (options : query_options) (filters : list string)
    (params : query_params number token) (field : string) :
  option_filters options = Some filters ->
  query_request number Number truthy token JSON_parse this pk sk options = inr params ->
  FilterExpression _ _ params
  = Some (join " and "
            (List.map (fun f => expression _ (filter_callback number Number truthy f))
               filters))
  /\ ExpressionAttributeValues _ _ params !! (":" +:+ field)
     = match last (List.filter (fun f => String.eqb (filter_field f) field) filters) with
       | Some f => Some (bound_value _ (filter_callback number Number truthy f))
       | None =>
           ExpressionAttributeValues _ _ (key_condition number token this pk sk)
             !! (":" +:+ field)
       end.
Proof.
  intros Hf. unfold query_request. rewrite Hf.
  destruct (if truthy_string (option_cursor options) then _ else _) as [e|start];
    [discriminate|].
  pose proof (filter_turns_expressions filters
                (ExpressionAttributeNames _ _ (key_condition number token this pk sk))
                (ExpressionAttributeValues _ _ (key_condition number token this pk sk))
                []) as He.
  pose proof (filter_turns_values filters field
                (ExpressionAttributeNames _ _ (key_condition number token this pk sk))
                (ExpressionAttributeValues _ _ (key_condition number token this pk sk))
                []) as Hv.
  destruct (fold_left _ filters _) as [[names values] expressions].
  simpl in He, Hv. intros [= <-]. simpl. split; [now rewrite He | exact Hv].
Qed.

Lemma base64Encode_nonempty (text : string) : text <> "" -> base64Encode text <> "".
Proof.
  destruct text as [|c text]; [congruence|]. intros _.
  unfold base64Encode, utf8_encode. cbn [list_ascii_of_string flat_map].
  assert (H : exists b rest, utf8_char c ++ flat_map utf8_char (list_ascii_of_string text)
                             = b :: rest).
  { unfold utf8_char. destruct (_ <? _)%N; simpl; eauto. }
  destruct H as (b & rest & ->). unfold base64_encode.
  destruct rest as [|b2 [|b3 rest]]; simpl; discriminate.
Qed.

(** X10. When the store answers a query with a continuation token whose
    JSON text is ASCII, not empty, and read back by [JSON.parse], [query]
    returns the mapped items with a cursor, and any later query given that
    cursor starts from that very token: the cursor is not empty, it
    decodes without an exception, and [ExclusiveStartKey] is the token the
    store returned. *)
Theorem query_cursor_resumes (this : DynamoDB) (pk : string) (sk : option string)
    (options : query_options)
    (mapFn : option (gmap string value -> gmap string value))
    (params : query_params number token)
    (Items : list (gmap string value)) (last_evaluated : token) :
  query_request number Number truthy token JSON_parse this pk sk options = inr params ->
  client_query params = QueryData token Items (Some last_evaluated) ->
  is_ascii_text (JSON_stringify last_evaluated) = true ->
  JSON_stringify last_evaluated <> "" ->
  JSON_parse (JSON_stringify last_evaluated) = Some last_evaluated ->
  exists c,
    query number Number truthy token JSON_stringify JSON_parse client_query
      this pk sk options mapFn
    = inr (QueryResult (match mapFn with Some f => List.map f Items | None => Items end)
             (Some c))
    /\ forall pk' sk' next,
         option_cursor next = Some c ->
         exists params',
           query_request number Number truthy token JSON_parse this pk' sk' next
           = inr params'
           /\ ExclusiveStartKey _ _ params' = Some last_evaluated.
Proof.
  intros Hreq Hans Hascii Hne Hparse.
  exists (toCursor token JSON_stringify last_evaluated). split.
  - unfold query. now rewrite Hreq, Hans.
  - intros pk' sk' next Hc. unfold query_request. rewrite Hc. simpl default.
    assert (Htruthy : truthy_string (Some (toCursor token JSON_stringify last_evaluated))
                      = true).
    { unfold toCursor. pose proof (base64Encode_nonempty _ Hne) as H.
      now destruct (base64Encode (JSON_stringify last_evaluated)). }
    rewrite Htruthy.
    assert (Hback : fromCursor token JSON_parse
                      (toCursor token JSON_stringify last_evaluated)
                    = Some last_evaluated)
      by (unfold fromCursor, toCursor; now rewrite base64Decode_Encode).
    rewrite Hback.
    destruct (match option_filters next with Some _ => _ | None => _ end)
      as [[names values] filter].
    eexists. split; reflexivity.
Qed.

End QueryFacts.

Lemma query_last_filter_wins_witness :
  exists params,
    query_request (option Z) Number_integer truthy_integer MiniJSON.json MiniJSON.parse
      (conflicting_store 1 25) "user#42" None
      (QueryOptions None None (Some ["age > 10"; "age < 20"]) false) = inr params
    /\ FilterExpression _ _ params = Some "#age > :age and #age < :age"
    /\ ExpressionAttributeValues _ _ params !! ":age" = Some (FNumber (Some 20%Z)).
Proof.
  eexists. split; [reflexivity|].
  destruct (query_last_filter_wins (option Z) Number_integer truthy_integer
              MiniJSON.json MiniJSON.parse (conflicting_store 1 25) "user#42" None
              (QueryOptions None None (Some ["age > 10"; "age < 20"]) false)
              ["age > 10"; "age < 20"] _ "age" eq_refl eq_refl) as [He Hv].
  split; [exact He | exact Hv].
Defined.

Lemma query_cursor_resumes_witness :
  exists c,
    query (option Z) Number_integer truthy_integer MiniJSON.json
      MiniJSON.stringify MiniJSON.parse one_page_client
      (conflicting_store 1 25) "user#42" (Some "profile")
      (QueryOptions (Some 1%nat) None None false) None
    = inr (QueryResult [ann] (Some c))
    /\ exists params',
         query_request (option Z) Number_integer truthy_integer MiniJSON.json
           MiniJSON.parse (conflicting_store 1 25) "user#42" (Some "profile")
           (QueryOptions (Some 1%nat) (Some c) None false) = inr params'
         /\ ExclusiveStartKey _ _ params' = Some last_key.
Proof.
  destruct (query_cursor_resumes (option Z) Number_integer truthy_integer MiniJSON.json
              MiniJSON.stringify MiniJSON.parse one_page_client
              (conflicting_store 1 25) "user#42" (Some "profile")
              (QueryOptions (Some 1%nat) None None false) None _ [ann] last_key
              eq_refl eq_refl) as (c & Hq & Hnext).
  - vm_compute. reflexivity.
  - vm_compute. discriminate.
  - vm_compute. reflexivity.
  - exists c. split; [exact Hq|].
    apply (Hnext "user#42" (Some "profile")
             (QueryOptions (Some 1%nat) (Some c) None false)). reflexivity.
Defined.

(** ** [DynamoDB.export] and [truncate] *)

Section ScanFacts.

Variable client_scan : nat -> scan_response.
Variable JSON_stringify_pretty : list (gmap string value) -> string.

Lemma export_loop_pages (count : nat) :
  forall fuel from items Items,
    (forall k, (k < count)%nat ->
       exists page key, client_scan (from + k) = ScanData page (Some key)) ->
    client_scan (from + count) = ScanData Items None ->
    (count < fuel)%nat ->
    export_loop client_scan fuel from items
    = Some (inr (items ++ pages client_scan from count ++ Items)).
Proof.
  induction count as [|count IH]; intros fuel from items Items Hmore Hlast Hfuel.
  - destruct fuel as [|fuel]; [lia|]. simpl. rewrite Nat.add_0_r in Hlast.
    now rewrite Hlast.
  - destruct fuel as [|fuel]; [lia|]. simpl.
    destruct (Hmore 0%nat) as (page & key & Hpage); [lia|].
    rewrite Nat.add_0_r in Hpage. rewrite Hpage.
    rewrite (IH fuel (S from) (items ++ page) Items).
    + now rewrite <- !app_assoc.
    + intros k Hk. destruct (Hmore (S k)) as (page' & key' & H); [lia|].
      exists page', key'. now rewrite <- H, Nat.add_succ_r.
    + now rewrite <- Hlast, Nat.add_succ_r.
    + lia.
Qed.

Lemma export_loop_never (fuel : nat) :
  forall from items,
    (forall k, exists page key, client_scan k = ScanData page (Some key)) ->
    export_loop client_scan fuel from items = None.
Proof.
  induction fuel as [|fuel IH]; intros from items Hmore; [reflexivity|].
  simpl. destruct (Hmore from) as (page & key & ->). now apply IH.
Qed.

(** X11. [export] scans with the same parameters every time and stops at
    the first answer without [LastEvaluatedKey]: it then returns the JSON
    text of the items of all the answers so far, in order, and one turn
    of the loop more than the answers with a key is enough fuel. When the
    store gives the same answer to the same scan and that answer has a
    [LastEvaluatedKey] (the table does not fit one page), no number of
    turns is enough: [export] never returns. *)
Theorem export_stops_at_first_last_page :
  (forall count fuel Items,
     (forall k, (k < count)%nat ->
        exists page key, client_scan k = ScanData page (Some key)) ->
     client_scan count = ScanData Items None ->
     (count < fuel)%nat ->
     export client_scan JSON_stringify_pretty fuel
     = Some (inr (JSON_stringify_pretty (pages client_scan 0 count ++ Items))))
  /\ (forall page key,
        (forall k, client_scan k = client_scan 0) ->
        client_scan 0 = ScanData page (Some key) ->
        forall fuel, export client_scan JSON_stringify_pretty fuel = None).
Proof.
  split.
  - intros count fuel Items Hmore Hlast Hfuel. unfold export.
    now rewrite (export_loop_pages count fuel 0 [] Items).
  - intros page key Hsame Hfirst fuel. unfold export.
    rewrite export_loop_never; [reflexivity|].
    intros k. exists page, key. now rewrite Hsame.
Qed.

End ScanFacts.

Lemma export_stops_at_first_last_page_witness :
  export two_pages_scan stringify_items 2 = Some (inr (stringify_items three_items))
  /\ forall fuel, export same_page_scan stringify_items fuel = None.
Proof.
  destruct (export_stops_at_first_last_page two_pages_scan stringify_items)
    as [Hstop _].
  destruct (export_stops_at_first_last_page same_page_scan stringify_items)
    as [_ Hnever].
  split.
  - apply (Hstop 1%nat 2%nat (drop 2 three_items)); [|reflexivity | lia].
    intros k Hk. assert (k = 0)%nat as -> by lia. simpl. eauto.
  - apply (Hnever (take 2 three_items) (<["pk" := VStr "user#2"]> {[ "sk" := VStr "profile" ]}));
      [reflexivity | vm_compute; reflexivity].
Defined.

Section TruncateFacts.

Variable store : Type.
Variable store_scan : store -> scan_response.
Variable store_delete : store -> value -> value -> response * store.

(** The keys of the items the table holds. *)
Variable contents : store -> list (value * value).

(** What is assumed of the table: a scan does not fail and answers with
    items of the table; an answer without [LastEvaluatedKey] holds every
    item that remains, and one with it holds some item; a delete succeeds
    and removes the items with the given keys and no other. *)
Hypothesis scan_sound : forall s,
  exists Items key, store_scan s = ScanData Items key
    /\ (forall item, In item Items -> In (key_of item) (contents s))
    /\ (key = None -> forall k, In k (contents s) ->
          exists item, In item Items /\ key_of item = k)
    /\ (key <> None -> Items <> []).
Hypothesis delete_removes : forall s pk sk,
  exists s', store_delete s pk sk = (Success, s')
    /\ contents s' = List.filter (fun k => negb (bool_decide (k = (pk, sk)))) (contents s).

Lemma delete_each_removes (Items : list (gmap string value)) :
  forall s,
    exists s', delete_each store store_delete s Items = (s', None)
      /\ contents s'
         = List.filter (fun k => negb (existsb (fun item => bool_decide (k = key_of item))
                                         Items)) (contents s).
Proof.
  induction Items as [|item Items IH]; intros s; simpl.
  - exists s. split; [reflexivity|]. induction (contents s); simpl; congruence.
  - destruct (delete_removes s (getProp item "pk") (getProp item "sk"))
      as (s1 & -> & Hs1).
    destruct (IH s1) as (s' & -> & Hs'). exists s'. split; [reflexivity|].
    rewrite Hs', Hs1. clear.
    change (getProp item "pk", getProp item "sk") with (key_of item).
    induction (contents s) as [|k l IHl]; [reflexivity|].
    simpl. destruct (bool_decide (k = key_of item)); simpl; [exact IHl|].
    destruct (existsb _ Items); simpl; [exact IHl | now rewrite IHl].
Qed.

Lemma filter_length_lt {A : Type} (f : A -> bool) (l : list A) (x : A) :
  In x l -> f x = false -> (length (List.filter f l) < length l)%nat.
Proof.
  induction l as [|y l IH]; intros Hin Hf; [destruct Hin|].
  simpl. destruct Hin as [->|Hin].
  - rewrite Hf. pose proof (filter_length_le f l). lia.
  - specialize (IH Hin Hf). destruct (f y); simpl; lia.
Qed.

Lemma truncate_empties_within (n : nat) :
  forall s, (length (contents s) <= n)%nat ->
    exists s', truncate store store_scan store_delete (S n) s = Some (s', Resolved RTrue)
               /\ contents s' = [].
Proof.
  induction n as [|n IH]; intros s Hlen.
  - simpl. destruct (scan_sound s) as (Items & key & -> & Hin & Hall & Hmore).
    destruct (delete_each_removes Items s) as (s' & -> & Hs').
    assert (Hempty : contents s = []) by (destruct (contents s); [trivial | simpl in Hlen; lia]).
    assert (Hnone : key = None).
    { destruct key as [k|]; [|reflexivity]. exfalso.
      destruct Items as [|item Items]; [now apply Hmore|].
      specialize (Hin item (or_introl eq_refl)). rewrite Hempty in Hin. destruct Hin. }
    subst key. exists s'. split; [reflexivity|]. now rewrite Hs', Hempty.
  - cbn [truncate]. destruct (scan_sound s) as (Items & key & -> & Hin & Hall & Hmore).
    destruct (delete_each_removes Items s) as (s' & -> & Hs').
    destruct key as [k|].
    + apply IH. rewrite Hs'.
      destruct Items as [|item Items]; [exfalso; now apply Hmore|].
      assert (Hlt : (length (List.filter
                 (fun k0 => negb (existsb (fun item0 => bool_decide (k0 = key_of item0))
                                    (item :: Items))) (contents s))
              < length (contents s))%nat).
      { apply filter_length_lt with (x := key_of item).
        - apply Hin. now left.
        - simpl. now rewrite bool_decide_eq_true_2. }
      lia.
    + exists s'. split; [reflexivity|]. rewrite Hs'.
      specialize (Hall eq_refl).
      clear -Hall. induction (contents s) as [|k l IHl]; [reflexivity|].
      simpl. destruct (Hall k (or_introl eq_refl)) as (item & Hitem & Hk).
      assert (Hex : existsb (fun item0 => bool_decide (k = key_of item0)) Items = true).
      { apply existsb_exists. exists item. split; [exact Hitem|].
        now rewrite bool_decide_eq_true_2. }
      rewrite Hex. simpl. apply IHl. intros k' Hk'. apply Hall. now right.
Qed.

(** X12. On a table that no other client writes to, where a scan answers
    with items of the table (all that remain when it gives no
    [LastEvaluatedKey], at least one when it gives one) and a delete
    removes the items at the given keys, [truncate] returns [true] and
    leaves the table empty; one turn of its loop more than the table has
    items is enough. Scanning from the start every time is what makes it
    so: each turn deletes what the scan returned. *)
Theorem truncate_empties_table (s : store) (fuel : nat) :
  (length (contents s) < fuel)%nat ->
  exists s', truncate store store_scan store_delete fuel s = Some (s', Resolved RTrue)
             /\ contents s' = [].
Proof.
  intros Hfuel. destruct fuel as [|n]; [lia|].
  apply truncate_empties_within. lia.
Qed.

End TruncateFacts.

Lemma list_scan_sound (page : nat) (s : list (gmap string value)) :
  (1 <= page)%nat ->
  exists Items key, list_scan page s = ScanData Items key
    /\ (forall item, In item Items -> In (key_of item) (List.map key_of s))
    /\ (key = None -> forall k, In k (List.map key_of s) ->
          exists item, In item Items /\ key_of item = k)
    /\ (key <> None -> Items <> []).
Proof.
  intros Hpage. unfold list_scan. eexists _, _. split; [reflexivity|].
  split; [|split].
  - intros item Hin. apply in_map. rewrite <- (take_drop page s).
    apply in_or_app. now left.
  - destruct (Nat.ltb_spec page (length s)) as [Hlt|Hge].
    + intros Hlast. apply last_None in Hlast.
      apply (f_equal (@length _)) in Hlast. rewrite length_take in Hlast.
      simpl in Hlast. lia.
    + intros _ k Hk. rewrite take_ge by lia.
      apply in_map_iff in Hk as (item & <- & Hin). eauto.
  - destruct (Nat.ltb_spec page (length s)) as [Hlt|Hge]; [|congruence].
    intros _ Hnil. apply (f_equal (@length _)) in Hnil.
    rewrite length_take in Hnil. simpl in Hnil. lia.
Qed.

Lemma list_delete_removes (s : list (gmap string value)) (pk sk : value) :
  exists s', list_delete s pk sk = (Success, s')
    /\ List.map key_of s'
       = List.filter (fun k => negb (bool_decide (k = (pk, sk)))) (List.map key_of s).
Proof.
  unfold list_delete. eexists. split; [reflexivity|].
  induction s as [|item s IH]; [reflexivity|]. simpl.
  assert (H : has_key pk sk item = bool_decide (key_of item = (pk, sk))).
  { unfold has_key, key_of. apply bool_decide_ext. split; [intros [-> ->]; reflexivity|].
    intros [= -> ->]. auto. }
  rewrite H. destruct (bool_decide _); simpl; [exact IH | now rewrite IH].
Qed.

Lemma truncate_empties_table_witness :
  truncate _ (list_scan 2) list_delete 4 three_items = Some ([], Resolved RTrue)
  /\ exists s', truncate _ (list_scan 2) list_delete 4 three_items
                = Some (s', Resolved RTrue)
                /\ List.map key_of s' = [].
Proof.
  split; [vm_compute; reflexivity|].
  apply (truncate_empties_table _ (list_scan 2) list_delete (List.map key_of)
           (fun s => list_scan_sound 2 s (le_S _ _ (le_n 1))) list_delete_removes
           three_items 4).
  simpl. lia.
Defined.

(** ** [base64Encode] and [base64Decode] *)

Lemma utf8_encode_length (text : string) :
  (String.length text <= length (utf8_encode text))%nat
  /\ (length (utf8_encode text) = String.length text -> is_ascii_text text = true).
Proof.
  unfold utf8_encode, is_ascii_text.
  induction text as [|c text [IHle IHeq]]; [split; [simpl; lia | reflexivity]|].
  cbn [list_ascii_of_string flat_map forallb String.length]. rewrite length_app.
  assert (Hc : length (utf8_char c) = if (N_of_ascii c <? 128)%N then 1%nat else 2%nat)
    by (unfold utf8_char; now destruct (_ <? _)%N).
  rewrite Hc. destruct (N_of_ascii c <? 128)%N; cbn [andb].
  - split; [lia|]. intros H. apply IHeq. lia.
  - split; [lia|]. intros H. lia.
Qed.

Lemma ascii_decode_length (buffer : list ascii) :
  String.length (ascii_decode buffer) = length buffer.
Proof.
  unfold ascii_decode. induction buffer as [|b buffer IH]; simpl; [reflexivity|].
  now rewrite IH.
Qed.

(** X13. [base64Decode] undoes [base64Encode] exactly on the strings
    whose characters are all below U+0080: the encoder writes the UTF-8
    octets of the string and the decoder reads octets as ASCII, so a
    string with any other character comes back longer than it was. *)
Theorem base64_round_trip_iff_ascii (text : string) :
  base64Decode (base64Encode text) = text <-> is_ascii_text text = true.
Proof.
  split; [|apply base64Decode_Encode].
  unfold base64Decode, base64Encode. rewrite base64_decode_encode. intros H.
  apply utf8_encode_length. rewrite <- (ascii_decode_length (utf8_encode text)).
  now rewrite H.
Qed.

Lemma base64_encode_shape (buffer : list ascii) :
  String.length (base64_encode buffer) = (4 * ((length buffer + 2) / 3))%nat
  /\ Forall (fun c => c = "="%char \/ exists s, (s < 64)%N /\ c = base64_char s)
       (list_ascii_of_string (base64_encode buffer)).
Proof.
  unfold base64_encode.
  induction buffer as [|a|a b|a b c rest [IHlen IHall]] using octets_ind.
  - split; [reflexivity | constructor].
  - split; [reflexivity|].
    pose proof (octets_to_sextets_small [a]) as Hs. cbn [octets_to_sextets] in Hs |- *.
    inversion Hs as [|? ? H1 Hs1]; subst. inversion Hs1 as [|? ? H2 _]; subst.
    change (padding (length [a])) with "==".
    cbn [List.map string_of_list_ascii]. rewrite !append_cons, append_nil_l.
    cbn [list_ascii_of_string].
    repeat (constructor;
            [first [left; reflexivity
                   | right; eexists; (split; [|reflexivity]); assumption]|]).
    constructor.
  - split; [reflexivity|].
    pose proof (octets_to_sextets_small [a; b]) as Hs. cbn [octets_to_sextets] in Hs |- *.
    inversion Hs as [|? ? H1 Hs1]; subst. inversion Hs1 as [|? ? H2 Hs2]; subst.
    inversion Hs2 as [|? ? H3 _]; subst.
    change (padding (length [a; b])) with "=".
    cbn [List.map string_of_list_ascii]. rewrite !append_cons, append_nil_l.
    cbn [list_ascii_of_string].
    repeat (constructor;
            [first [left; reflexivity
                   | right; eexists; (split; [|reflexivity]); assumption]|]).
    constructor.
  - pose proof (octets_to_sextets_small (a :: b :: c :: rest)) as Hs.
    cbn [octets_to_sextets] in Hs |- *.
    inversion Hs as [|? ? H1 Hs1]; subst. inversion Hs1 as [|? ? H2 Hs2]; subst.
    inversion Hs2 as [|? ? H3 Hs3]; subst. inversion Hs3 as [|? ? H4 _]; subst.
    assert (Hpad : padding (length (a :: b :: c :: rest)) = padding (length rest)).
    { unfold padding. cbn [length].
      replace (S (S (S (length rest)))) with (length rest + 1 * 3)%nat by lia.
      now rewrite Nat.Div0.mod_add. }
    rewrite Hpad. cbn [List.map string_of_list_ascii]. rewrite !append_cons.
    cbn [String.length list_ascii_of_string]. split.
    + rewrite IHlen. cbn [length].
      replace (S (S (S (length rest))) + 2)%nat with (length rest + 2 + 1 * 3)%nat by lia.
      rewrite Nat.div_add by lia. lia.
    + repeat (constructor; [right; eexists; (split; [|reflexivity]); assumption|]).
      exact IHall.
Qed.

(** X14. The text [base64Encode] returns has four characters for every
    three octets of the UTF-8 form of its argument, the last group being
    completed, and every character of it is [=] or one of the sixty-four
    of the standard alphabet. *)
Theorem base64Encode_shape (data : string) :
  String.length (base64Encode data) = (4 * ((length (utf8_encode data) + 2) / 3))%nat
  /\ Forall (fun c => c = "="%char \/ exists s, (s < 64)%N /\ c = base64_char s)
       (list_ascii_of_string (base64Encode data)).
Proof. apply base64_encode_shape. Qed.

(** ** The retry loop, whatever the store answers *)

Lemma attempt_loop_rejects (this : DynamoDB) (items : list op) :
  forall fuel attempts n e,
    attempt_loop this fuel attempts items = Some (n, Rejected e) ->
    exists message, e = DatabaseError message.
Proof.
  induction fuel as [|fuel IH]; intros attempts n e; [discriminate|].
  cbn [attempt_loop].
  destruct (20 <? attempts + 1)%nat; [intros [= <- <-]; eauto|].
  destruct (client_transactWrite (client this) items (attempts + 1)) as [|message];
    [discriminate|].
  destruct (is_conflict message); [apply IH | intros [= <- <-]; eauto].
Qed.

Lemma all_settled_rejected (runs : list promise) (e : error) :
  all_settled runs = Rejected e -> In (Rejected e) runs.
Proof.
  induction runs as [|[v|e'] runs IH]; simpl; [discriminate| |].
  - destruct (all_settled runs) as [[|vs]|e''] eqn:Hrest; try discriminate.
    intros [= ->]. right. now apply IH.
  - intros [= ->]. now left.
Qed.

(** X15. Whatever the store answers, and with a ceiling of at least one
    operation, [transactWrite] settles: twenty-three units of fuel are
    enough. It makes at most twenty client calls for a list within the
    ceiling and at most twenty for each chunk of a longer list, and when
    it rejects, the error is a DatabaseError. *)
Theorem transactWrite_settles (this : DynamoDB) (fuel : nat) (ops : list op) :
  (0 < transactLimit this)%nat ->
  (23 <= fuel)%nat ->
  exists r,
    transactWrite this fuel ops = Some r
    /\ (length (calls r)
        <= 20 * (if (transactLimit this <? length ops)%nat
                 then length (chunk ops (transactLimit this)) else 1))%nat
    /\ (forall e, settled r = Rejected e -> exists message, e = DatabaseError message).
Proof.
  intros Hlimit Hfuel.
  assert (Hone : forall fuel' c,
             (22 <= fuel')%nat -> (length c <= transactLimit this)%nat ->
             exists r, transactWrite this fuel' c = Some r
                       /\ (length (calls r) <= 20)%nat
                       /\ (forall e, settled r = Rejected e ->
                             exists message, e = DatabaseError message)).
  { intros fuel' c Hf Hc. destruct fuel' as [|fuel']; [lia|].
    rewrite transactWrite_single by exact Hc.
    destruct (attempt_loop_total this (TransactItems this c) fuel' 0)
      as (n & s & Hloop & Hn & _); [lia..|].
    rewrite Hloop. eexists. split; [reflexivity|]. simpl.
    split; [rewrite length_replicate; lia|].
    intros e ->. eapply attempt_loop_rejects, Hloop. }
  destruct (Nat.ltb_spec (transactLimit this) (length ops)) as [Hlong|Hshort].
  - destruct fuel as [|fuel]; [lia|].
    rewrite transactWrite_chunked by exact Hlong.
    pose proof (chunk_sizes ops _ Hlimit) as Hsizes.
    assert (Hruns : exists runs,
               mapM (transactWrite this fuel) (chunk ops (transactLimit this)) = Some runs
               /\ length runs = length (chunk ops (transactLimit this))
               /\ Forall (fun r => (length (calls r) <= 20)%nat
                                   /\ forall e, settled r = Rejected e ->
                                        exists message, e = DatabaseError message) runs).
    { induction Hsizes as [|c chunks Hc _ (runs & Hm & Hlen & Hall)].
      - exists []. split; [reflexivity|]. split; [reflexivity | constructor].
      - destruct (Hone fuel c) as (r & Hr & Hcalls & Herr); [lia..|].
        exists (r :: runs). split; [|split].
        + apply mapM_Some. constructor; [exact Hr | now apply mapM_Some].
        + simpl. now rewrite Hlen.
        + constructor; auto. }
    destruct Hruns as (runs & -> & Hlen & Hall). rewrite <- Hlen.
    exists (Promise_all runs). split; [reflexivity|]. split.
    + unfold Promise_all. simpl. clear -Hall.
      induction Hall as [|r runs [Hr _] _ IH]; simpl; [lia|].
      rewrite length_app. lia.
    + unfold Promise_all. simpl. intros e He.
      apply all_settled_rejected, in_map_iff in He as (r & Hr & Hin).
      rewrite Forall_forall in Hall. apply list_elem_of_In in Hin.
      now apply (proj2 (Hall r Hin)).
  - destruct (Hone fuel ops) as (r & Hr & Hcalls & Herr); [lia..|].
    exists r. repeat split; trivial.
Qed.

Lemma transactWrite_settles_witness :
  exists r,
    transactWrite (conflicting_store 30 2) 23 five_ops = Some r
    /\ (length (calls r) <= 60)%nat
    /\ (forall e, settled r = Rejected e -> exists message, e = DatabaseError message).
Proof.
  apply (transactWrite_settles (conflicting_store 30 2) 23 five_ops); simpl; lia.
Defined.

(** ** [partition] on the other partition counts *)

Lemma hashValue_range (key : string) : (0 <= hashValue key < 2^32)%Z.
Proof.
  pose proof (digest_codes key 0) as H0. pose proof (digest_codes key 1) as H1.
  pose proof (digest_codes key 2) as H2. pose proof (digest_codes key 3) as H3.
  unfold hashValue. rewrite hashValueHash_octets by assumption. lia.
Qed.

(** X16. [partition] gives [NaN] for a count of zero and for no other;
    for a negative count it gives the bucket of the opposite count, which
    is never negative; and for a count of one it gives bucket [0]. *)
Theorem partition_other_counts (key : string) (partitions : Z) :
  (partition key partitions = None <-> partitions = 0%Z)
  /\ partition key (- partitions) = partition key partitions
  /\ (forall bucket, partition key partitions = Some bucket ->
        (0 <= bucket < Z.abs partitions)%Z)
  /\ partition key 1 = Some 0%Z.
Proof.
  pose proof (hashValue_range key) as Hrange. unfold partition.
  split; [|split; [|split]].
  - destruct (Z.eqb_spec partitions 0); split; congruence.
  - destruct (Z.eqb_spec partitions 0) as [->|Hne]; [reflexivity|].
    destruct (Z.eqb_spec (- partitions) 0); [lia|].
    now rewrite Z.rem_opp_r.
  - intros bucket. destruct (Z.eqb_spec partitions 0) as [->|Hne]; [discriminate|].
    intros [= <-]. pose proof (Z.rem_bound_pos_pos (hashValue key) (Z.abs partitions)).
    rewrite <- Z.rem_abs_r by exact Hne.
    pose proof (Z.rem_nonneg (hashValue key) (Z.abs partitions)).
    pose proof (Z.rem_bound_abs (hashValue key) (Z.abs partitions)). lia.
  - simpl. now rewrite Z.rem_1_r.
Qed.

(** ** [collectionDifferences] *)

Section DifferencesFacts.

Variable element : Type.
Variable key_value : Type.
Variable key : string.
Variable at_key : element -> key_value.
Variable strict_equal : key_value -> key_value -> bool.
Variable is_equal : element -> element -> bool.

Lemma find_by_key_none (collection : list element) (x : element) :
  find_by_key element key_value at_key strict_equal collection x = None
  <-> unmatched element key_value at_key strict_equal collection x = true.
Proof.
  unfold find_by_key, unmatched.
  induction collection as [|e collection IH]; simpl; [tauto|].
  destruct (strict_equal (at_key e) (at_key x)); simpl; [split; discriminate | exact IH].
Qed.

Lemma compare_with_fold (b a : list element) :
  forall removed changed,
    fold_left (compare_with element key_value key at_key strict_equal is_equal b) a
      (removed, changed)
    = (removed ++ List.filter (unmatched element key_value at_key strict_equal b) a,
       changed
       ++ flat_map (fun x =>
                      match find_by_key element key_value at_key strict_equal b x with
                      | Some y => if is_equal x y then []
                                  else [change_record element key_value key at_key x y]
                      | None => []
                      end) a).
Proof.
  induction a as [|x a IH]; intros removed changed; simpl.
  - now rewrite !app_nil_r.
  - pose proof (find_by_key_none b x) as Hnone.
    destruct (find_by_key element key_value at_key strict_equal b x) as [y|] eqn:Hf.
    + assert (Hu : unmatched element key_value at_key strict_equal b x = false).
      { destruct (unmatched _ _ _ _ b x); [|reflexivity].
        destruct Hnone as [_ H]. discriminate (H eq_refl). }
      rewrite Hu. destruct (is_equal x y); simpl; rewrite IH; [reflexivity|].
      now rewrite <- app_assoc.
    + rewrite (proj1 Hnone eq_refl). rewrite IH. now rewrite <- app_assoc.
Qed.

Lemma look_up_in_fold (a b : list element) :
  forall added,
    fold_left (look_up_in element key_value at_key strict_equal a) b added
    = added ++ List.filter (unmatched element key_value at_key strict_equal a) b.
Proof.
  induction b as [|y b IH]; intros added; simpl.
  - now rewrite app_nil_r.
  - unfold look_up_in at 2. pose proof (find_by_key_none a y) as Hnone.
    destruct (find_by_key element key_value at_key strict_equal a y) as [x|] eqn:Hf.
    + assert (Hu : unmatched element key_value at_key strict_equal a y = false).
      { destruct (unmatched _ _ _ _ a y); [|reflexivity].
        destruct Hnone as [_ H]. discriminate (H eq_refl). }
      now rewrite Hu, IH.
    + rewrite (proj1 Hnone eq_refl), IH. now rewrite <- app_assoc.
Qed.

(** The fields of a change record. *)
Lemma change_record_lookup (x y : element) :
  let c := change_record element key_value key at_key x y in
  c !! "from" = Some (if String.eqb key "from" then AKey (at_key x) else AnElement x)
  /\ c !! "to" = Some (if String.eqb key "to" then AKey (at_key x) else AnElement y)
  /\ c !! key = (if String.eqb key "__proto__" then None else Some (AKey (at_key x)))
  /\ (forall f, f <> "from" -> f <> "to" -> f <> key -> c !! f = None).
Proof.
  unfold change_record, assign, change.
  destruct (String.eqb_spec key "__proto__") as [->|Hproto]; cbv beta iota zeta.
  - split; [|split; [|split]].
    + rewrite lookup_insert_ne by discriminate. now rewrite lookup_singleton_eq.
    + now rewrite lookup_insert_eq.
    + rewrite lookup_insert_ne by discriminate.
      now rewrite lookup_singleton_ne by discriminate.
    + intros f Hfrom Hto _. rewrite lookup_insert_ne by congruence.
      now rewrite lookup_singleton_ne by congruence.
  - split; [|split; [|split]].
    + destruct (String.eqb_spec key "from") as [->|Hfrom].
      * now rewrite lookup_insert_eq.
      * rewrite !lookup_insert_ne by (congruence || discriminate).
        now rewrite lookup_singleton_eq.
    + destruct (String.eqb_spec key "to") as [->|Hto].
      * now rewrite lookup_insert_eq.
      * rewrite lookup_insert_ne by congruence. now rewrite lookup_insert_eq.
    + now rewrite lookup_insert_eq.
    + intros f Hfrom Hto Hkey. rewrite !lookup_insert_ne by congruence.
      now rewrite lookup_singleton_ne by congruence.
Qed.

(** X17. Whatever the key field and the two equalities are:
    [collectionDifferences] puts in [removed] exactly the elements of [a]
    whose key no element of [b] has, in [added] exactly the elements of
    [b] whose key no element of [a] has, both in their order, so that what
    is added from [a] to [b] is what is removed from [b] to [a]; and it
    puts in [changed], in the order of [a], one record for each element of
    [a] that differs from the first element of [b] with its key. The
    record is the object [{ from, to }] of the two elements to which the
    key of the element of [a] is assigned under the name of the key
    field: it holds the two elements under [from] and [to] and the key
    under that name, except that a key field named [from] or [to] puts
    the key in the place of the element, and that a key field named
    [__proto__] stores nothing. No element of [a] is counted twice. *)
Theorem collectionDifferences_sorts (a b : list element) :
  let d := collectionDifferences element key_value key at_key strict_equal is_equal a b in
  removed d = List.filter (unmatched element key_value at_key strict_equal b) a
  /\ added d = List.filter (unmatched element key_value at_key strict_equal a) b
  /\ added d
     = removed (collectionDifferences element key_value key at_key strict_equal is_equal b a)
  /\ changed d
     = flat_map (fun x =>
                   match find_by_key element key_value at_key strict_equal b x with
                   | Some y => if is_equal x y then []
                               else [change_record element key_value key at_key x y]
                   | None => []
                   end) a
  /\ Forall (fun c =>
               exists x y,
                 In x a
                 /\ find_by_key element key_value at_key strict_equal b x = Some y
                 /\ is_equal x y = false
                 /\ c !! "from"
                    = Some (if String.eqb key "from" then AKey (at_key x) else AnElement x)
                 /\ c !! "to"
                    = Some (if String.eqb key "to" then AKey (at_key x) else AnElement y)
                 /\ c !! key
                    = (if String.eqb key "__proto__" then None
                       else Some (AKey (at_key x)))
                 /\ (forall f, f <> "from" -> f <> "to" -> f <> key -> c !! f = None))
       (changed d)
  /\ (length (removed d) + length (changed d) <= length a)%nat.
Proof.
  unfold collectionDifferences.
  rewrite !compare_with_fold, !look_up_in_fold. simpl.
  split; [reflexivity|]. split; [reflexivity|]. split; [reflexivity|].
  split; [reflexivity|]. split.
  - apply Forall_forall. intros c Hc. apply list_elem_of_In, in_flat_map in Hc
      as (x & Hx & Hc).
    destruct (find_by_key element key_value at_key strict_equal b x) as [y|] eqn:Hf;
      [|destruct Hc].
    destruct (is_equal x y) eqn:He; [destruct Hc|].
    destruct Hc as [<-|[]]. exists x, y.
    destruct (change_record_lookup x y) as (H1 & H2 & H3 & H4). auto 10.
  - induction a as [|x a IH]; simpl; [lia|].
    pose proof (find_by_key_none b x) as Hnone.
    destruct (find_by_key element key_value at_key strict_equal b x) as [y|] eqn:Hf.
    + assert (Hu : unmatched element key_value at_key strict_equal b x = false).
      { destruct (unmatched _ _ _ _ b x); [|reflexivity].
        destruct Hnone as [_ H]. discriminate (H eq_refl). }
      rewrite Hu. destruct (is_equal x y); simpl; lia.
    + rewrite (proj1 Hnone eq_refl). simpl. lia.
Qed.

(** X18. A collection does not differ from itself, provided every key is
    strictly equal to itself (which [NaN] is not) and two elements of the
    collection that share a key are deep-equal (as when keys are not
    repeated). *)
Theorem collectionDifferences_self (a : list element) :
  (forall x, In x a -> strict_equal (at_key x) (at_key x) = true) ->
  (forall x y, In x a -> In y a ->
     strict_equal (at_key y) (at_key x) = true -> is_equal x y = true) ->
  collectionDifferences element key_value key at_key strict_equal is_equal a a
  = Differences [] [] [].
Proof.
  intros Hrefl Hsame. unfold collectionDifferences.
  rewrite compare_with_fold, look_up_in_fold. simpl.
  assert (Hnone : List.filter (unmatched element key_value at_key strict_equal a) a = []).
  { assert (H : forall l, (forall x, In x l -> In x a) ->
                  List.filter (unmatched element key_value at_key strict_equal a) l = []).
    { induction l as [|x l IH]; intros Hl; [reflexivity|]. simpl.
      assert (Hu : unmatched element key_value at_key strict_equal a x = false).
      { unfold unmatched. apply negb_false_iff, existsb_exists.
        exists x. split; [apply Hl; now left | apply Hrefl, Hl; now left]. }
      rewrite Hu. apply IH. intros y Hy. apply Hl. now right. }
    now apply H. }
  rewrite Hnone. f_equal.
  assert (H : forall l, (forall x, In x l -> In x a) ->
                flat_map (fun x =>
                   match find_by_key element key_value at_key strict_equal a x with
                   | Some y => if is_equal x y then []
                               else [change_record element key_value key at_key x y]
                   | None => []
                   end) l = []).
  { induction l as [|x l IH]; intros Hl; [reflexivity|]. simpl.
    rewrite IH by (intros y Hy; apply Hl; now right). rewrite app_nil_r.
    destruct (find_by_key element key_value at_key strict_equal a x) as [y|] eqn:Hf;
      [|reflexivity].
    apply find_some in Hf as [Hy Hk].
    now rewrite (Hsame x y (Hl x (or_introl eq_refl)) Hy Hk). }
  now apply H.
Qed.

End DifferencesFacts.

Lemma collectionDifferences_self_witness :
  collectionDifferences _ _ "key" at_key_field strict_equal_scalars is_equal_objects
    [keyed "a" "Ann"; keyed "b" "Bob"] [keyed "a" "Ann"; keyed "b" "Bob"]
  = Differences [] [] [].
Proof.
  apply collectionDifferences_self.
  - intros x [<-|[<-|[]]]; reflexivity.
  - intros x y [<-|[<-|[]]] [<-|[<-|[]]]; vm_compute; intros H;
      first [reflexivity | discriminate H].
Defined.

Example collectionDifferences_renamed :
  collectionDifferences _ _ "key" at_key_field strict_equal_scalars is_equal_objects
    [keyed "a" "Ann"; keyed "b" "Bob"] [keyed "b" "Rob"; keyed "c" "Cy"]
  = Differences [keyed "c" "Cy"] [keyed "a" "Ann"]
      [<["key" := AKey (VStr "b")]>
         (<["to" := AnElement (keyed "b" "Rob")]>
            {[ "from" := AnElement (keyed "b" "Bob") ]})].
Proof. vm_compute. reflexivity. Qed.

(** With the elements keyed by their field [from], the key takes the place
    of the element in the record. *)
Example collectionDifferences_key_from :
  collectionDifferences _ _ "from" (fun e : gmap string value => getProp e "from")
    strict_equal_scalars is_equal_objects
    [<["from" := VStr "a"]> {[ "name" := VStr "Ann" ]}]
    [<["from" := VStr "a"]> {[ "name" := VStr "Anna" ]}]
  = Differences [] []
      [<["to" := AnElement (<["from" := VStr "a"]> {[ "name" := VStr "Anna" ]})]>
         {[ "from" := AKey (VStr "a") ]}].
Proof. vm_compute. reflexivity. Qed.

(** ** [publishChange] and [withSilentPublish] *)

Lemma join_cons (sep part : string) (parts : list string) :
  parts <> [] -> join sep (part :: parts) = part +:+ sep +:+ join sep parts.
Proof. destruct parts; [congruence | reflexivity]. Qed.

Lemma split_on_nonempty (sep : ascii) (s : string) : split_on sep s <> [].
Proof.
  induction s as [|c s IH]; simpl; [discriminate|].
  destruct (Ascii.eqb c sep); [discriminate|].
  now destruct (split_on sep s).
Qed.

(** Replacing every slash is splitting at the slashes and joining with
    underscores. *)
Lemma replace_slashes_join (path : string) :
  replace_slashes path = join "_" (split_on "/" path).
Proof.
  induction path as [|c path IH]; [reflexivity|].
  simpl. pose proof (split_on_nonempty "/" path) as Hne.
  destruct (Ascii.eqb c "/") eqn:Hc.
  - rewrite join_cons by exact Hne. now rewrite append_nil_l, IH.
  - rewrite IH. destruct (split_on "/" path) as [|part parts]; [congruence|].
    destruct parts; [reflexivity|].
    change (join "_" (String c part :: s :: parts))
      with (String c part +:+ "_" +:+ join "_" (s :: parts)).
    now rewrite append_cons.
Qed.

Lemma join_removelast (sep : string) (parts : list string) :
  (2 <= length parts)%nat ->
  join sep parts = join sep (removelast parts) +:+ sep +:+ List.last parts "".
Proof.
  induction parts as [|p parts IH]; intros Hlen; [simpl in Hlen; lia|].
  destruct parts as [|q parts]; [simpl in Hlen; lia|].
  destruct parts as [|r parts]; [reflexivity|].
  change (removelast (p :: q :: r :: parts)) with (p :: removelast (q :: r :: parts)).
  change (List.last (p :: q :: r :: parts) "") with (List.last (q :: r :: parts) "").
  rewrite join_cons by discriminate.
  rewrite IH by (simpl; lia).
  rewrite join_cons by (simpl; destruct parts; discriminate).
  now rewrite !append_assoc.
Qed.

Lemma replace_slashes_clean (path : string) : has_char "/" (replace_slashes path) = false.
Proof.
  induction path as [|c path IH]; [reflexivity|].
  simpl. rewrite has_char_cons, IH.
  destruct (Ascii.eqb c "/") eqn:Hc; [reflexivity|].
  now rewrite Ascii.eqb_sym, Hc.
Qed.

Lemma split_on_clean (sep : ascii) (s : string) :
  Forall (fun part => has_char sep part = false) (split_on sep s).
Proof.
  induction s as [|c s IH]; simpl; [now repeat constructor|].
  destruct (Ascii.eqb c sep) eqn:Hc; [now constructor|].
  destruct (split_on sep s) as [|part parts].
  - repeat constructor. rewrite has_char_cons. simpl.
    now rewrite Ascii.eqb_sym, Hc.
  - inversion IH as [|? ? Hpart Hparts]; subst. constructor; [|exact Hparts].
    rewrite has_char_cons, Hpart. now rewrite Ascii.eqb_sym, Hc.
Qed.

Lemma join_clean (parts : list string) :
  Forall (fun part => has_char "/" part = false) parts ->
  has_char "/" (join "_" parts) = false.
Proof.
  induction parts as [|p parts IH]; intros H; [reflexivity|].
  inversion H as [|? ? Hp Hparts]; subst.
  destruct parts as [|q parts]; [exact Hp|].
  rewrite join_cons by discriminate.
  rewrite !has_char_append, Hp, (IH Hparts). reflexivity.
Qed.

Lemma removelast_Forall {A : Type} (P : A -> Prop) (l : list A) :
  Forall P l -> Forall P (removelast l).
Proof.
  induction 1 as [|x l Hx Hl IH]; [constructor|].
  destruct l as [|y l]; [constructor|]. simpl. constructor; auto.
Qed.

(** X19. In a worker and when publishing is not silenced, an entity
    whose path has fewer than three segments gets one event, on the
    channel that is its path with every slash replaced by an underscore,
    which holds no slash. A longer path gets two events: that one, and
    one on the channel of the parent collection, which holds no slash
    either and from which the entity's channel is obtained by appending
    an underscore and the last segment of the path. The collection event renames the actions [create],
    [update] and [delete] to [add], [update] and [remove], and carries no
    action for any other. *)
Theorem publishChange_channels (e : entity) (c : context) :
  isWorker c = true ->
  silencePublish c = false ->
  let segments := split_on "/" (path e) in
  has_char "/" (replace_slashes (path e)) = false
  /\ replace_slashes (path e) = join "_" segments
  /\ ((length segments < 3)%nat ->
      publishChange e c
      = [Publish (Event (replace_slashes (path e)) (Some (action e)) (id e))])
  /\ ((3 <= length segments)%nat ->
      exists parent,
        publishChange e c
        = [Publish (Event (replace_slashes (path e)) (Some (action e)) (id e));
           Publish (Event parent (collection_action (action e)) (id e))]
        /\ parent = join "_" (removelast segments)
        /\ has_char "/" parent = false
        /\ replace_slashes (path e) = parent +:+ "_" +:+ List.last segments "").
Proof.
  intros Hw Hs segments. unfold publishChange. rewrite Hw, Hs. simpl.
  split; [apply replace_slashes_clean|]. split; [apply replace_slashes_join|].
  fold segments. split.
  - intros Hlen. destruct (Nat.ltb_spec (length segments) 3); [reflexivity | lia].
  - intros Hlen. destruct (Nat.ltb_spec (length segments) 3); [lia|].
    eexists. split; [reflexivity|]. split; [reflexivity|]. split.
    + apply join_clean, removelast_Forall, split_on_clean.
    + rewrite replace_slashes_join. fold segments. apply join_removelast. lia.
Qed.

Lemma publishChange_channels_witness :
  publishChange (Entity "teams/7/members/42" "create" (VStr "42")) (Context true false)
  = [Publish (Event "teams_7_members_42" (Some "create") (VStr "42"));
     Publish (Event "teams_7_members" (Some "add") (VStr "42"))].
Proof.
  destruct (publishChange_channels
              (Entity "teams/7/members/42" "create" (VStr "42")) (Context true false)
              eq_refl eq_refl) as (_ & _ & _ & H).
  destruct H as (parent & -> & -> & _ & _); [simpl; lia|]. reflexivity.
Defined.

(** X20. While publishing is silenced [publishChange] does nothing, so
    the changes published inside [withSilentPublish] reach neither the
    queue nor the channels. When the operation returns the flag is set to
    [false], whatever it was before the call: the helper does not put
    back a silence that was already on. When the operation throws, the
    flag is left as the operation left it. *)
Theorem withSilentPublish_silences (c : context) (entities : list entity)
    (op : operation) :
  (forall e, publishChange e (Context (isWorker c) true) = [])
  /\ withSilentPublish c (publish_each entities)
     = (Context (isWorker c) false, [], inr false)
  /\ (forall c' effects,
        op (Context (isWorker c) true) = (c', effects, None) ->
        silencePublish (withSilentPublish c op).1.1 = false)
  /\ (forall c' effects error,
        op (Context (isWorker c) true) = (c', effects, Some error) ->
        withSilentPublish c op = (c', effects, inl error)).
Proof.
  split; [reflexivity|]. split; [|split].
  - unfold withSilentPublish, publish_each.
    assert (H : flat_map (fun e => publishChange e (Context (isWorker c) true)) entities
                = []) by (induction entities; [reflexivity | exact IHentities]).
    now rewrite H.
  - intros c' effects Hop. unfold withSilentPublish. now rewrite Hop.
  - intros c' effects error Hop. unfold withSilentPublish. now rewrite Hop.
Qed.

(** ** The retries of the worker *)

Lemma stepped_cases (strategy : string) :
  In strategy stepped_strategies ->
  strategy = "equal" \/ strategy = "stepped" \/ strategy = "steppedQuick"
  \/ strategy = "steppedLong".
Proof. simpl. intuition. Qed.

Ltac backoff_cases :=
  repeat match goal with
         | |- context [(?a <? ?b)%nat] => destruct (Nat.ltb_spec a b)
         | |- context [(?a =? ?b)%nat] => destruct (Nat.eqb_spec a b)
         end;
  try lia; try (split; [discriminate | lia]); try (split; [lia | discriminate]);
  try (split; intros; lia).

(** X21. For each of the strategies [equal], [stepped], [steppedQuick]
    and [steppedLong], and from the first attempt on, the delay is zero
    exactly from a fixed number of attempts on (5, 121, 21 and 20), and
    below that number the delay is positive and never shorter than at
    the attempt before. A missing strategy is [stepped]; a strategy the
    code does not know has delay zero at once; [exponential] has no delay
    at all, its function being empty. *)
Theorem delayDuration_gives_up (strategy : string) (attempts : nat) :
  In strategy stepped_strategies ->
  (1 <= attempts)%nat ->
  exists delay,
    delayDuration attempts (Some strategy) = Some delay
    /\ (delay = 0%N <-> (give_up_at strategy <= attempts)%nat)
    /\ ((S attempts < give_up_at strategy)%nat ->
        exists next, delayDuration (S attempts) (Some strategy) = Some next
                     /\ (0 < delay <= next)%N).
Proof.
  intros Hs Hn.
  apply stepped_cases in Hs as [-> | [-> | [-> | ->]]].
  - exists (equalBackoffDelay attempts). split; [reflexivity|].
    change (give_up_at "equal") with 5%nat.
    change (delayDuration (S attempts) (Some "equal"))
      with (Some (equalBackoffDelay (S attempts))).
    unfold equalBackoffDelay. split; [|intros Hlt; eexists; split; [reflexivity|]];
      backoff_cases.
  - exists (steppedBackoffDelay attempts). split; [reflexivity|].
    change (give_up_at "stepped") with 121%nat.
    change (delayDuration (S attempts) (Some "stepped"))
      with (Some (steppedBackoffDelay (S attempts))).
    unfold steppedBackoffDelay. split; [|intros Hlt; eexists; split; [reflexivity|]];
      backoff_cases.
  - exists (steppedQuickBackoffDelay attempts). split; [reflexivity|].
    change (give_up_at "steppedQuick") with 21%nat.
    change (delayDuration (S attempts) (Some "steppedQuick"))
      with (Some (steppedQuickBackoffDelay (S attempts))).
    unfold steppedQuickBackoffDelay.
    split; [|intros Hlt; eexists; split; [reflexivity|]]; backoff_cases.
  - exists (steppedLongBackoffDelay attempts). split; [reflexivity|].
    change (give_up_at "steppedLong") with 20%nat.
    change (delayDuration (S attempts) (Some "steppedLong"))
      with (Some (steppedLongBackoffDelay (S attempts))).
    unfold steppedLongBackoffDelay.
    split; [|intros Hlt; eexists; split; [reflexivity|]]; backoff_cases.
Qed.

Lemma delayDuration_gives_up_witness :
  delayDuration 120 (Some "stepped") = Some 30%N
  /\ delayDuration 121 (Some "stepped") = Some 0%N
  /\ exists delay, delayDuration 14 (Some "steppedLong") = Some delay
                   /\ (delay = 0%N <-> (give_up_at "steppedLong" <= 14)%nat).
Proof.
  split; [reflexivity|]. split; [reflexivity|].
  destruct (delayDuration_gives_up "steppedLong" 14) as (delay & Hd & Hzero & _).
  - simpl. auto.
  - lia.
  - exists delay. split; [exact Hd | exact Hzero].
Defined.

Lemma delayDuration_gives_up_total (strategy : string) (attempts : nat) :
  In strategy stepped_strategies ->
  (1 <= attempts)%nat ->
  exists delay,
    delayDuration attempts (Some strategy) = Some delay
    /\ (delay = 0%N <-> (give_up_at strategy <= attempts)%nat).
Proof.
  intros Hs Hn.
  apply stepped_cases in Hs as [-> | [-> | [-> | ->]]].
  - exists (equalBackoffDelay attempts). split; [reflexivity|].
    change (give_up_at "equal") with 5%nat. unfold equalBackoffDelay. backoff_cases.
  - exists (steppedBackoffDelay attempts). split; [reflexivity|].
    change (give_up_at "stepped") with 121%nat. unfold steppedBackoffDelay.
    backoff_cases.
  - exists (steppedQuickBackoffDelay attempts). split; [reflexivity|].
    change (give_up_at "steppedQuick") with 21%nat. unfold steppedQuickBackoffDelay.
    backoff_cases.
  - exists (steppedLongBackoffDelay attempts). split; [reflexivity|].
    change (give_up_at "steppedLong") with 20%nat. unfold steppedLongBackoffDelay.
    backoff_cases.
Qed.

Lemma uniq_loop_spec (array : list string) :
  forall seen,
    NoDup (uniq_loop seen array)
    /\ (forall x, In x (uniq_loop seen array) <-> In x array /\ ~ In x seen).
Proof.
  induction array as [|x array IH]; intros seen; simpl.
  - split; [constructor | tauto].
  - destruct (decide (x ∈ seen)) as [Hin|Hout].
    + rewrite bool_decide_eq_true_2 by exact Hin.
      destruct (IH seen) as [Hnd Hiff]. split; [exact Hnd|].
      intros y. rewrite Hiff. apply list_elem_of_In in Hin.
      split; [tauto|]. intros [[<-|Hy] Hs]; tauto.
    + rewrite bool_decide_eq_false_2 by exact Hout.
      destruct (IH (x :: seen)) as [Hnd Hiff]. split.
      * apply NoDup_cons. split; [|exact Hnd].
        rewrite list_elem_of_In, Hiff. simpl. tauto.
      * intros y. simpl. rewrite Hiff. simpl.
        rewrite list_elem_of_In in Hout.
        destruct (decide (x = y)) as [->|Hne]; [tauto|]. tauto.
Qed.

(** X22. [retry] counts one attempt more and adds the error to the
    errors of the job, which it keeps free of repetitions. With one of
    the strategies [equal], [stepped], [steppedQuick] and [steppedLong],
    a job that is to be retried is started again through the state
    machine with a positive delay, and neither run at once nor published
    to the topic, as long as the new count is below the number at which
    the strategy gives up; from that number on it is sent to the morgue.
    A job that is not to be retried is sent to the morgue. *)
Theorem retry_waits_or_gives_up (j : job) (err : string) (isWorker : bool)
    (strategy : string) :
  retryStrategy j = Some strategy ->
  In strategy stepped_strategies ->
  let count := (default 0%nat (attempts j) + 1)%nat in
  let errs := uniq (default [] (errors j) ++ [err]) in
  NoDup errs
  /\ In err errs
  /\ (forall e, In e errs <-> In e (default [] (errors j)) \/ e = err)
  /\ (retry_flag j = false -> retry j err isWorker = Morgue (topic j) count errs)
  /\ ((give_up_at strategy <= count)%nat ->
      retry j err isWorker = Morgue (topic j) count errs)
  /\ (retry_flag j = true -> (count < give_up_at strategy)%nat ->
      exists delay,
        (0 < delay)%N
        /\ delayDuration count (Some strategy) = Some delay
        /\ retry j err isWorker
           = StartExecution delay
               (Job (topic j) (data j) (Some count) (Some errs) true (Some strategy))).
Proof.
  intros Hstrategy Hs count errs.
  destruct (uniq_loop_spec (default [] (errors j) ++ [err]) []) as [Hnd Hin].
  fold (uniq (default [] (errors j) ++ [err])) in Hnd, Hin. fold errs in Hnd, Hin.
  assert (Hmem : forall e, In e errs <-> In e (default [] (errors j)) \/ e = err).
  { intros e. rewrite Hin, in_app_iff. simpl. intuition. }
  destruct (delayDuration_gives_up_total strategy count Hs) as (delay & Hd & Hzero);
    [unfold count; lia|].
  assert (Hname : match strategy with String c s => String c s | EmptyString => "stepped" end
                  = strategy)
    by (apply stepped_cases in Hs as [-> | [-> | [-> | ->]]]; reflexivity).
  split; [exact Hnd|]. split; [apply Hmem; now right|]. split; [exact Hmem|].
  unfold retry. fold count. fold errs. rewrite Hstrategy, Hd.
  split; [|split].
  - intros Hflag. destruct delay as [|d]; [reflexivity|].
    unfold enqueue. simpl. rewrite Hflag.
    destruct (Nat.ltb_spec 0 count) as [_|H0]; [reflexivity | unfold count in H0; lia].
  - intros Hge. apply Hzero in Hge. now subst delay.
  - intros Hflag Hlt. exists delay.
    assert (Hpos : (0 < delay)%N).
    { destruct (N.eq_dec delay 0%N) as [H0|H0]; [apply Hzero in H0; lia | lia]. }
    split; [exact Hpos|]. split; [reflexivity|].
    destruct delay as [|d]; [lia|].
    unfold enqueue.
    cbn [option_attempts option_delay option_errors option_retry option_retryStrategy
           default from_option Datatypes.id].
    rewrite Hflag, Hname.
    rewrite andb_false_r.
    assert (Hd0 : (N.pos d =? 0)%N = false) by now apply N.eqb_neq.
    rewrite Hd0, andb_false_r.
    destruct (N.ltb_spec 0 (N.pos d)); [reflexivity | lia].
Qed.

Lemma retry_waits_or_gives_up_witness :
  retry (Job "sendEmail" (VStr "42") (Some 3%nat) (Some ["boom"]) true (Some "stepped"))
    "boom" true
  = StartExecution 5
      (Job "sendEmail" (VStr "42") (Some 4%nat) (Some ["boom"]) true (Some "stepped")).
Proof.
  destruct (retry_waits_or_gives_up
              (Job "sendEmail" (VStr "42") (Some 3%nat) (Some ["boom"]) true (Some "stepped"))
              "boom" true "stepped" eq_refl) as (_ & _ & _ & _ & _ & H).
  - simpl. auto.
  - destruct H as (delay & _ & Hd & ->);
      [reflexivity | change (give_up_at "stepped") with 121%nat; simpl; lia|].
    injection Hd as <-. reflexivity.
Defined.

(** X23. With the strategy [exponential], whose delay function is empty,
    a job that is to be retried is never sent to the morgue and never
    waits: whatever the count of attempts, [retry] has it run again at
    once in a worker, and published to the topic at once elsewhere. *)
Theorem retry_exponential_never_gives_up (j : job) (err : string) (isWorker : bool) :
  retryStrategy j = Some "exponential" ->
  retry_flag j = true ->
  let again := Job (topic j) (data j) (Some (default 0%nat (attempts j) + 1)%nat)
                 (Some (uniq (default [] (errors j) ++ [err]))) true
                 (Some "exponential") in
  delayDuration (default 0%nat (attempts j) + 1) (retryStrategy j) = None
  /\ retry j err isWorker = if isWorker then WorkNow again else SnsPublish again.
Proof.
  intros Hstrategy Hflag again. rewrite Hstrategy at 1. split; [reflexivity|].
  unfold retry. rewrite Hstrategy.
  change (delayDuration (default 0%nat (attempts j) + 1) (Some "exponential"))
    with (@None N).
  unfold enqueue.
  cbn [option_attempts option_delay option_errors option_retry option_retryStrategy
         default from_option Datatypes.id].
  rewrite Hflag, andb_false_r. now destruct isWorker.
Qed.

Lemma retry_exponential_never_gives_up_witness :
  retry (Job "sendEmail" (VStr "42") (Some 1000%nat) None true (Some "exponential"))
    "boom" false
  = SnsPublish (Job "sendEmail" (VStr "42") (Some 1001%nat) (Some ["boom"]) true
                  (Some "exponential")).
Proof.
  apply (proj2 (retry_exponential_never_gives_up
                  (Job "sendEmail" (VStr "42") (Some 1000%nat) None true
                     (Some "exponential")) "boom" false eq_refl eq_refl)).
Defined.

(** ** The object identifiers of the search index *)

(** X24. Renaming [id] to [objectID] on the way to the index and back
    gives the object again, provided it has an [id] and no field named
    [objectID]; likewise a hit that has an [objectID] and no [id] is
    given back by the two renamings in the other order. When the object
    has a field [objectID] of its own, that field is what the index
    receives, and the [id] is lost. *)
Theorem index_round_trip (object : gmap string value) :
  (is_Some (object !! "id") -> object !! "objectID" = None ->
   from_index (to_index object) = object)
  /\ (is_Some (object !! "objectID") -> object !! "id" = None ->
      to_index (from_index object) = object)
  /\ (forall v, object !! "objectID" = Some v ->
        to_index object !! "objectID" = Some v /\ to_index object !! "id" = None).
Proof.
  assert (Hswap : forall (a b : string) (o : gmap string value),
             a <> b -> is_Some (o !! a) -> o !! b = None ->
             let there := spread {[ b := getProp o a ]} (delete a o) in
             spread {[ a := getProp there b ]} (delete b there) = o).
  { intros a b o Hab [v Ha] Hb there. unfold spread in *. apply map_eq. intros f.
    assert (Hthere : getProp there b = v).
    { unfold getProp, there.
      rewrite lookup_union_r by (rewrite lookup_delete_ne by congruence; exact Hb).
      rewrite lookup_singleton_eq. unfold getProp. now rewrite Ha. }
    rewrite Hthere. destruct (decide (f = a)) as [->|Hfa].
    - rewrite lookup_union_r.
      + now rewrite lookup_singleton_eq.
      + rewrite lookup_delete_ne by congruence. unfold there.
        rewrite lookup_union_r by apply lookup_delete_eq.
        now apply lookup_singleton_ne.
    - destruct (decide (f = b)) as [->|Hfb].
      + rewrite lookup_union_r by apply lookup_delete_eq.
        rewrite lookup_singleton_ne by congruence. now rewrite Hb.
      + rewrite lookup_union_l by (now apply lookup_singleton_ne).
        rewrite lookup_delete_ne by congruence. unfold there.
        rewrite lookup_union_l by (now apply lookup_singleton_ne).
        now rewrite lookup_delete_ne by congruence. }
  split; [|split].
  - intros Hid Hobj. now apply (Hswap "id" "objectID").
  - intros Hobj Hid. now apply (Hswap "objectID" "id").
  - intros v Hv. unfold to_index, spread. split.
    + apply lookup_union_Some_l. now rewrite lookup_delete_ne by discriminate.
    + rewrite lookup_union_r by apply lookup_delete_eq.
      now apply lookup_singleton_ne.
Qed.

Lemma index_round_trip_witness :
  from_index (to_index (<["id" := VStr "42"]> {[ "name" := VStr "Ann" ]}))
  = <["id" := VStr "42"]> {[ "name" := VStr "Ann" ]}.
Proof.
  apply (proj1 (index_round_trip (<["id" := VStr "42"]> {[ "name" := VStr "Ann" ]}))).
  - eexists. reflexivity.
  - reflexivity.
Defined.

(** ** [migrate] *)

Section MigrateFacts.

Variable unixNow : string -> Z.
Variable dynamo_put : gmap string value -> response.

Lemma run_pending_closed (pending : list migration) :
  (forall item, dynamo_put item = Success) ->
  run_pending unixNow dynamo_put pending
  = (flat_map (ran_and_stored unixNow) (successful_prefix pending)
     ++ match drop (length (successful_prefix pending)) pending with
        | m :: _ => [Ran (migration_name m)]
        | [] => []
        end,
     if (length (successful_prefix pending) =? length pending)%nat
     then AllComplete else MigrationFailed).
Proof.
  intros Hput. induction pending as [|m pending IH]; [reflexivity|].
  simpl. destruct (runs m); [|reflexivity].
  rewrite Hput, IH. reflexivity.
Qed.

Lemma migrate_closed (migrations : list migration)
    (previous : list (gmap string value)) :
  (forall item, dynamo_put item = Success) ->
  migrate unixNow dynamo_put migrations (inr previous)
  = (flat_map (ran_and_stored unixNow)
       (successful_prefix (differenceWith migrations previous same_name))
     ++ match drop (length (successful_prefix
                              (differenceWith migrations previous same_name)))
                (differenceWith migrations previous same_name) with
        | m :: _ => [Ran (migration_name m)]
        | [] => []
        end,
     if (length (differenceWith migrations previous same_name) =? 0)%nat then UpToDate
     else if (length (successful_prefix (differenceWith migrations previous same_name))
              =? length (differenceWith migrations previous same_name))%nat
          then AllComplete
          else MigrationFailed).
Proof.
  intros Hput. unfold migrate.
  destruct (differenceWith migrations previous same_name) as [|m pending'] eqn:Hp;
    [reflexivity|].
  change (length (m :: pending') =? 0)%nat with false.
  cbv iota. now rewrite run_pending_closed.
Qed.

(** X25. When the store accepts the items, [migrate] runs the migrations
    that no previous record names, in their order, and puts a record
    after each one that returns; it stops at the first that throws,
    which it neither records nor follows with another. Every migration
    it runs is one without a previous record, and every record it puts
    has the partition key [root#migrations] and a sort key that starts
    with [name-], the prefix that the query for the previous migrations
    asks for. *)
Theorem migrate_runs_pending (migrations : list migration)
    (previous : list (gmap string value)) :
  (forall item, dynamo_put item = Success) ->
  let pending := differenceWith migrations previous same_name in
  let done := successful_prefix pending in
  migrate unixNow dynamo_put migrations (inr previous)
  = (flat_map (ran_and_stored unixNow) done
     ++ match drop (length done) pending with
        | m :: _ => [Ran (migration_name m)]
        | [] => []
        end,
     if (length pending =? 0)%nat then UpToDate
     else if (length done =? length pending)%nat then AllComplete
          else MigrationFailed)
  /\ Forall (fun m => In m migrations
                      /\ Forall (fun record => getProp record "name"
                                               <> VStr (migration_name m)) previous)
       pending
  /\ Forall (fun item => item !! "pk" = Some (VStr "root#migrations")
                         /\ exists rest, item !! "sk" = Some (VStr ("name-" +:+ rest)))
       (stored_items (flat_map (ran_and_stored unixNow) done)).
Proof.
  intros Hput pending done. split; [|split].
  - now apply migrate_closed.
  - apply Forall_forall. intros m Hm. apply list_elem_of_In in Hm.
    unfold pending, differenceWith in Hm. apply filter_In in Hm as [Hin Hnone].
    split; [exact Hin|]. apply Forall_forall. intros record Hr.
    apply list_elem_of_In in Hr. apply negb_true_iff in Hnone.
    intros Hname. rewrite <- not_true_iff_false in Hnone. apply Hnone.
    apply existsb_exists. exists record. split; [exact Hr|].
    unfold same_name. now apply bool_decide_eq_true_2.
  - induction done as [|m done' IH]; [constructor|].
    simpl. constructor; [|exact IH]. split; [reflexivity|].
    eexists. unfold migration_item. rewrite lookup_insert_ne by discriminate.
    rewrite lookup_insert_eq. reflexivity.
Qed.

Lemma stored_items_done (done : list migration) :
  stored_items (flat_map (ran_and_stored unixNow) done)
  = List.map (fun m => migration_item unixNow (migration_name m)) done.
Proof. induction done as [|m done IH]; [reflexivity|]. simpl. now rewrite IH. Qed.

Lemma successful_prefix_all (pending : list migration) :
  length (successful_prefix pending) = length pending ->
  successful_prefix pending = pending.
Proof.
  induction pending as [|m pending IH]; [reflexivity|]. simpl.
  destruct (runs m); simpl; [|discriminate]. intros [= H]. now rewrite IH.
Qed.

(** X26. After a call of [migrate] in which every pending migration
    returned and every record was stored, a second call, given the
    previous records and the ones the first call stored, finds nothing
    pending and does nothing. *)
Theorem migrate_twice (migrations : list migration)
    (previous : list (gmap string value)) (effects : list migrator_effect) :
  (forall item, dynamo_put item = Success) ->
  migrate unixNow dynamo_put migrations (inr previous) = (effects, AllComplete) ->
  migrate unixNow dynamo_put migrations (inr (previous ++ stored_items effects))
  = ([], UpToDate).
Proof.
  intros Hput Hfirst.
  pose proof (migrate_closed migrations previous Hput) as Hclosed.
  rewrite Hfirst in Hclosed.
  set (pending := differenceWith migrations previous same_name) in *.
  destruct (length pending =? 0)%nat eqn:H0; [discriminate|].
  destruct (Nat.eqb_spec (length (successful_prefix pending)) (length pending))
    as [Hall|]; [|discriminate].
  apply successful_prefix_all in Hall. rewrite Hall in Hclosed.
  rewrite drop_all, app_nil_r in Hclosed. injection Hclosed as ->.
  rewrite stored_items_done. unfold migrate.
  assert (Hnone : differenceWith migrations
                    (previous ++ List.map (fun m => migration_item unixNow (migration_name m))
                                   pending) same_name = []).
  { unfold differenceWith.
    assert (H : forall l, (forall m, In m l -> In m migrations) ->
                  List.filter (fun x => negb (existsb (same_name x)
                     (previous ++ List.map
                        (fun m => migration_item unixNow (migration_name m)) pending))) l
                  = []).
    { induction l as [|m l IH]; intros Hl; [reflexivity|]. simpl.
      rewrite IH by (intros m' Hm'; apply Hl; now right).
      rewrite existsb_app.
      destruct (existsb (same_name m) previous) eqn:Hprev; [reflexivity|].
      assert (Hpend : In m pending).
      { unfold pending, differenceWith. apply filter_In. split; [apply Hl; now left|].
        now rewrite Hprev. }
      assert (Hex : existsb (same_name m)
                      (List.map (fun m0 => migration_item unixNow (migration_name m0))
                         pending) = true).
      { apply existsb_exists. exists (migration_item unixNow (migration_name m)).
        split; [exact (in_map (fun m0 => migration_item unixNow (migration_name m0))
                         pending m Hpend)|]. unfold same_name. apply bool_decide_eq_true_2.
        reflexivity. }
      now rewrite Hex. }
    now apply H. }
  now rewrite Hnone.
Qed.

End MigrateFacts.

Lemma migrate_runs_pending_witness :
  migrate fixed_clock accepting_put three_migrations (inr [users_record])
  = ([Ran "teams";
      Stored (<["pk" := VStr "root#migrations"]>
                (<["sk" := VStr "name-teams-1700000000001"]>
                   (<["name" := VStr "teams"]> {[ "createdAt" := VStr "1700000000001" ]})));
      Ran "roles"], MigrationFailed).
Proof.
  destruct (migrate_runs_pending fixed_clock accepting_put three_migrations
              [users_record] (fun _ => eq_refl)) as [H _].
  cbv zeta in H. rewrite H. vm_compute. reflexivity.
Defined.

Lemma migrate_twice_witness :
  migrate fixed_clock accepting_put (take 2 three_migrations)
    (inr ([users_record]
          ++ stored_items
               (migrate fixed_clock accepting_put (take 2 three_migrations)
                  (inr [users_record])).1))
  = ([], UpToDate).
Proof.
  apply (migrate_twice fixed_clock accepting_put (take 2 three_migrations)
           [users_record] _ (fun _ => eq_refl)).
  vm_compute. reflexivity.
Defined.

(** ** [import] after [export] *)

Lemma putBatch_sends_each_once (this : DynamoDB) (fuel : nat)
    (items : list (gmap string value)) :
  (0 < transactLimit this)%nat ->
  (2 <= fuel)%nat ->
  exists r, putBatch this fuel items = Some r
            /\ concat (calls r) = items
            /\ Forall (fun batch => length batch <= transactLimit this)%nat (calls r).
Proof.
  intros Hlimit Hfuel.
  destruct (Nat.le_gt_cases (length items) (transactLimit this)) as [Hshort|Hlong].
  - destruct fuel as [|fuel]; [lia|]. rewrite putBatch_single by exact Hshort.
    eexists. split; [reflexivity|]. simpl. rewrite app_nil_r.
    split; [reflexivity|]. now repeat constructor.
  - destruct fuel as [|[|fuel]]; [lia..|]. rewrite putBatch_chunked by exact Hlong.
    pose proof (chunk_sizes items _ Hlimit) as Hsizes.
    assert (Hm : mapM (putBatch this (S fuel)) (chunk items (transactLimit this))
                 = Some (List.map (putBatch_once this) (chunk items (transactLimit this)))).
    { apply mapM_Some, Forall2_fmap_r, Forall_Forall2_diag.
      eapply Forall_impl; [exact Hsizes|]. intros c Hc. cbv beta in Hc |- *.
      now rewrite putBatch_single by lia. }
    rewrite Hm. eexists. split; [reflexivity|].
    assert (Hcalls : calls (Promise_all (List.map (putBatch_once this)
                                            (chunk items (transactLimit this))))
                     = chunk items (transactLimit this)).
    { unfold Promise_all. simpl. rewrite List.map_map. simpl.
      generalize (chunk items (transactLimit this)). clear.
      induction l as [|c chunks IH]; [reflexivity|]. simpl. now rewrite IH. }
    rewrite Hcalls. split; [now apply chunk_concat|].
    eapply Forall_impl; [exact Hsizes|]. intros c Hc. cbv beta in Hc |- *. lia.
Qed.

(** X27. [import] of the text that [export] returned, when [JSON.parse]
    reads the text of [JSON.stringify] back, sends the exported items to
    the store in their order, each exactly once, in batches that are
    within the ceiling; two units of fuel are enough, and when it
    resolves it resolves to [true]. *)
Theorem import_of_export (this : DynamoDB) (fuel scans : nat)
    (client_scan : nat -> scan_response)
    (JSON_stringify_pretty : list (gmap string value) -> string)
    (JSON_parse_items : string -> option (list (gmap string value)))
    (exported : list (gmap string value)) :
  (0 < transactLimit this)%nat ->
  (2 <= fuel)%nat ->
  JSON_parse_items (JSON_stringify_pretty exported) = Some exported ->
  export_loop client_scan scans 0 [] = Some (inr exported) ->
  exists text r,
    export client_scan JSON_stringify_pretty scans = Some (inr text)
    /\ import JSON_parse_items this fuel text = Some r
    /\ concat (calls r) = exported
    /\ Forall (fun batch => length batch <= transactLimit this)%nat (calls r)
    /\ (is_resolved (settled r) = true -> settled r = Resolved RTrue).
Proof.
  intros Hlimit Hfuel Hjson Hexport.
  destruct (putBatch_sends_each_once this fuel exported Hlimit Hfuel)
    as (r & Hput & Hcat & Hsizes).
  eexists _, _. split; [unfold export; now rewrite Hexport|].
  unfold import. rewrite Hjson, Hput. simpl.
  split; [reflexivity|]. split; [exact Hcat|]. split; [exact Hsizes|].
  now destruct (settled r).
Qed.

Lemma import_of_export_witness :
  exists text r,
    export two_pages_scan stringify_items 2 = Some (inr text)
    /\ import parse_items (conflicting_store 1 2) 2 text = Some r
    /\ concat (calls r) = three_items.
Proof.
  destruct (import_of_export (conflicting_store 1 2) 2 2 two_pages_scan
              stringify_items parse_items three_items)
    as (text & r & He & Hi & Hc & _).
  - simpl. lia.
  - lia.
  - vm_compute. reflexivity.
  - reflexivity.
  - exists text, r. auto.
Defined.

(** ** A key migration is a removal followed by an addition *)

Lemma fold_insert_lookup (data base : gmap string value) (fs : list string) (f : string) :
  fold_left (fun item field => <[field := getProp data field]> item) fs base !! f
  = if bool_decide (f ∈ fs) then Some (getProp data f) else base !! f.
Proof.
  revert base. induction fs as [|g fs IH]; intros base; simpl; [reflexivity|].
  rewrite IH. destruct (decide (f = g)) as [->|Hne].
  - rewrite (bool_decide_eq_true_2 (g ∈ g :: fs)) by left.
    destruct (bool_decide (g ∈ fs)); [reflexivity|]. now rewrite lookup_insert_eq.
  - rewrite lookup_insert_ne by congruence.
    destruct (decide (f ∈ fs)) as [Hin|Hout].
    + rewrite (bool_decide_eq_true_2 (f ∈ fs)), (bool_decide_eq_true_2 (f ∈ g :: fs));
        trivial. now right.
    + rewrite (bool_decide_eq_false_2 (f ∈ fs)), (bool_decide_eq_false_2 (f ∈ g :: fs));
        trivial. intros [->|H]%elem_of_cons; congruence.
Qed.

Lemma key_object_other (k : item_key) (f : string) :
  f <> "pk" -> f <> "sk" -> key_object k !! f = None.
Proof.
  intros Hpk Hsk. unfold key_object.
  rewrite !lookup_insert_ne by congruence. apply lookup_empty.
Qed.

(** The item [add] puts is the projected item of the specification when
    the field list names neither a key field nor a member of
    [Object.prototype]. *)
Lemma add_item_projected (p : pattern) (entity : gmap string value) (k : item_key) :
  plain_fields p = true ->
  (forall fs, fields p = Some fs -> ~ In "pk" fs /\ ~ In "sk" fs) ->
  add_item p entity k = projected_item p entity k.
Proof.
  intros Hplain Hfs. unfold plain_fields in Hplain.
  destruct (fields p) as [fs|] eqn:Hf;
    [|unfold add_item, projected_item, project; now rewrite Hf].
  destruct (Hfs fs eq_refl) as [Hpk Hsk].
  apply map_eq. intros f. rewrite (add_item_lookup p entity k fs f Hf).
  unfold projected_item, project, spread. rewrite Hf.
  destruct (decide (f ∈ fs)) as [Hin|Hout].
  - rewrite bool_decide_eq_true_2 by exact Hin.
    assert (Hproto : String.eqb f "__proto__" = false).
    { apply String.eqb_neq, plain_name_proto.
      apply (proj1 (forallb_forall _ _) Hplain). now apply list_elem_of_In. }
    rewrite Hproto. simpl.
    assert (Hk : key_object k !! f = None).
    { apply key_object_other; intros ->; apply list_elem_of_In in Hin; tauto. }
    rewrite lookup_union_r by exact Hk.
    rewrite fold_insert_lookup. now rewrite bool_decide_eq_true_2.
  - rewrite bool_decide_eq_false_2 by exact Hout. simpl.
    destruct (key_object k !! f) as [v|] eqn:Hk.
    + symmetry. now apply lookup_union_Some_l.
    + rewrite lookup_union_r by exact Hk.
      rewrite fold_insert_lookup, bool_decide_eq_false_2 by exact Hout.
      symmetry. apply lookup_empty.
Qed.

(** X28. Let [merged] be the entity merged with the caller's change set.
    For a collection of one pattern whose predicate, if any, accepts the
    entity and [merged], whose keys resolve to different pairs on the
    two, whose field list names neither [pk] nor [sk] nor a member of
    [Object.prototype], and a change set that sets no listed field to
    [undefined] and defines no field that the entity lacks with the value
    the entity reads for it: the batch [update] submits is the batch
    [remove] submits for the entity followed by the batch [add] submits
    for [merged]. *)
Theorem update_migration_is_remove_then_add (p : pattern)
    (data changes : gmap string value) (prevKey currKey : item_key) :
  let merged := spread data changes in
  no_dangling data changes = true ->
  plain_fields p = true ->
  defines_listed p changes = true ->
  included p data = true ->
  included p merged = true ->
  resolve_keys p data = inr prevKey ->
  resolve_keys p merged = inr currKey ->
  key_pk prevKey <> key_pk currKey \/ key_sk prevKey <> key_sk currKey ->
  (forall fs, fields p = Some fs -> ~ In "pk" fs /\ ~ In "sk" fs) ->
  exists dels puts,
    remove [p] data None = Submitted dels
    /\ add [p] merged None = Submitted puts
    /\ update [p] data changes None
       = (remove_unchanged data changes, Submitted (dels ++ puts)).
Proof.
  intros merged Hdangling Hplain Hdef Hwas His Hprev Hcurr Hdiff Hkeys.
  pose proof (spread_remove_unchanged data changes Hdangling) as Hmerged.
  exists [Delete None prevKey], [Put None (add_item p merged currKey)].
  split; [|split].
  - unfold remove, remove_pattern. simpl.
    now rewrite included_rejects, Hwas, Hprev.
  - unfold add, add_pattern. simpl.
    now rewrite included_rejects, His, Hcurr.
  - rewrite add_item_projected by assumption.
    set (c1 := remove_unchanged data changes) in *.
    assert (Hp : update_pattern data c1 p
                 = (c1, inr [Delete None prevKey;
                             Put None (projected_item p merged currKey)])).
    { unfold update_pattern. unfold included in His. rewrite Hmerged. fold merged.
      assert (Hcurrobj : (match fields p with
                          | Some fs => pull_fields fs data c1
                          | None => (data, merged, c1)
                          end).1.2 = project (fields p) merged).
      { unfold plain_fields, defines_listed in *.
        destruct (fields p) as [fs|] eqn:Hfs; [|reflexivity].
        rewrite pull_fields_curr; [now rewrite Hmerged|].
        intros f Hf. split.
        - now apply (proj1 (forallb_forall _ _) Hplain).
        - intros Hc. apply remove_unchanged_lookup in Hc as [Hc _].
          apply (proj1 (forallb_forall _ _) Hdef) in Hf.
          apply negb_true_iff, bool_decide_eq_false_1 in Hf. contradiction. }
      destruct (match fields p with
                | Some fs => pull_fields fs data c1
                | None => (data, merged, c1)
                end) as [[prev curr] cc]. simpl in Hcurrobj. subst curr.
      destruct (when p) as [w|]; rewrite ?His, ?andb_false_r; simpl;
        rewrite Hprev, Hcurr, (proj2 (key_changed_iff _ _) Hdiff); reflexivity. }
    unfold update. fold c1. simpl. now rewrite Hp.
Qed.

Lemma update_migration_is_remove_then_add_witness :
  update [profile_pattern] ann {[ "id" := VStr "43" ]} None
  = ({[ "id" := VStr "43" ]},
     Submitted [Delete None (ItemKey "user#42" "profile");
                Put None (<["pk" := VStr "user#43"]> (<["sk" := VStr "profile"]>
                   (<["name" := VStr "Ann"]> {[ "email" := VStr "a@x.com" ]})))]).
Proof.
  destruct (update_migration_is_remove_then_add profile_pattern ann
              {[ "id" := VStr "43" ]}
              (ItemKey "user#42" "profile") (ItemKey "user#43" "profile"))
    as (dels & puts & Hr & Ha & Hu).
  - vm_compute. reflexivity.
  - reflexivity.
  - vm_compute. reflexivity.
  - reflexivity.
  - reflexivity.
  - vm_compute. reflexivity.
  - vm_compute. reflexivity.
  - left. simpl. discriminate.
  - intros fs [= <-]. simpl. intuition discriminate.
  - rewrite Hu. f_equal. f_equal.
    assert (Hd : remove [profile_pattern] ann None
                 = Submitted [Delete None (ItemKey "user#42" "profile")])
      by (vm_compute; reflexivity).
    assert (Hp : add [profile_pattern] (spread ann {[ "id" := VStr "43" ]}) None
                 = Submitted [Put None (<["pk" := VStr "user#43"]>
                     (<["sk" := VStr "profile"]>
                        (<["name" := VStr "Ann"]> {[ "email" := VStr "a@x.com" ]})))])
      by (vm_compute; reflexivity).
    rewrite Hd in Hr. rewrite Hp in Ha. injection Hr as <-. injection Ha as <-.
    vm_compute. reflexivity.
Defined.

(** The batches differ for a pattern that lists a field named like a
    member of [Object.prototype], which the entity has and the change set
    lacks: [update] reads the builtin from the change set, [add] reads
    the entity's field from the merged entity. *)
Example update_migration_inherited_field :
  update [constructor_pattern]
    (<["id" := VStr "1"]> {[ "constructor" := VStr "x" ]}) {[ "id" := VStr "2" ]} None
  = ({[ "id" := VStr "2" ]},
     Submitted [Delete None (ItemKey "user#1" "profile");
                Put None (<["pk" := VStr "user#2"]> (<["sk" := VStr "profile"]>
                   {[ "constructor" := VMember MConstructor ]}))])
  /\ add [constructor_pattern]
       (spread (<["id" := VStr "1"]> {[ "constructor" := VStr "x" ]}) {[ "id" := VStr "2" ]})
       None
     = Submitted [Put None (<["pk" := VStr "user#2"]> (<["sk" := VStr "profile"]>
                    {[ "constructor" := VStr "x" ]}))].
Proof. split; vm_compute; reflexivity. Qed.

(** ** Templates without a placeholder *)

Lemma matchAll_from_no_brace (s : string) :
  has_char "{" s = false -> forall skip, matchAll_from skip s = [].
Proof.
  induction s as [|c s IH]; intros H skip; [reflexivity|].
  rewrite has_char_cons in H. apply orb_false_iff in H as [Hc Hs].
  simpl. destruct skip; [|now apply IH].
  rewrite Ascii.eqb_sym, Hc. now apply IH.
Qed.

(** X29. A key template that holds no opening brace has no placeholder:
    [#key] returns it unchanged for every entity, and never throws. *)
Theorem key_of_constant_template (template : string) (data : gmap string value) :
  has_char "{" template = false -> key template data = inr template.
Proof.
  intros H. unfold key, matchAll. now rewrite matchAll_from_no_brace.
Qed.

Lemma key_of_constant_template_witness : key "profile" ann = inr "profile".
Proof. apply key_of_constant_template. reflexivity. Defined.

(** ** Patterns that stay excluded *)


